(** * The relay gateway (package gateway): ConnectWithRelay and Listen

    A shallow embedding of the Go package [gateway] (the relay gateway of
    the Infisical CLI; its source is the Go text that starts at line 82 of
    src/docs/integrations/cloud/azure-key-vault.mdx).  Calls that leave
    the process (the control plane,
    the network, the TURN client, the clock) are inputs of the model; what
    the gateway does with their results is translated statement by
    statement.  Goroutines are interleaved by an explicit scheduler.

    The second part of the file embeds the webhook functions of the
    backend (src/backend/src/services/webhook/webhook-fns.ts). *)

From Stdlib Require Import List String Ascii Bool ZArith Lia Arith.
From Stdlib Require DecimalString.
Import ListNotations.
Local Open Scope string_scope.
Local Open Scope list_scope.
Local Open Scope Z_scope.

(* ================================================================== *)
(** ** Go values used by the package *)

(** A Go [error] value: its [Error()] text and, when its dynamic type
    implements [net.Error], the value of [Timeout()]. *)
Record error := mkError {
  Error : string;
  netError : option bool
}.

(** [fmt.Errorf("<prefix>: %w", err)]: the wrapper is a [*fmt.wrapError],
    which is not a [net.Error]. *)
Definition Errorf_w (prefix : string) (e : error) : error :=
  mkError (prefix ++ ": " ++ Error e)%string None.

(** [fmt.Errorf("<prefix>: %s", err)] *)
Definition Errorf_s (prefix : string) (e : error) : error :=
  mkError (prefix ++ ": " ++ Error e)%string None.

Inductive result (A : Type) : Type :=
| Ok (a : A)
| Err (e : error).
Arguments Ok {A} a.
Arguments Err {A} e.

(** What a Go function call can do: return, or panic at run time. *)
Inductive outcome (A : Type) : Type :=
| Return (a : A)
| Panic (msg : string).
Arguments Return {A} a.
Arguments Panic {A} msg.

Definition index_out_of_range : string := "runtime error: index out of range".

(** [strings.Contains(s, substr)] *)
Fixpoint Contains (s substr : string) : bool :=
  if prefix substr s then true
  else match s with
       | EmptyString => false
       | String _ s' => Contains s' substr
       end.

(** [strings.Split(s, sep)] for a separator of one byte (the package only
    splits on [":"]).  [Split "" sep] is the one-element list [[""]]. *)
Fixpoint Split (s : string) (sep : ascii) : list string :=
  match s with
  | EmptyString => [EmptyString]
  | String c s' =>
      if Ascii.eqb c sep then EmptyString :: Split s' sep
      else match Split s' sep with
           | [] => [String c EmptyString]
           | p :: ps => String c p :: ps
           end
  end.

Definition colon : ascii := ":"%char.

(** [l[i]] on a slice: a run-time panic when [i] is out of range. *)
Definition at_index {A : Type} (l : list A) (i : nat) : outcome A :=
  match nth_error l i with
  | Some a => Return a
  | None => Panic index_out_of_range
  end.

(** [%s] applied to a [[]string]: the elements between brackets,
    separated by one space. *)
Definition fmt_strings (l : list string) : string :=
  ("[" ++ String.concat " " l ++ "]")%string.

(* ================================================================== *)
(** ** Durations (package time): nanoseconds *)

Definition Second : Z := 1000000000.
Definition Minute : Z := 60 * Second.
Definition Hour : Z := 60 * Minute.

(* ================================================================== *)
(** ** Types of the package *)

Record GatewayConfig := mkGatewayConfig {
  TurnServerUsername : string;
  TurnServerPassword : string;
  TurnServerAddress : string;
  InfisicalStaticIp : string;
  SerialNumber : string;
  PrivateKey : string;
  Certificate : string;
  CertificateChain : string
}.

Definition emptyConfig : GatewayConfig :=
  mkGatewayConfig "" "" "" "" "" "" "" "".

(** The answer of [api.CallRegisterGatewayIdentityV1]. *)
Record RelayDetails := mkRelayDetails {
  rdTurnServerUsername : string;
  rdTurnServerPassword : string;
  rdTurnServerRealm : string;
  rdTurnServerAddress : string;
  rdInfisicalStaticIp : string
}.

(** The [net.Conn] held by [conn] in [ConnectWithRelay]. *)
Inductive relayDial :=
| NoConn                (* the zero value of [var conn net.Conn] *)
| TLSConnTo (addr serverName : string)
| TCPConnTo (addr : string)
| TCPConnNil.           (* the nil [*net.TCPConn] of a failed [net.DialTCP] *)

(** [turn.ClientConfig] as the package fills it. *)
Record ClientConfig := mkClientConfig {
  STUNServerAddr : string;
  TURNServerAddr : string;
  Conn : relayDial;
  Username : string;
  Password : string;
  Realm : string
}.

Record Gateway := mkGateway {
  config : GatewayConfig;
  client : option ClientConfig
}.

(** [NewGateway]: an empty configuration and no client. *)
Definition NewGateway : Gateway := mkGateway emptyConfig None.

(* ================================================================== *)
(** ** Observable events *)

Definition connId := nat.

Inductive Event :=
| LogInfo (msg : string)
| LogError (msg : string)
| LogWarn (msg : string)
| LogDebug (msg : string)
| EvPanic (msg : string)
(* ConnectWithRelay *)
| EvTLSDial (addr serverName : string)
| EvResolveTCPAddr (addr : string)
| EvDialTCP (addr : string)
| EvNewClient (cfg : ClientConfig)
(* Listen *)
| EvClientListen
| EvAllocateTCP
| EvExchangeRelayCert (relayAddress : string)
| EvClientClose
| EvAllocClose
| EvListenReturn (e : option error)
| EvCloseShutdownCh
| EvSetAcceptDeadline (d : Z)
| EvAccept
| EvConnSetDeadline (c : connId) (d : option Z)
| EvHandshake (c : connId)
| EvConnClose (c : connId)
| EvDispatch (c : connId)
| EvHandled (c : connId)
| EvWgDone
| EvCloseWaitCh
(* lifecycle tasks *)
| EvHeartBeat
| EvErrChSend (e : option error)
| EvCreatePermissions (peer : string)
| EvDialRelay (addr : string)
| EvTickerStop.

(* ================================================================== *)
(** ** ConnectWithRelay *)

(** The calls [ConnectWithRelay] makes, as inputs. [None] is a nil error. *)
Record RelayEnv := mkRelayEnv {
  CallRegisterGatewayIdentityV1 : result RelayDetails;
  tls_Dial : string -> string -> option error;
  net_ResolveTCPAddr : string -> option error;
  net_DialTCP : string -> option error;
  turn_NewClient : ClientConfig -> option error
}.

Definition out_bind {A B : Type} (o : outcome A) (k : A -> outcome B) : outcome B :=
  match o with
  | Return a => k a
  | Panic m => Panic m
  end.

(** The function returns the gateway it leaves behind, the events it
    produced and its [error] result ([None] is nil).

    The variable [err] of the function body is [err]; the [else] block
    declares its own [err] with [peerAddr, err := ...], called [err_else]
    here: the assignment [conn, err = net.DialTCP(...)] inside that block
    writes [err_else], and the test after the [if] reads [err]. *)
Definition ConnectWithRelay (env : RelayEnv) (g : Gateway)
  : outcome (Gateway * list Event * option error) :=
  match CallRegisterGatewayIdentityV1 env with
  | Err e => Return (g, [], Some e)
  | Ok relayDetails =>
      let err : option error := None in
      let parts := Split (rdTurnServerAddress relayDetails) colon in
      out_bind (at_index parts 0) (fun relayAddress =>
      out_bind (at_index parts 1) (fun relayPort =>
        let addr := rdTurnServerAddress relayDetails in
        (* Dial TURN Server *)
        let dialed : (list Event * option error * relayDial) + (list Event * error) :=
          if String.eqb relayPort "5349" then
            let ev := [LogInfo ("Provided relay port " ++ relayPort ++ ". Using TLS")%string;
                       EvTLSDial addr relayAddress] in
            match tls_Dial env addr relayAddress with
            | None => inl (ev, None, TLSConnTo addr relayAddress)
            | Some e => inl (ev, Some e, NoConn)
            end
          else
            let ev := [LogInfo ("Provided relay port " ++ relayPort
                                  ++ ". Using non TLS connection.")%string;
                       EvResolveTCPAddr addr] in
            match net_ResolveTCPAddr env addr with
            | Some err_else =>
                inr (ev, Errorf_w "Failed to parse turn server address" err_else)
            | None =>
                match net_DialTCP env addr with
                | None => inl (ev ++ [EvDialTCP addr], err, TCPConnTo addr)
                | Some _err_else => inl (ev ++ [EvDialTCP addr], err, TCPConnNil)
                end
            end in
        match dialed with
        | inr (ev, e) => Return (g, ev, Some e)
        | inl (ev, Some e, _) =>
            Return (g, ev, Some (Errorf_w "Failed to connect with relay server" e))
        | inl (ev, None, conn) =>
            let cfg := mkClientConfig addr addr conn
                         (rdTurnServerUsername relayDetails)
                         (rdTurnServerPassword relayDetails)
                         (rdTurnServerRealm relayDetails) in
            match turn_NewClient env cfg with
            | Some e =>
                Return (g, ev ++ [EvNewClient cfg],
                        Some (Errorf_w "Failed to create relay client" e))
            | None =>
                let cfg0 := mkGatewayConfig
                              (rdTurnServerUsername relayDetails)
                              (rdTurnServerPassword relayDetails)
                              (rdTurnServerAddress relayDetails)
                              (rdInfisicalStaticIp relayDetails)
                              "" "" "" "" in
                (* if port not specific allow all port *)
                let cfg1 :=
                  if negb (String.eqb (rdInfisicalStaticIp relayDetails) "")
                     && negb (Contains (rdInfisicalStaticIp relayDetails) ":")
                  then mkGatewayConfig
                         (TurnServerUsername cfg0) (TurnServerPassword cfg0)
                         (TurnServerAddress cfg0)
                         (InfisicalStaticIp cfg0 ++ ":0")%string
                         (SerialNumber cfg0) (PrivateKey cfg0)
                         (Certificate cfg0) (CertificateChain cfg0)
                  else cfg0 in
                Return (mkGateway cfg1 (Some cfg), ev ++ [EvNewClient cfg], None)
            end
        end))
  end.

(** Which branch of the dial a run of [ConnectWithRelay] took. *)
Definition selectsTLS (tr : list Event) : bool :=
  existsb (fun e => match e with EvTLSDial _ _ => true | _ => false end) tr.

Definition selectsTCP (tr : list Event) : bool :=
  existsb (fun e => match e with
                    | EvResolveTCPAddr _ | EvDialTCP _ => true
                    | _ => false end) tr.

Fixpoint hasColon (s : string) : bool :=
  match s with
  | EmptyString => false
  | String c s' => Ascii.eqb c colon || hasColon s'
  end.

Definition mkEnv (addr : string) (tlsErr resolveErr tcpErr clientErr : option error)
  : RelayEnv :=
  mkRelayEnv (Ok (mkRelayDetails "user" "pass" "realm" addr ""))
             (fun _ _ => tlsErr) (fun _ => resolveErr) (fun _ => tcpErr)
             (fun _ => clientErr).

Definition connRefused : error := mkError "connect: connection refused" (Some false).

(* ================================================================== *)
(** ** Listen: what one accepted connection goes through *)

(** [pkix.Name] and [x509.Certificate], the fields the package reads. *)
Record pkixName := mkName {
  OrganizationalUnit : list string;
  CommonName : string
}.

Record x509Certificate := mkCert {
  Subject : pkixName
}.

(** A [net.Conn] as the body of the loop looks at it: a [*tls.Conn], with
    the result of its [Handshake()] and the [PeerCertificates] of its
    [ConnectionState()], or a connection of another dynamic type.  The
    type is that of the values the body tests; which of them the listener
    of [Listen] can return is [listenerGives] below. *)
Inductive acceptedConn :=
| TLSConn (Handshake : option error) (PeerCertificates : list x509Certificate)
| OtherConn.

(** How one pass through the [default] case of the loop ends. *)
Inductive iteration :=
| Continue
| Dispatch (c : connId)
| Crash (msg : string).

Definition stun_noise : string := "data contains incomplete STUN or TURN frame".

(** The body of the [default] case, from the return of
    [relayConn.Accept()] to [continue], to the [go] statement that starts
    the connection's goroutine, or to a run-time panic. *)
Definition acceptIteration (c : connId) (r : result acceptedConn)
  : list Event * iteration :=
  match r with
  | Err err =>
      (* Check if it's a timeout error (which we expect due to our deadline) *)
      match netError err with
      | Some true => ([], Continue)
      | _ =>
          if negb (Contains (Error err) stun_noise)
          then ([LogError ("Failed to accept connection: " ++ Error err)%string],
                Continue)
          else ([], Continue)
      end
  | Ok OtherConn =>
      ([LogError "Failed to convert to TLS connection"; EvConnClose c], Continue)
  | Ok (TLSConn handshake peerCertificates) =>
      (* Set a deadline for the handshake to prevent hanging *)
      let ev := [EvConnSetDeadline c (Some (10 * Second)); EvHandshake c;
                 EvConnSetDeadline c None] in
      match handshake with
      | Some err =>
          (ev ++ [LogError ("TLS handshake failed: " ++ Error err)%string;
                  EvConnClose c], Continue)
      | None =>
          match peerCertificates with
          | cert0 :: _ =>
              let organizationUnit := OrganizationalUnit (Subject cert0) in
              let commonName := CommonName (Subject cert0) in
              match at_index organizationUnit 0 with
              | Panic m => (ev, Crash m)
              | Return ou0 =>
                  if negb (String.eqb ou0 "gateway-client")
                     || negb (String.eqb commonName "cloud")
                  then (ev ++ [LogError
                                 ("Client certificate verification failed. Received "
                                    ++ fmt_strings organizationUnit ++ ", "
                                    ++ commonName)%string;
                               EvConnClose c], Continue)
                  else (ev ++ [EvDispatch c], Dispatch c)
              end
          | [] => (ev ++ [EvDispatch c], Dispatch c)
          end
      end
  end.

(* ================================================================== *)
(** ** Listen: the state of a session *)

(** The dynamic type behind a [net.Listener]. *)
Inductive listener :=
| TCPListener                      (* [*net.TCPListener] *)
| TCPAllocation (addr : string)    (* [*client.TCPAllocation], from [AllocateTCP] *)
| TLSListener (inner : listener).  (* the listener type of crypto/tls *)

(** [tls.NewListener(inner, config)]: a listener of the package's own
    type, which wraps [inner]. *)
Definition tls_NewListener (inner : listener) : listener := TLSListener inner.

(** The type assertion of [l] to a pointer to [net.TCPListener]. *)
Definition isTCPListener (l : listener) : bool :=
  match l with
  | TCPListener => true
  | _ => false
  end.

(** [time.Ticker]: its channel holds at most one tick; ticks that find
    the channel full are dropped. *)
Record Ticker := mkTicker {
  tkNext : Z;
  tkPeriod : Z;
  tkPending : bool;
  tkStopped : bool
}.

Definition NewTicker (now d : Z) : Ticker := mkTicker (now + d) d false false.

Definition tickerStop (t : Ticker) : Ticker :=
  mkTicker (tkNext t) (tkPeriod t) (tkPending t) true.

Definition tickerTake (t : Ticker) : Ticker :=
  mkTicker (tkNext t) (tkPeriod t) false (tkStopped t).

(** The clock reaches [now']. *)
Definition tickerAdvance (now' : Z) (t : Ticker) : Ticker :=
  if tkStopped t then t
  else if tkNext t <=? now'
       then mkTicker (tkNext t + tkPeriod t * ((now' - tkNext t) / tkPeriod t + 1))
                     (tkPeriod t) true false
       else t.

Inductive deferred := DeferClientClose | DeferAllocClose.

Inductive mainPc :=
| MSelect                  (* in [select] on [ctx.Done()] and [errCh] *)
| MGrace (timeAfter : Z)   (* in [select] on [waitCh] and [time.After] *)
| MReturned.

Inductive loopPc :=
| LTop       (* at the head of the [for] *)
| LDefault   (* the [select] has taken [default]; [Accept] is not called yet *)
| LAccept    (* inside [relayConn.Accept()] *)
| LExited.

Inductive waitPc :=
| WNone      (* [waitCh] not made yet *)
| WOpen      (* the goroutine is in [wg.Wait()] *)
| WClosed.

Inductive hbPc :=
| HSleep (wake : Z)
| HLoop
| HSend (e : option error)   (* in [errCh <- err] *)
| HStopped.

Inductive permPc := PNone | PFirst | PLoop | PStopped.

Inductive raPc :=
| RSleep (wake : Z)
| RLoop
| RSend (e : error)          (* in [errCh <- err] *)
| RStopped.

(** A goroutine started for a dispatched connection, with its watcher. *)
Record connTask := mkTask {
  tcId : connId;
  handling : bool;     (* [handleConnection(c)] has not returned *)
  watching : bool      (* the watcher is still in its [select] *)
}.

(** Channels and the wait group. [errCh] has capacity 1 and may hold a
    nil error; [shutdownCh] is only ever closed. *)
Record Sync := mkSync {
  ctxDone : bool;
  shutdownCh : bool;
  errCh : option (option error);
  wg : nat;
  waitCh : waitPc
}.

Record MainG := mkMain {
  mpc : mainPc;
  merr : option error;
  mdefers : list deferred;
  closeErr : option error      (* what [relayNonTlsConn.Close()] will return *)
}.

Record LoopG := mkLoop {
  relayConn : listener;
  lpc : loopPc;
  nextConn : connId
}.

Record Life := mkLife {
  hb : hbPc;
  hbTicker : Ticker;
  perm : permPc;
  permTicker : Ticker;
  permPeer : string;
  ra : raPc;
  raTicker : Ticker;
  raAddr : string
}.

Record State := mkState {
  now : Z;
  crashed : bool;
  sync : Sync;
  mainG : MainG;
  loopG : LoopG;
  tasks : list connTask;
  life : Life
}.

Definition setNow (v : Z) (s : State) : State :=
  mkState v (crashed s) (sync s) (mainG s) (loopG s) (tasks s) (life s).
Definition setCrashed (v : bool) (s : State) : State :=
  mkState (now s) v (sync s) (mainG s) (loopG s) (tasks s) (life s).
Definition setSync (v : Sync) (s : State) : State :=
  mkState (now s) (crashed s) v (mainG s) (loopG s) (tasks s) (life s).
Definition setMain (v : MainG) (s : State) : State :=
  mkState (now s) (crashed s) (sync s) v (loopG s) (tasks s) (life s).
Definition setLoop (v : LoopG) (s : State) : State :=
  mkState (now s) (crashed s) (sync s) (mainG s) v (tasks s) (life s).
Definition setTasks (v : list connTask) (s : State) : State :=
  mkState (now s) (crashed s) (sync s) (mainG s) (loopG s) v (life s).
Definition setLife (v : Life) (s : State) : State :=
  mkState (now s) (crashed s) (sync s) (mainG s) (loopG s) (tasks s) v.

Definition setCtxDone (y : Sync) : Sync :=
  mkSync true (shutdownCh y) (errCh y) (wg y) (waitCh y).
Definition setErrCh (v : option (option error)) (y : Sync) : Sync :=
  mkSync (ctxDone y) (shutdownCh y) v (wg y) (waitCh y).
Definition setWg (v : nat) (y : Sync) : Sync :=
  mkSync (ctxDone y) (shutdownCh y) (errCh y) v (waitCh y).
Definition setWaitCh (v : waitPc) (y : Sync) : Sync :=
  mkSync (ctxDone y) (shutdownCh y) (errCh y) (wg y) v.
(** [close(shutdownCh)] followed by the start of the [wg.Wait()] goroutine *)
Definition closeShutdown (y : Sync) : Sync :=
  mkSync (ctxDone y) true (errCh y) (wg y) WOpen.

Definition setLpc (v : loopPc) (l : LoopG) : LoopG :=
  mkLoop (relayConn l) v (nextConn l).

Definition setHb (v : hbPc) (t : Ticker) (f : Life) : Life :=
  mkLife v t (perm f) (permTicker f) (permPeer f) (ra f) (raTicker f) (raAddr f).
Definition setPerm (v : permPc) (t : Ticker) (f : Life) : Life :=
  mkLife (hb f) (hbTicker f) v t (permPeer f) (ra f) (raTicker f) (raAddr f).
Definition setRa (v : raPc) (t : Ticker) (f : Life) : Life :=
  mkLife (hb f) (hbTicker f) (perm f) (permTicker f) (permPeer f) v t (raAddr f).

(* ================================================================== *)
(** ** Listen: from the call to the start of the accept loop *)

(** The answer of [api.CallExchangeRelayCertV1]. *)
Record ExchangeRelayCert := mkExchange {
  xSerialNumber : string;
  xPrivateKey : string;
  xCertificate : string;
  xCertificateChain : string
}.

(** The calls [Listen] makes before its goroutines start, as inputs. The
    allocation is known by its [Addr().String()]. *)
Record ListenEnv := mkListenEnv {
  client_Listen : option error;
  client_AllocateTCP : result string;
  relay_Close : option error;
  CallExchangeRelayCertV1 : string -> result ExchangeRelayCert;
  resolveStaticIp : string -> option error;
  tls_X509KeyPair : string -> string -> option error
}.

Definition runDeferred (closeErr : option error) (d : deferred) : list Event :=
  match d with
  | DeferClientClose => [EvClientClose]
  | DeferAllocClose =>
      EvAllocClose ::
      match closeErr with
      | Some e => [LogError ("Failed to close connection: " ++ Error e)%string]
      | None => []
      end
  end.

(** The deferred calls of [Listen], last deferred first. *)
Definition runDefers (closeErr : option error) (ds : list deferred) : list Event :=
  flat_map (runDeferred closeErr) ds.

(** [return e] from [Listen] with the deferred calls [ds] pending. *)
Definition returns (closeErr : option error) (ds : list deferred) (e : option error)
  : list Event :=
  runDefers closeErr ds ++ [EvListenReturn e].

Definition nil_dereference : string :=
  "runtime error: invalid memory address or nil pointer dereference".

(** The process after [Listen] has returned [e] from the failed
    [tls.X509KeyPair]: [registerPermissionLifecycle], when it was called,
    has started its goroutine, which the return leaves behind with its
    ticker; [shutdownCh] is not closed.  The accept loop, the heart beat
    and the relay probe were never started: they are in their final
    states, with tickers that do not tick. *)
Definition leftBehind (t0 : Z) (ce e : option error) (ppc : permPc) (ptk : Ticker)
    (peer addr : string) : option State :=
  match ppc with
  | PFirst =>
      Some (mkState t0 false
              (mkSync false false None 0%nat WNone)
              (mkMain MReturned e [] ce)
              (mkLoop (TCPAllocation addr) LExited 0%nat)
              []
              (mkLife HStopped (tickerStop (NewTicker t0 (1 * Hour)))
                      PFirst ptk peer
                      RStopped (tickerStop (NewTicker t0 (10 * Second))) addr))
  | _ => None
  end.

(** [Listen] up to the [go] statement of the accept loop, at time [t0]:
    either it has returned an error, or the session is running.  The
    last component is the state of the goroutines that a return leaves
    behind, when there are any. *)
Definition Listen_start (env : ListenEnv) (g : Gateway) (t0 : Z)
  : outcome (list Event * GatewayConfig * (option error + State) * option State) :=
  match client g with
  | None => Panic nil_dereference
  | Some _ =>
  let cfg := config g in
  let ce := relay_Close env in
  let ds0 := [DeferClientClose] in
  match client_Listen env with
  | Some e =>
      let e' := Some (Errorf_w "Failed to listen to relay server" e) in
      Return ([EvClientListen] ++ returns ce ds0 e', cfg, inl e', None)
  | None =>
  let ev1 := [EvClientListen; LogInfo "Connected with relay"; EvAllocateTCP] in
  match client_AllocateTCP env with
  | Err e =>
      let e' := Some (Errorf_w "Failed to allocate relay connection" e) in
      Return (ev1 ++ returns ce ds0 e', cfg, inl e', None)
  | Ok addr =>
  let ds1 := DeferAllocClose :: ds0 in
  let ev2 := ev1 ++ [LogInfo addr; EvExchangeRelayCert addr] in
  match CallExchangeRelayCertV1 env addr with
  | Err e => Return (ev2 ++ returns ce ds1 (Some e), cfg, inl (Some e), None)
  | Ok gatewayCert =>
  let cfg' := mkGatewayConfig (TurnServerUsername cfg) (TurnServerPassword cfg)
                (TurnServerAddress cfg) (InfisicalStaticIp cfg)
                (xSerialNumber gatewayCert) (xPrivateKey gatewayCert)
                (xCertificate gatewayCert) (xCertificateChain gatewayCert) in
  let ev3 :=
    if negb (String.eqb (InfisicalStaticIp cfg') "")
    then [LogInfo ("Found static ip from Infisical: " ++ InfisicalStaticIp cfg'
                     ++ ". Creating permission IP lifecycle")%string]
    else [] in
  let permission : result (permPc * Ticker) :=
    if negb (String.eqb (InfisicalStaticIp cfg') "") then
      match resolveStaticIp env (InfisicalStaticIp cfg') with
      | Some e => Err (Errorf_w "Failed to parse infisical static ip" e)
      | None => Ok (PFirst, NewTicker t0 (3 * Minute))
      end
    else Ok (PNone, tickerStop (NewTicker t0 (3 * Minute))) in
  match permission with
  | Err e' =>
      Return (ev2 ++ ev3 ++ returns ce ds1 (Some e'), cfg', inl (Some e'), None)
  | Ok (ppc, ptk) =>
  match tls_X509KeyPair env (xCertificate gatewayCert) (xPrivateKey gatewayCert) with
  | Some e =>
      let e' := Some (Errorf_s "failed to parse cert" e) in
      Return (ev2 ++ ev3 ++ returns ce ds1 e', cfg', inl e',
              leftBehind t0 ce e' ppc ptk (InfisicalStaticIp cfg') addr)
  | None =>
      let relayConn := tls_NewListener (TCPAllocation addr) in
      let s0 :=
        mkState t0 false
          (mkSync false false None 0%nat WNone)
          (mkMain MSelect None ds1 ce)
          (mkLoop relayConn LTop 0%nat)
          []
          (mkLife (HSleep (t0 + 10 * Second)) (NewTicker t0 (1 * Hour))
                  ppc ptk (InfisicalStaticIp cfg')
                  (RSleep (t0 + 5 * Second)) (NewTicker t0 (10 * Second)) addr) in
      Return (ev2 ++ ev3 ++ [LogInfo "Gateway started successfully"], cfg',
              inr s0, None)
  end end end end end end.

(* ================================================================== *)
(** ** Listen: the goroutines of a running session *)

Inductive mainCase := CaseCtxDone | CaseErrCh.
Inductive graceCase := CaseWaitCh | CaseTimeAfter.
Inductive loopCase := LoopCtxDone | LoopShutdown | LoopDefault.
Inductive tickCase := CaseDone | CaseTick.
Inductive watchCase := WatchCtxDone | WatchShutdown.

(** One move of the scheduler or of the outside world.  A [select] with
    several ready cases may take any of them; its [default] case is taken
    only when no other case is ready.  Results of calls that leave the
    process come with the action. *)
Inductive Action :=
| Cancel                               (* the caller cancels [ctx] *)
| Advance (d : Z)                      (* [d] nanoseconds pass *)
| MainSelect (c : mainCase)
| MainGrace (c : graceCase)
| LoopSelect (c : loopCase)
| LoopAccept                           (* the loop calls [relayConn.Accept()] *)
| LoopAccepted (r : result acceptedConn)   (* [relayConn.Accept()] returns *)
| HandlerReturns (c : connId)          (* [handleConnection(c)] returns *)
| Watcher (c : connId) (w : watchCase)
| WaitReturns                          (* [wg.Wait()] returns *)
| HeartBeatFirst (r : option error)
| HeartBeatSelect (c : tickCase) (r : option error)
| HeartBeatSend
| PermissionFirst
| PermissionSelect (c : tickCase)
| RelayActiveWakes
| RelayActiveSelect (c : tickCase) (r : option error)
| RelayActiveSend.

Definition step_result := option (State * list Event).

(** The first [select] of [Listen], [close(shutdownCh)] and the start of
    the goroutine that waits for the wait group. *)
Definition mainSelect (c : mainCase) (s : State) : step_result :=
  let m := mainG s in
  match mpc m with
  | MSelect =>
      let grace := MGrace (now s + 5 * Second) in
      match c with
      | CaseCtxDone =>
          if ctxDone (sync s)
          then Some (setMain (mkMain grace (merr m) (mdefers m) (closeErr m))
                       (setSync (closeShutdown (sync s)) s),
                     [LogInfo "Shutting down gateway..."; EvCloseShutdownCh])
          else None
      | CaseErrCh =>
          match errCh (sync s) with
          | Some err =>
              Some (setMain (mkMain grace err (mdefers m) (closeErr m))
                      (setSync (closeShutdown (setErrCh None (sync s))) s),
                    [EvCloseShutdownCh])
          | None => None
          end
      end
  | _ => None
  end.

(** The second [select] of [Listen] and [return err]. *)
Definition mainGrace (c : graceCase) (s : State) : step_result :=
  let m := mainG s in
  match mpc m with
  | MGrace timeAfter =>
      let s' := setMain (mkMain MReturned (merr m) [] (closeErr m)) s in
      let ret := returns (closeErr m) (mdefers m) (merr m) in
      match c with
      | CaseWaitCh =>
          match waitCh (sync s) with
          | WClosed => Some (s', ret)
          | _ => None
          end
      | CaseTimeAfter =>
          if timeAfter <=? now s
          then Some (s', LogWarn "Timeout waiting for connections to close gracefully"
                         :: ret)
          else None
      end
  | _ => None
  end.

(** The head of the accept loop: the deadline on a [net.TCPListener],
    then the [select].  Taking [default] and calling [Accept] are two
    steps: a signal can be given between them. *)
Definition loopSelect (c : loopCase) (s : State) : step_result :=
  let l := loopG s in
  match lpc l with
  | LTop =>
      let ev := if isTCPListener (relayConn l)
                then [EvSetAcceptDeadline (1 * Second)] else [] in
      match c with
      | LoopCtxDone =>
          if ctxDone (sync s) then Some (setLoop (setLpc LExited l) s, ev) else None
      | LoopShutdown =>
          if shutdownCh (sync s) then Some (setLoop (setLpc LExited l) s, ev) else None
      | LoopDefault =>
          if ctxDone (sync s) || shutdownCh (sync s) then None
          else Some (setLoop (setLpc LDefault l) s, ev)
      end
  | _ => None
  end.

(** The [default] case calls [relayConn.Accept()]. *)
Definition loopAccept (s : State) : step_result :=
  let l := loopG s in
  match lpc l with
  | LDefault => Some (setLoop (setLpc LAccept l) s, [EvAccept])
  | _ => None
  end.

(** What [Accept] on the listener of [Listen] can hand to the loop.  The
    listener is the one [tls.NewListener] made, so a connection it returns
    is a [*tls.Conn]; and it is made with
    [ClientAuth: tls.RequireAndVerifyClientCert], so a handshake that
    completes has verified a certificate of the peer: [PeerCertificates]
    is then not empty, and for a peer that presents no certificate
    [Handshake()] returns an error. *)
Definition listenerGives (r : result acceptedConn) : bool :=
  match r with
  | Err _ => true
  | Ok OtherConn => false
  | Ok (TLSConn None []) => false
  | Ok (TLSConn _ _) => true
  end.

(** [relayConn.Accept()] returns [r], one of the results it can give; the
    rest of the iteration. *)
Definition loopAccepted (r : result acceptedConn) (s : State) : step_result :=
  let l := loopG s in
  match lpc l with
  | LAccept =>
      if negb (listenerGives r) then None else
      let c := nextConn l in
      let l' := mkLoop (relayConn l) LTop
                  (match r with Ok _ => S c | Err _ => c end) in
      match acceptIteration c r with
      | (ev, Continue) => Some (setLoop l' s, ev)
      | (ev, Dispatch c') =>
          (* wg.Add(1); go func(c net.Conn) {...}(conn) *)
          Some (setTasks (tasks s ++ [mkTask c' true true])
                  (setSync (setWg (S (wg (sync s))) (sync s)) (setLoop l' s)),
                ev)
      | (ev, Crash m) => Some (setCrashed true s, ev ++ [EvPanic m])
      end
  | _ => None
  end.

Definition isTask (c : connId) (t : connTask) : bool := Nat.eqb (tcId t) c.

(** The goroutine of connection [c] is over. *)
Definition handlerDone (c : connId) (t : connTask) : connTask :=
  if isTask c t then mkTask (tcId t) false (watching t) else t.

(** The watcher of connection [c] is over. *)
Definition watcherDone (c : connId) (t : connTask) : connTask :=
  if isTask c t then mkTask (tcId t) (handling t) false else t.

(** [handleConnection(c)] returns: the deferred [c.Close()], then the
    deferred [wg.Done()]. *)
Definition handlerReturns (c : connId) (s : State) : step_result :=
  if existsb (fun t => isTask c t && handling t) (tasks s) then
    Some (setTasks (map (handlerDone c) (tasks s))
            (setSync (setWg (pred (wg (sync s))) (sync s)) s),
          [EvHandled c; EvConnClose c; EvWgDone])
  else None.

(** The watcher of connection [c] leaves its [select] and closes [c]. *)
Definition watcher (c : connId) (w : watchCase) (s : State) : step_result :=
  if existsb (fun t => isTask c t && watching t) (tasks s)
     && (match w with
         | WatchCtxDone => ctxDone (sync s)
         | WatchShutdown => shutdownCh (sync s)
         end)
  then Some (setTasks (map (watcherDone c) (tasks s)) s, [EvConnClose c])
  else None.

(** [wg.Wait()] returns when the counter is zero; [close(waitCh)]. *)
Definition waitReturns (s : State) : step_result :=
  match waitCh (sync s), wg (sync s) with
  | WOpen, O => Some (setSync (setWaitCh WClosed (sync s)) s, [EvCloseWaitCh])
  | _, _ => None
  end.

(** *** registerHeartBeat *)

(** [time.Sleep(10 * time.Second)] is over; the first heart beat. *)
Definition heartBeatFirst (r : option error) (s : State) : step_result :=
  let f := life s in
  match hb f with
  | HSleep wake =>
      if wake <=? now s
      then Some (setLife (setHb HLoop (hbTicker f) f) s,
                 [LogInfo "Registering first heart beat"; EvHeartBeat]
                 ++ match r with
                    | Some err =>
                        [LogError ("Failed to register heartbeat: " ++ Error err)%string]
                    | None => []
                    end)
      else None
  | _ => None
  end.

(** The [select] of the loop; on a tick, the heart beat whose result [r]
    is then sent to [errCh]. *)
Definition heartBeatSelect (c : tickCase) (r : option error) (s : State)
  : step_result :=
  let f := life s in
  match hb f with
  | HLoop =>
      match c with
      | CaseDone =>
          if shutdownCh (sync s)
          then Some (setLife (setHb HStopped (tickerStop (hbTicker f)) f) s,
                     [EvTickerStop])
          else None
      | CaseTick =>
          if tkPending (hbTicker f)
          then Some (setLife (setHb (HSend r) (tickerTake (hbTicker f)) f) s,
                     [LogInfo "Registering heart beat"; EvHeartBeat])
          else None
      end
  | _ => None
  end.

(** [errCh <- err] goes through once the channel has room. *)
Definition heartBeatSend (s : State) : step_result :=
  let f := life s in
  match hb f, errCh (sync s) with
  | HSend err, None =>
      Some (setLife (setHb HLoop (hbTicker f) f)
              (setSync (setErrCh (Some err) (sync s)) s),
            [EvErrChSend err])
  | _, _ => None
  end.

(** *** registerPermissionLifecycle *)

Definition permissionFirst (s : State) : step_result :=
  let f := life s in
  match perm f with
  | PFirst =>
      Some (setLife (setPerm PLoop (permTicker f) f) s,
            [EvCreatePermissions (permPeer f);
             LogDebug "Created permission for incoming connections"])
  | _ => None
  end.

Definition permissionSelect (c : tickCase) (s : State) : step_result :=
  let f := life s in
  match perm f with
  | PLoop =>
      match c with
      | CaseDone =>
          if shutdownCh (sync s)
          then Some (setLife (setPerm PStopped (tickerStop (permTicker f)) f) s,
                     [EvTickerStop])
          else None
      | CaseTick =>
          if tkPending (permTicker f)
          then Some (setLife (setPerm PLoop (tickerTake (permTicker f)) f) s,
                     [EvCreatePermissions (permPeer f)])
          else None
      end
  | _ => None
  end.

(** *** registerRelayIsActive *)

Definition relayActiveWakes (s : State) : step_result :=
  let f := life s in
  match ra f with
  | RSleep wake =>
      if wake <=? now s then Some (setLife (setRa RLoop (raTicker f) f) s, [])
      else None
  | _ => None
  end.

Definition relayActiveSelect (c : tickCase) (r : option error) (s : State)
  : step_result :=
  let f := life s in
  match ra f with
  | RLoop =>
      match c with
      | CaseDone =>
          if shutdownCh (sync s)
          then Some (setLife (setRa RStopped (tickerStop (raTicker f)) f) s,
                     [EvTickerStop])
          else None
      | CaseTick =>
          if tkPending (raTicker f)
          then Some (setLife (setRa (match r with
                                     | Some err => RSend err
                                     | None => RLoop
                                     end) (tickerTake (raTicker f)) f) s,
                     [EvDialRelay (raAddr f)])
          else None
      end
  | _ => None
  end.

Definition relayActiveSend (s : State) : step_result :=
  let f := life s in
  match ra f, errCh (sync s) with
  | RSend err, None =>
      Some (setLife (setRa RStopped (raTicker f) f)
              (setSync (setErrCh (Some (Some err)) (sync s)) s),
            [EvErrChSend (Some err)])
  | _, _ => None
  end.

(** *** The clock *)

Definition advance (d : Z) (s : State) : step_result :=
  if d <? 0 then None
  else
    let t := now s + d in
    let f := life s in
    Some (setNow t
            (setLife (mkLife (hb f) (tickerAdvance t (hbTicker f))
                             (perm f) (tickerAdvance t (permTicker f)) (permPeer f)
                             (ra f) (tickerAdvance t (raTicker f)) (raAddr f)) s),
          []).

(** *** One step, and runs *)

(** [None]: the action is not possible in [s].  After a panic nothing is. *)
Definition step (s : State) (a : Action) : step_result :=
  if crashed s then None
  else match a with
       | Cancel => Some (setSync (setCtxDone (sync s)) s, [])
       | Advance d => advance d s
       | MainSelect c => mainSelect c s
       | MainGrace c => mainGrace c s
       | LoopSelect c => loopSelect c s
       | LoopAccept => loopAccept s
       | LoopAccepted r => loopAccepted r s
       | HandlerReturns c => handlerReturns c s
       | Watcher c w => watcher c w s
       | WaitReturns => waitReturns s
       | HeartBeatFirst r => heartBeatFirst r s
       | HeartBeatSelect c r => heartBeatSelect c r s
       | HeartBeatSend => heartBeatSend s
       | PermissionFirst => permissionFirst s
       | PermissionSelect c => permissionSelect c s
       | RelayActiveWakes => relayActiveWakes s
       | RelayActiveSelect c r => relayActiveSelect c r s
       | RelayActiveSend => relayActiveSend s
       end.

(** A trace: events with the time at which they happen. *)
Definition trace := list (Z * Event).

Definition stamp (t : Z) (ev : list Event) : trace := map (pair t) ev.

Fixpoint run (s : State) (acts : list Action) : option (State * trace) :=
  match acts with
  | [] => Some (s, [])
  | a :: acts' =>
      match step s a with
      | None => None
      | Some (s', ev) =>
          match run s' acts' with
          | None => None
          | Some (s'', tr) => Some (s'', stamp (now s) ev ++ tr)
          end
      end
  end.

(** A session of [Listen] called at time [t0] and scheduled by [acts]:
    its trace and either the error [Listen] returned before it started
    its accept loop, or the state reached.  After such a return [acts]
    schedules the goroutine left behind, when there is one. *)
Definition Listen (env : ListenEnv) (g : Gateway) (t0 : Z) (acts : list Action)
  : option (trace * (option error + State)) :=
  match Listen_start env g t0 with
  | Panic _ => None
  | Return (ev, _, inl e, None) => Some (stamp t0 ev, inl e)
  | Return (ev, _, inl e, Some s1) =>
      match run s1 acts with
      | Some (_, tr) => Some (stamp t0 ev ++ tr, inl e)
      | None => None
      end
  | Return (ev, _, inr s0, _) =>
      match run s0 acts with
      | Some (s, tr) => Some (stamp t0 ev ++ tr, inr s)
      | None => None
      end
  end.

(** The value [Listen] has returned, if it has. *)
Definition returned (res : option error + State) : option (option error) :=
  match res with
  | inl e => Some e
  | inr s => match mpc (mainG s) with
             | MReturned => Some (merr (mainG s))
             | _ => None
             end
  end.

Definition events (tr : trace) : list Event := map snd tr.

Definition isAllocClose (e : Event) : bool :=
  match e with EvAllocClose => true | _ => false end.

Definition allocCloses (tr : trace) : nat :=
  List.length (filter isAllocClose (events tr)).

(* ================================================================== *)
(** ** Reachable sessions, and the sessions used as examples *)

(** [reach s0 tr s]: from [s0] the session can get to [s], having
    produced [tr]. *)
Inductive reach (s0 : State) : trace -> State -> Prop :=
| reach_init : reach s0 [] s0
| reach_step tr s a s' ev :
    reach s0 tr s ->
    step s a = Some (s', ev) ->
    reach s0 (tr ++ stamp (now s) ev) s'.

Definition isDispatch (e : Event) : bool :=
  match e with EvDispatch _ => true | _ => false end.

Definition isAccept (e : Event) : bool :=
  match e with EvAccept => true | _ => false end.

Definition isHeartBeat (e : Event) : bool :=
  match e with EvHeartBeat => true | _ => false end.

Definition isSetAcceptDeadline (e : Event) : bool :=
  match e with EvSetAcceptDeadline _ => true | _ => false end.

(** The times of the heart beats of a trace, in order. *)
Definition heartBeats (tr : trace) : list Z :=
  map fst (filter (fun te => isHeartBeat (snd te)) tr).

(** A control plane and a relay that answer every call of [Listen]. *)
Definition okListenEnv : ListenEnv :=
  mkListenEnv None (Ok "203.0.113.9:41000") None
              (fun _ => Ok (mkExchange "serial" "key" "cert" "chain"))
              (fun _ => None) (fun _ _ => None).

(** The gateway left by a successful [ConnectWithRelay] on port 5349. *)
Definition connectedGateway : Gateway :=
  mkGateway
    (mkGatewayConfig "user" "pass" "relay.example:5349" "" "" "" "" "")
    (Some (mkClientConfig "relay.example:5349" "relay.example:5349"
                          (TLSConnTo "relay.example:5349" "relay.example")
                          "user" "pass" "realm")).

Definition cloudCert : x509Certificate :=
  mkCert (mkName ["gateway-client"] "cloud").

Definition noUnitCert : x509Certificate :=
  mkCert (mkName [] "cloud").

(** Events of [return] from [Listen]. *)
Definition isReturnEvent (e : Event) : bool :=
  match e with
  | EvClientClose | EvAllocClose | LogError _ | EvListenReturn _ => true
  | _ => false
  end.

Arguments acceptIteration : simpl never.
Arguments returns : simpl never.
Arguments stamp : simpl never.
Arguments events : simpl never.

(** Counters read off a trace or a state. *)
Definition dispatches (tr : trace) : nat :=
  List.length (filter isDispatch (events tr)).

Definition acceptCalls (tr : trace) : nat :=
  List.length (filter isAccept (events tr)).

(** The loop is past its [select] and has not yet called [Accept]. *)
Definition pendingCall (s : State) : nat :=
  match lpc (loopG s) with
  | LDefault => 1
  | _ => 0
  end.

(** The loop is past its [select]: a connection may still come out of
    the call of [Accept] it is about to make or is in. *)
Definition pendingAccept (s : State) : nat :=
  match lpc (loopG s) with
  | LDefault | LAccept => 1
  | _ => 0
  end.

Definition inFlight (s : State) : nat :=
  List.length (filter handling (tasks s)).

(** [Listen] got its allocation from the relay. *)
Definition allocated (env : ListenEnv) : bool :=
  match client_Listen env, client_AllocateTCP env with
  | None, Ok _ => true
  | _, _ => false
  end.

(** The state in which [Listen], called at [t0], starts its accept loop. *)
Definition initial (env : ListenEnv) (t0 : Z) (s0 : State) : Prop :=
  exists addr ppc ptk peer,
    s0 = mkState t0 false
           (mkSync false false None 0%nat WNone)
           (mkMain MSelect None [DeferAllocClose; DeferClientClose] (relay_Close env))
           (mkLoop (TLSListener (TCPAllocation addr)) LTop 0%nat)
           []
           (mkLife (HSleep (t0 + 10 * Second)) (NewTicker t0 (1 * Hour))
                   ppc ptk peer
                   (RSleep (t0 + 5 * Second)) (NewTicker t0 (10 * Second)) addr).

(** What the permission goroutine does. *)
Definition isPermissionEvent (ip : string) (e : Event) : bool :=
  match e with
  | EvCreatePermissions p => String.eqb p ip
  | LogDebug _ => true
  | _ => false
  end.

(** A process in which [Listen] has returned and only the permission
    goroutine for [ip] is alive. *)
Definition onlyPermission (ip : string) (s : State) : Prop :=
  mpc (mainG s) = MReturned
  /\ shutdownCh (sync s) = false /\ waitCh (sync s) = WNone
  /\ lpc (loopG s) = LExited /\ tasks s = []
  /\ hb (life s) = HStopped /\ ra (life s) = RStopped
  /\ permPeer (life s) = ip
  /\ (perm (life s) = PFirst \/ perm (life s) = PLoop)
  /\ tkStopped (permTicker (life s)) = false.

(** Events of [Listen] before its goroutines start. *)
Definition isSetup (e : Event) : bool :=
  match e with
  | LogInfo _ | EvClientListen | EvAllocateTCP | EvExchangeRelayCert _ => true
  | _ => false
  end.

(** Events the accept loop produces between [Accept] and [continue]. *)
Definition isIterationEvent (e : Event) : bool :=
  match e with
  | LogError _ | EvConnSetDeadline _ _ | EvHandshake _ | EvConnClose _
  | EvDispatch _ => true
  | _ => false
  end.

(** The log line of a failed [Accept], when there is one. *)
Definition acceptErrorLog (err : error) : list Event :=
  match netError err with
  | Some true => []
  | _ => if Contains (Error err) stun_noise then []
         else [LogError ("Failed to accept connection: " ++ Error err)%string]
  end.

(** The accept loop is back at the head of the [for]. *)
Definition continues (s : State) : State :=
  setLoop (setLpc LTop (loopG s)) s.

(** Invariants of a running session. *)
Definition tasksWf (s : State) : Prop :=
  NoDup (map tcId (tasks s))
  /\ (forall t, In t (tasks s) -> (tcId t < nextConn (loopG s))%nat)
  /\ wg (sync s) = inFlight s.

Definition signalled (s : State) : Prop :=
  match mpc (mainG s) with
  | MSelect => True
  | _ => shutdownCh (sync s) = true
  end.

Definition tasksLogged (tr : trace) (s : State) : Prop :=
  (forall c, In (EvDispatch c) (events tr) ->
             exists t, In t (tasks s) /\ tcId t = c)
  /\ (forall t, In t (tasks s) -> handling t = false ->
                In (EvHandled (tcId t)) (events tr))
  /\ (forall t, In t (tasks s) -> watching t = false ->
                In (EvConnClose (tcId t)) (events tr)).

Definition graceTimed (tr : trace) (s : State) : Prop :=
  forall d, mpc (mainG s) = MGrace d ->
            exists t1, In (t1, EvCloseShutdownCh) tr /\ d = t1 + 5 * Second.

Definition deferredOnce (tr : trace) (s : State) : Prop :=
  match mpc (mainG s) with
  | MReturned => allocCloses tr = 1%nat
  | _ => allocCloses tr = 0%nat
         /\ mdefers (mainG s) = [DeferAllocClose; DeferClientClose]
  end.

Definition bit (b : bool) : Z := if b then 1 else 0.

(** The heart beat task against the clock: [t0] is the time at which
    [registerHeartBeat] ran. *)
Definition heartBeatTimed (t0 : Z) (tr : trace) (s : State) : Prop :=
  let n := Z.of_nat (List.length (heartBeats tr)) in
  let tk := hbTicker (life s) in
  (forall k t, nth_error (heartBeats tr) k = Some t ->
               t0 + 10 * Second <= t /\ t0 + Z.of_nat k * Hour <= t)
  /\ (forall w, hb (life s) = HSleep w -> w = t0 + 10 * Second /\ n = 0)
  /\ ((forall w, hb (life s) <> HSleep w) -> 1 <= n /\ t0 + 10 * Second <= now s)
  /\ tkPeriod tk = 1 * Hour
  /\ tkNext tk - Hour <= now s
  /\ t0 + (Z.max 0 (n - 1) + bit (tkPending tk)) * Hour <= tkNext tk - Hour.

(** Events about one connection task. *)
Definition isTaskEvent (e : Event) : bool :=
  match e with
  | EvDispatch _ | EvHandled _ | EvConnClose _ => true
  | _ => false
  end.

Definition waitLogged (tr : trace) (s : State) : Prop :=
  (waitCh (sync s) <> WNone -> shutdownCh (sync s) = true)
  /\ (waitCh (sync s) = WClosed -> In EvCloseWaitCh (events tr)).

(** The invariants of a session, together. *)
Definition sessionInv (tr : trace) (s : State) : Prop :=
  tasksWf s /\ signalled s /\ tasksLogged tr s /\ graceTimed tr s
  /\ waitLogged tr s.

(** *** Example sessions *)

(** The trace of the start of [Listen] at time 0 with [okListenEnv]. *)
Definition setupTrace : trace :=
  stamp 0 [EvClientListen; LogInfo "Connected with relay"; EvAllocateTCP;
           LogInfo "203.0.113.9:41000"; EvExchangeRelayCert "203.0.113.9:41000";
           LogInfo "Gateway started successfully"].

(** The state in which that session starts its goroutines. *)
Definition startedState : State :=
  mkState 0 false
    (mkSync false false None 0%nat WNone)
    (mkMain MSelect None [DeferAllocClose; DeferClientClose] None)
    (mkLoop (TLSListener (TCPAllocation "203.0.113.9:41000")) LTop 0%nat)
    []
    (mkLife (HSleep (10 * Second)) (NewTicker 0 (1 * Hour))
            PNone (tickerStop (NewTicker 0 (3 * Minute))) ""
            (RSleep (5 * Second)) (NewTicker 0 (10 * Second))
            "203.0.113.9:41000").

(** The same session with its accept loop inside [Accept]. *)
Definition acceptingState : State :=
  setLoop (setLpc LAccept (loopG startedState)) startedState.

Definition timeoutErr : error := mkError "i/o timeout" (Some true).




(** The caller cancels while the loop is inside [Accept]; a connection
    arrives after [Listen] has closed [shutdownCh]. *)
Definition lateAccept : list Action :=
  [LoopSelect LoopDefault; LoopAccept; Cancel; MainSelect CaseCtxDone;
   WaitReturns; LoopAccepted (Ok (TLSConn None [cloudCert]));
   MainGrace CaseWaitCh].

(** Two connections are handled, then the caller cancels and the session
    drains. *)
Definition drainedSession : list Action :=
  [LoopSelect LoopDefault; LoopAccept;
   LoopAccepted (Ok (TLSConn None [cloudCert]));
   LoopSelect LoopDefault; LoopAccept; LoopAccepted (Err timeoutErr);
   LoopSelect LoopDefault; LoopAccept;
   LoopAccepted (Ok (TLSConn None [cloudCert]));
   HandlerReturns 0%nat; Cancel; MainSelect CaseCtxDone;
   LoopSelect LoopShutdown; Watcher 1%nat WatchShutdown;
   HandlerReturns 1%nat; WaitReturns; MainGrace CaseWaitCh].

(* ================================================================== *)
(** ** Further readings of traces and states *)

Definition isDial (e : Event) : bool :=
  match e with
  | EvTLSDial _ _ | EvDialTCP _ => true
  | _ => false
  end.

Definition isNewClient (e : Event) : bool :=
  match e with EvNewClient _ => true | _ => false end.

Definition isClientClose (e : Event) : bool :=
  match e with EvClientClose => true | _ => false end.

Definition isConnClose (e : Event) : bool :=
  match e with EvConnClose _ => true | _ => false end.

Definition isLogError (e : Event) : bool :=
  match e with LogError _ => true | _ => false end.

Definition isWgDone (e : Event) : bool :=
  match e with EvWgDone => true | _ => false end.

Definition isCreatePermissions (e : Event) : bool :=
  match e with EvCreatePermissions _ => true | _ => false end.

Definition isDialRelay (e : Event) : bool :=
  match e with EvDialRelay _ => true | _ => false end.

Definition clientCloses (tr : trace) : nat :=
  List.length (filter isClientClose (events tr)).

Definition wgDones (tr : trace) : nat :=
  List.length (filter isWgDone (events tr)).

(** The values sent to [errCh], in order. *)
Definition sent (e : Event) : list (option error) :=
  match e with
  | EvErrChSend v => [v]
  | _ => []
  end.

Definition errChSends (tr : trace) : list (option error) :=
  flat_map sent (events tr).

(** The peer certificates that pass the identity check of the loop. *)
Definition passes (certs : list x509Certificate) : Prop :=
  certs = []
  \/ exists ous cn rest,
       certs = mkCert (mkName ("gateway-client" :: ous) cn) :: rest
       /\ cn = "cloud".

(** Further invariants of a running session. *)
Definition clientDeferredOnce (tr : trace) (s : State) : Prop :=
  match mpc (mainG s) with
  | MReturned => clientCloses tr = 1%nat
  | _ => clientCloses tr = 0%nat
         /\ mdefers (mainG s) = [DeferAllocClose; DeferClientClose]
  end.

Definition errChLogged (tr : trace) (s : State) : Prop :=
  match mpc (mainG s) with
  | MSelect =>
      merr (mainG s) = None
      /\ ((errCh (sync s) = None /\ errChSends tr = [])
          \/ exists v, errCh (sync s) = Some v /\ errChSends tr = [v])
  | _ =>
      merr (mainG s) = None
      \/ exists rest, errChSends tr = merr (mainG s) :: rest
  end.

Definition wgCounted (tr : trace) (s : State) : Prop :=
  (wg (sync s) + wgDones tr = dispatches tr)%nat.

Definition permissionFor (ip : string) (tr : trace) (s : State) : Prop :=
  permPeer (life s) = ip
  /\ (ip = "" -> perm (life s) = PNone)
  /\ (forall p, In (EvCreatePermissions p) (events tr) -> ip <> "" /\ p = ip).

(** The relay probe against the clock: [t0] is the time at which
    [registerRelayIsActive] ran, [addr] the address it was given. *)
Definition relayProbeTimed (t0 : Z) (addr : string) (tr : trace) (s : State)
  : Prop :=
  let tk := raTicker (life s) in
  raAddr (life s) = addr
  /\ tkPeriod tk = 10 * Second
  /\ t0 + 10 * Second <= tkNext tk
  /\ (tkPending tk = true -> t0 + 10 * Second <= now s)
  /\ (forall t a, In (t, EvDialRelay a) tr -> a = addr /\ t0 + 10 * Second <= t).

(** The relay probe has failed: it is sending its error or has ended. *)
Definition probeOver (s : State) : Prop :=
  (exists e, ra (life s) = RSend e) \/ ra (life s) = RStopped.

Definition isErrChSend (e : Event) : bool :=
  match e with EvErrChSend _ => true | _ => false end.

Definition isCloseShutdownCh (e : Event) : bool :=
  match e with EvCloseShutdownCh => true | _ => false end.

Definition isCloseWaitCh (e : Event) : bool :=
  match e with EvCloseWaitCh => true | _ => false end.

Definition shutdownCloses (tr : trace) : nat :=
  List.length (filter isCloseShutdownCh (events tr)).

Definition waitCloses (tr : trace) : nat :=
  List.length (filter isCloseWaitCh (events tr)).

(** Each of the two channels [Listen] closes is closed once. *)
Definition closedOnce (tr : trace) (s : State) : Prop :=
  match mpc (mainG s) with
  | MSelect => shutdownCloses tr = 0%nat /\ waitCh (sync s) = WNone
  | _ => shutdownCloses tr = 1%nat
  end
  /\ match waitCh (sync s) with
     | WClosed => waitCloses tr = 1%nat
     | _ => waitCloses tr = 0%nat
     end.


(** The example session an hour and ten seconds after its start: the
    first heart beat is done and a tick of the heart beat ticker waits. *)
Definition tickingState : State :=
  setNow (10 * Second + 1 * Hour)
    (setLife (setHb HLoop (mkTicker (2 * Hour) (1 * Hour) true false)
                (life startedState)) startedState).

(** The example session after a failed probe of the relay. *)
Definition probeFailedState : State :=
  setNow (10 * Second)
    (setLife (setRa (RSend connRefused) (mkTicker (20 * Second) (10 * Second) false false)
                (life startedState)) startedState).

(* ================================================================== *)
(** * Webhooks: backend/src/services/webhook/webhook-fns.ts

    A shallow embedding of [decryptWebhookDetails], [triggerWebhookRequest],
    [getWebhookPayload] and [fnTriggerWebhook].  The library functions
    (picomatch, the HMAC, [JSON.stringify]), the clock, the data layer and
    the network are inputs of the model.  A promise of the data layer or
    of [request.post] either fulfils or rejects with an error, of which
    the model keeps the [message]; a call of [picomatch.isMatch] returns
    a boolean or throws; the decryptor is a function that returns, and
    [findById], whose result is read as [project.name] without a test,
    yields a project. *)

(** A JSON value, as far as the payloads of this file need it. *)
#[local] Unset Elimination Schemes.
Inductive JSON :=
| JString (s : string)
| JNumber (n : Z)
| JBool (b : bool)
| JUndefined
| JArray (items : list JSON)
| JObject (fields : list (string * JSON)).
#[local] Set Elimination Schemes.

(** A plain object: its own properties in insertion order. *)
Definition object := list (string * JSON).

(** [{ ...o, k: v }]: a key that [o] has keeps its place and takes the new
    value; a new key goes to the end. *)
Fixpoint setField (k : string) (v : JSON) (o : object) : object :=
  match o with
  | [] => [(k, v)]
  | (k', v') :: rest =>
      if String.eqb k' k then (k, v) :: rest
      else (k', v') :: setField k v rest
  end.

Fixpoint getField (k : string) (o : object) : option JSON :=
  match o with
  | [] => None
  | (k', v') :: rest => if String.eqb k' k then Some v' else getField k rest
  end.

Definition Buffer := string.

(** The columns of [TWebhooks] this file reads. *)
Record TWebhooks := mkWebhook {
  whId : string;
  whSecretPath : string;
  whIsDisabled : bool;
  whType : option string;              (* string, null or undefined *)
  whEncryptedPassKey : option Buffer;  (* a Buffer, null or undefined *)
  whEncryptedUrl : Buffer
}.

Definition WEBHOOK_TRIGGER_TIMEOUT : Z := 15 * 1000.

Record WebhookDetails := mkWebhookDetails {
  secretKey : string;
  url : string
}.

Definition decryptWebhookDetails (webhook : TWebhooks) (decryptor : Buffer -> string)
  : WebhookDetails :=
  let decryptedUrl := decryptor (whEncryptedUrl webhook) in
  let decryptedSecretKey :=
    match whEncryptedPassKey webhook with
    | Some encryptedPassKey => decryptor encryptedPassKey
    | None => ""
    end in
  mkWebhookDetails decryptedSecretKey decryptedUrl.

(** How a promise settles; [reason] is the [message] of the error. *)
Inductive settled (A : Type) :=
| Fulfilled (value : A)
| Rejected (reason : string).
Arguments Fulfilled {A} value.
Arguments Rejected {A} reason.

(** The arguments of one [request.post] call. *)
Record Request := mkRequest {
  reqUrl : string;
  reqPayload : object;
  reqHeaders : list (string * string);
  reqTimeout : Z;
  reqSignal : Z
}.

Record Project := mkProject { projectName : string }.
Record ProjectEnv := mkProjectEnv { envId : string }.

(** What a function throws, or a promise rejects with. *)
Inductive thrown :=
| NotFoundError (message : string)
| TypeError (message : string)
| Reason (message : string).

(** How a call ends: it returns a value or it throws. *)
Inductive completion (A : Type) :=
| Returns (value : A)
| Throws (e : thrown).
Arguments Returns {A} value.
Arguments Throws {A} e.

(** What the function gets from outside: the library functions it calls,
    the clock, and the answers of the data layer and of the network.
    [picomatch.isMatch(input, glob, { strictSlashes: false })] throws for
    some globs, the empty string among them.  [webhookDAL.transaction] is
    defined outside this file; it is taken as the transaction of the data
    layer: it begins a transaction, runs the callback once in it, rolls
    back and rejects with the error of a callback that rejects, and
    commits otherwise.  [transaction_begin] and [transaction_commit] are
    how its two own steps settle. *)
Record HookEnv := mkHookEnv {
  WebhookType_SLACK : string;
  picomatch_isMatch : string -> string -> completion bool;
  createHmac_sha256_hex : string -> string -> string;   (* key, data *)
  JSON_stringify : object -> string;
  Date_now : nat -> Z;                           (* read by the i-th request *)
  request_post : nat -> Request -> settled unit; (* how the i-th POST settles *)
  findAllWebhooks : settled (list TWebhooks);
  findById : settled Project;
  findOne : settled (option ProjectEnv);
  update : settled unit;
  bulkUpdate : settled unit;
  transaction_begin : settled unit;
  transaction_commit : settled unit
}.

Definition numberToString (n : Z) : string :=
  DecimalString.NilZero.string_of_int (Z.to_int n).

(** The synchronous part of [triggerWebhookRequest], up to the call of
    [request.post]; [timestamp] is the value [Date.now()] returns. *)
Definition triggerWebhookRequest (env : HookEnv) (webhook : TWebhooks)
    (decryptor : Buffer -> string) (data : object) (timestamp : Z) : Request :=
  let payload := setField "timestamp" (JNumber timestamp) data in
  let d := decryptWebhookDetails webhook decryptor in
  let headers :=
    if String.eqb (secretKey d) "" then []
    else
      let webhookSign :=
        createHmac_sha256_hex env (secretKey d) (JSON_stringify env payload) in
      [("x-infisical-signature",
        ("t=" ++ numberToString timestamp ++ ";" ++ webhookSign)%string)] in
  mkRequest (url d) payload headers WEBHOOK_TRIGGER_TIMEOUT WEBHOOK_TRIGGER_TIMEOUT.

Record PayloadDetails := mkPayloadDetails {
  workspaceName : string;
  workspaceId : string;
  detEnvironment : string;
  detSecretPath : option string;
  detType : option string
}.

Definition optString (s : option string) : JSON :=
  match s with
  | Some v => JString v
  | None => JUndefined
  end.

Definition slackField (title : string) (value : JSON) : JSON :=
  JObject [("title", JString title); ("value", value); ("short", JBool false)].

Definition isSlack (env : HookEnv) (type : option string) : bool :=
  match type with
  | Some t => String.eqb t (WebhookType_SLACK env)
  | None => false
  end.

Definition getWebhookPayload (env : HookEnv) (eventName : string)
    (details : PayloadDetails) : object :=
  if isSlack env (detType details) then
    [("text", JString "A secret value has been added or modified.");
     ("attachments",
      JArray [JObject [("color", JString "#E7F256");
                       ("fields",
                        JArray [slackField "Project" (JString (workspaceName details));
                                slackField "Environment"
                                  (JString (detEnvironment details));
                                slackField "Secret Path"
                                  (optString (detSecretPath details))])]])]
  else
    [("event", JString eventName);
     ("project", JObject [("workspaceId", JString (workspaceId details));
                          ("environment", JString (detEnvironment details));
                          ("secretPath", optString (detSecretPath details))])].

Record TFnTriggerWebhookDTO := mkDTO {
  projectId : string;
  secretPath : string;
  environment : string;
  secretManagerDecryptor : Buffer -> string
}.

Inductive WhEvent :=
| WhFindAllWebhooks (project env : string)
| WhLogInfo (msg : string)
| WhFindById (project : string)
| WhPost (r : Request)
| WhTransaction
| WhFindOne (project slug : string)
| WhUpdate (env : string) (ids : list string)       (* lastStatus: success *)
| WhBulkUpdate (rows : list (string * string)).     (* id, lastRunErrorMessage *)

Inductive promise :=
| Resolves
| Rejects (e : thrown).

Definition isFulfilled {A} (s : settled A) : bool :=
  match s with Fulfilled _ => true | Rejected _ => false end.

Definition isRejected {A} (s : settled A) : bool :=
  match s with Fulfilled _ => false | Rejected _ => true end.

(** [l.map((x, i) => f(x, i))] from index [i] on; [None] when the callback
    throws. *)
Fixpoint mapIndexed {A B} (f : A -> nat -> option B) (l : list A) (i : nat)
  : option (list B) :=
  match l with
  | [] => Some []
  | x :: l' =>
      match f x i with
      | None => None
      | Some y =>
          match mapIndexed f l' (S i) with
          | None => None
          | Some ys => Some (y :: ys)
          end
      end
  end.

(** [toBeTriggeredHooks[i].id]; [None] when the element is undefined and
    the property read throws. *)
Definition hookIdAt (hooks : list TWebhooks) (i : nat) : option string :=
  option_map whId (nth_error hooks i).

Definition successWebhooks (toBeTriggeredHooks : list TWebhooks)
    (webhooksTriggered : list (settled unit)) : option (list string) :=
  mapIndexed (fun _ i => hookIdAt toBeTriggeredHooks i)
             (filter isFulfilled webhooksTriggered) 0.

Definition failedWebhooks (toBeTriggeredHooks : list TWebhooks)
    (webhooksTriggered : list (settled unit)) : option (list (string * string)) :=
  mapIndexed (fun data i =>
                match hookIdAt toBeTriggeredHooks i with
                | Some id =>
                    Some (id, match data with
                              | Rejected m => m
                              | Fulfilled _ => ""
                              end)
                | None => None
                end)
             (filter isRejected webhooksTriggered) 0.

(** The callback of [webhooks.filter]:
    [!isDisabled && picomatch.isMatch(secretPath, hookSecretPath, ...)];
    picomatch is not called for a disabled hook. *)
Definition toBeTriggered (env : HookEnv) (dto : TFnTriggerWebhookDTO)
    (h : TWebhooks) : completion bool :=
  if whIsDisabled h then Returns false
  else picomatch_isMatch env (secretPath dto) (whSecretPath h).

(** [webhooks.filter(...)]: the callback is called on the elements in
    order, and the first call that throws ends the filter. *)
Fixpoint toBeTriggeredHooks (env : HookEnv) (dto : TFnTriggerWebhookDTO)
    (webhooks : list TWebhooks) : completion (list TWebhooks) :=
  match webhooks with
  | [] => Returns []
  | h :: rest =>
      match toBeTriggered env dto h with
      | Throws e => Throws e
      | Returns b =>
          match toBeTriggeredHooks env dto rest with
          | Throws e => Throws e
          | Returns hooks => Returns (if b then h :: hooks else hooks)
          end
      end
  end.

(** The hook is enabled and picomatch returns true for its path. *)
Definition matches (env : HookEnv) (dto : TFnTriggerWebhookDTO)
    (h : TWebhooks) : bool :=
  match toBeTriggered env dto h with
  | Returns b => b
  | Throws _ => false
  end.

(** The requests of [toBeTriggeredHooks.map(...)], the first one being
    request number [i], each with the way it settles. *)
Fixpoint triggerAll (env : HookEnv) (dto : TFnTriggerWebhookDTO)
    (project : Project) (hooks : list TWebhooks) (i : nat)
  : list (Request * settled unit) :=
  match hooks with
  | [] => []
  | hook :: rest =>
      let r := triggerWebhookRequest env hook (secretManagerDecryptor dto)
                 (getWebhookPayload env "secrets.modified"
                    (mkPayloadDetails (projectName project) (projectId dto)
                       (environment dto) (Some (secretPath dto)) (whType hook)))
                 (Date_now env i) in
      (r, request_post env i r) :: triggerAll env dto project rest (S i)
  end.

Definition undefined_id : string :=
  "Cannot read properties of undefined (reading 'id')".

Definition environment_not_found (dto : TFnTriggerWebhookDTO) : string :=
  ("Environment with slug '" ++ environment dto ++ "' in project with ID '"
     ++ projectId dto ++ "' not found")%string.

(** The callback of [webhookDAL.transaction]. *)
Definition updateStatus (env : HookEnv) (dto : TFnTriggerWebhookDTO)
    (success : list string) (failed : list (string * string))
  : list WhEvent * promise :=
  let ev0 := [WhFindOne (projectId dto) (environment dto)] in
  match findOne env with
  | Rejected m => (ev0, Rejects (Reason m))
  | Fulfilled None => (ev0, Rejects (NotFoundError (environment_not_found dto)))
  | Fulfilled (Some e) =>
      let updated :=
        match success with
        | [] => (ev0, Resolves)
        | _ :: _ =>
            (ev0 ++ [WhUpdate (envId e) success],
             match update env with
             | Rejected m => Rejects (Reason m)
             | Fulfilled _ => Resolves
             end)
        end in
      match updated with
      | (ev1, Rejects r) => (ev1, Rejects r)
      | (ev1, Resolves) =>
          match failed with
          | [] => (ev1, Resolves)
          | _ :: _ =>
              (ev1 ++ [WhBulkUpdate failed],
               match bulkUpdate env with
               | Rejected m => Rejects (Reason m)
               | Fulfilled _ => Resolves
               end)
          end
      end
  end.

(** [webhookDAL.transaction(callback)], [callback] being given by what it
    does and how it settles once it is run. *)
Definition transaction (env : HookEnv) (callback : list WhEvent * promise)
  : list WhEvent * promise :=
  match transaction_begin env with
  | Rejected m => ([WhTransaction], Rejects (Reason m))
  | Fulfilled _ =>
      match callback with
      | (ev, Rejects r) => (WhTransaction :: ev, Rejects r)
      | (ev, Resolves) =>
          match transaction_commit env with
          | Rejected m => (WhTransaction :: ev, Rejects (Reason m))
          | Fulfilled _ => (WhTransaction :: ev, Resolves)
          end
      end
  end.

Definition fnTriggerWebhook (env : HookEnv) (dto : TFnTriggerWebhookDTO)
  : list WhEvent * promise :=
  let ev0 := [WhFindAllWebhooks (projectId dto) (environment dto)] in
  match findAllWebhooks env with
  | Rejected m => (ev0, Rejects (Reason m))
  | Fulfilled webhooks =>
      match toBeTriggeredHooks env dto webhooks with
      | Throws e => (ev0, Rejects e)
      | Returns [] => (ev0, Resolves)
      | Returns ((_ :: _) as toBeTriggeredHooks) =>
          let ev1 := ev0 ++ [WhLogInfo "Secret webhook job started";
                             WhFindById (projectId dto)] in
          match findById env with
          | Rejected m => (ev1, Rejects (Reason m))
          | Fulfilled project =>
              let triggered := triggerAll env dto project toBeTriggeredHooks 0 in
              let ev2 := ev1 ++ map (fun p => WhPost (fst p)) triggered in
              let webhooksTriggered := map snd triggered in
              match successWebhooks toBeTriggeredHooks webhooksTriggered with
              | None => (ev2, Rejects (TypeError undefined_id))
              | Some success =>
                  match failedWebhooks toBeTriggeredHooks webhooksTriggered with
                  | None => (ev2, Rejects (TypeError undefined_id))
                  | Some failed =>
                      match transaction env
                              (updateStatus env dto success failed) with
                      | (ev3, Rejects r) => (ev2 ++ ev3, Rejects r)
                      | (ev3, Resolves) =>
                          (ev2 ++ ev3
                             ++ [WhLogInfo "Secret webhook job ended"],
                           Resolves)
                      end
                  end
              end
          end
      end
  end.

(** Readings of a run of [fnTriggerWebhook]. *)
Definition posts (ev : list WhEvent) : list Request :=
  flat_map (fun e => match e with WhPost r => [r] | _ => [] end) ev.

Definition updates (ev : list WhEvent) : list (list string) :=
  flat_map (fun e => match e with WhUpdate _ ids => [ids] | _ => [] end) ev.

Definition bulkUpdates (ev : list WhEvent) : list (list (string * string)) :=
  flat_map (fun e => match e with WhBulkUpdate rows => [rows] | _ => [] end) ev.

Definition reasons (l : list (settled unit)) : list string :=
  flat_map (fun s => match s with Rejected m => [m] | Fulfilled _ => [] end) l.

Definition fulfilledCount (l : list (settled unit)) : nat :=
  List.length (filter isFulfilled l).

Definition rejectedCount (l : list (settled unit)) : nat :=
  List.length (filter isRejected l).

(** How the POSTs of a run settle, in the order of the hooks. *)
Definition outcomes (env : HookEnv) (dto : TFnTriggerWebhookDTO)
    (project : Project) (hooks : list TWebhooks) : list (settled unit) :=
  map snd (triggerAll env dto project hooks 0).

(** *** Example run *)

Definition hookA : TWebhooks :=
  mkWebhook "hook-a" "/**" false None None "enc(https://a.example/hook)".

Definition hookB : TWebhooks :=
  mkWebhook "hook-b" "/**" false (Some "slack") (Some "enc(key-b)")
            "enc(https://b.example/hook)".

Definition hookOff : TWebhooks :=
  mkWebhook "hook-off" "/**" true None None "enc(https://off.example/hook)".

(** An enabled hook and a disabled one, both without a secret path. *)
Definition hookNoPath : TWebhooks :=
  mkWebhook "hook-no-path" "" false None None "enc(https://c.example/hook)".

Definition hookNoPathOff : TWebhooks :=
  mkWebhook "hook-no-path-off" "" true None None "enc(https://d.example/hook)".

Definition empty_pattern : thrown :=
  TypeError "Expected pattern to be a non-empty string".

(** picomatch on the globs of the examples: it throws on the empty glob;
    ["/**"] matches every path. *)
Definition exampleIsMatch (input glob : string) : completion bool :=
  if String.eqb glob "" then Throws empty_pattern
  else Returns (String.eqb glob "/**").

(** The POST to the first hook times out, the one to the second succeeds. *)
Definition exampleHookEnv (env : option ProjectEnv) : HookEnv :=
  mkHookEnv "slack"
    exampleIsMatch
    (fun key data => ("hmac(" ++ key ++ "," ++ data ++ ")")%string)
    (fun _ => "{}")
    (fun i => 1700000000000 + Z.of_nat i)
    (fun i _ => match i with
                | O => Rejected "timeout of 15000ms exceeded"
                | _ => Fulfilled tt
                end)
    (Fulfilled [hookA; hookOff; hookNoPathOff; hookB])
    (Fulfilled (mkProject "demo"))
    (Fulfilled env)
    (Fulfilled tt)
    (Fulfilled tt)
    (Fulfilled tt)
    (Fulfilled tt).

(** The same with other webhooks, and a data layer whose transaction
    begins and commits as [begin] and [commit] say. *)
Definition hookEnvWith (webhooks : list TWebhooks) (begin commit : settled unit)
  : HookEnv :=
  mkHookEnv "slack"
    exampleIsMatch
    (fun key data => ("hmac(" ++ key ++ "," ++ data ++ ")")%string)
    (fun _ => "{}")
    (fun i => 1700000000000 + Z.of_nat i)
    (fun i _ => match i with
                | O => Rejected "timeout of 15000ms exceeded"
                | _ => Fulfilled tt
                end)
    (Fulfilled webhooks)
    (Fulfilled (mkProject "demo"))
    (Fulfilled (Some (mkProjectEnv "env-1")))
    (Fulfilled tt)
    (Fulfilled tt)
    begin
    commit.

Definition exampleDTO : TFnTriggerWebhookDTO :=
  mkDTO "project-1" "/app" "dev" (fun b => b).

(* ================================================================== *)
(** * Properties of ConnectWithRelay *)

Section SplitAddress.

Lemma Split_noColon s : hasColon s = false -> Split s colon = [s].
Proof.
  induction s as [|c s IH]; simpl; intros H; [reflexivity|].
  apply orb_false_iff in H. destruct H as [Hc Hs].
  rewrite Hc, (IH Hs). reflexivity.
Qed.

Lemma Split_host host rest :
  hasColon host = false ->
  Split (host ++ String colon rest)%string colon = host :: Split rest colon.
Proof.
  induction host as [|c host IH]; simpl; intros H.
  - reflexivity.
  - apply orb_false_iff in H. destruct H as [Hc Hs].
    rewrite Hc, (IH Hs). reflexivity.
Qed.

Lemma Split_host_port host port :
  hasColon host = false -> hasColon port = false ->
  Split (host ++ ":" ++ port)%string colon = [host; port].
Proof.
  intros Hh Hp. change (":" ++ port)%string with (String colon port).
  rewrite (Split_host _ _ Hh), (Split_noColon _ Hp). reflexivity.
Qed.

Lemma Split_nonempty s : exists p ps, Split s colon = p :: ps.
Proof.
  destruct s as [|c s]; simpl; [eauto|].
  destruct (Ascii.eqb c colon); [eauto|].
  destruct (Split s colon); eauto.
Qed.

End SplitAddress.

(** The address of the counterexample: a bracketed IPv6 address with the
    TLS port, [host:port] with host ["[2001:db8::1]"] and port ["5349"].
    [ConnectWithRelay] reads ["db8"] as the port and dials plain TCP. *)
Lemma ConnectWithRelay_port_5349_dialed_without_TLS :
  ("[2001:db8::1]" ++ ":" ++ "5349")%string = "[2001:db8::1]:5349"%string
  /\ Split "[2001:db8::1]:5349" colon = ["[2001"; "db8"; ""; "1]"; "5349"]%string
  /\ ConnectWithRelay (mkEnv "[2001:db8::1]:5349" None None None None) NewGateway
     = Return
         (mkGateway
            (mkGatewayConfig "user" "pass" "[2001:db8::1]:5349" "" "" "" "" "")
            (Some (mkClientConfig "[2001:db8::1]:5349" "[2001:db8::1]:5349"
                     (TCPConnTo "[2001:db8::1]:5349") "user" "pass" "realm")),
          [LogInfo "Provided relay port db8. Using non TLS connection.";
           EvResolveTCPAddr "[2001:db8::1]:5349";
           EvDialTCP "[2001:db8::1]:5349";
           EvNewClient
             (mkClientConfig "[2001:db8::1]:5349" "[2001:db8::1]:5349"
                (TCPConnTo "[2001:db8::1]:5349") "user" "pass" "realm")],
          None).
Proof. repeat split. Qed.

(** C9. [ConnectWithRelay] reads as the port what stands between the
    first colon of the relay address and the next colon, or the end of
    the address.  It takes the TLS dial exactly when that text is
    ["5349"]; otherwise it takes the plain TCP branch (address resolution,
    then [net.DialTCP]) and makes no TLS dial.  For an address
    [host:port] in which neither part has a colon, that text is [port]. *)
Theorem ConnectWithRelay_dial_by_port
    (env : RelayEnv) (g : Gateway) (d : RelayDetails) (host rest : string) :
  CallRegisterGatewayIdentityV1 env = Ok d ->
  rdTurnServerAddress d = (host ++ ":" ++ rest)%string ->
  hasColon host = false ->
  exists port more g' tr e,
    Split rest colon = port :: more /\
    (hasColon rest = false -> port = rest /\ more = []) /\
    ConnectWithRelay env g = Return (g', tr, e) /\
    (port = "5349" ->
       In (EvTLSDial (rdTurnServerAddress d) host) tr /\ selectsTCP tr = false) /\
    (port <> "5349" ->
       selectsTLS tr = false /\
       In (EvResolveTCPAddr (rdTurnServerAddress d)) tr /\
       (net_ResolveTCPAddr env (rdTurnServerAddress d) = None ->
        In (EvDialTCP (rdTurnServerAddress d)) tr)).
Proof.
  intros Hreg Haddr Hh.
  destruct (Split_nonempty rest) as [port [more Hsp]].
  exists port, more.
  assert (Hone : hasColon rest = false -> port = rest /\ more = []).
  { intros Hp. rewrite (Split_noColon _ Hp) in Hsp.
    inversion Hsp; subst. auto. }
  unfold ConnectWithRelay. rewrite Hreg, Haddr.
  change (":" ++ rest)%string with (String colon rest).
  rewrite (Split_host _ _ Hh), Hsp. cbn [at_index nth_error out_bind].
  destruct (String.eqb_spec port "5349") as [Heq|Hne].
  - destruct (tls_Dial env _ host) as [e|].
    + do 3 eexists. split; [reflexivity|]. split; [exact Hone|].
      split; [reflexivity|]. split; [|congruence].
      intros _. split; [simpl; auto|reflexivity].
    + destruct (turn_NewClient env _) as [e|];
        (do 3 eexists; split; [reflexivity|]; split; [exact Hone|];
         split; [reflexivity|]; split; [|congruence];
         intros _; split; [simpl; auto|reflexivity]).
  - destruct (net_ResolveTCPAddr env _) as [e|] eqn:Hres.
    + do 3 eexists. split; [reflexivity|]. split; [exact Hone|].
      split; [reflexivity|]. split; [congruence|].
      intros _. split; [reflexivity|]. split; [simpl; auto|discriminate].
    + destruct (net_DialTCP env _) as [e|];
        destruct (turn_NewClient env _) as [e'|];
        (do 3 eexists; split; [reflexivity|]; split; [exact Hone|];
         split; [reflexivity|]; split; [congruence|];
         intros _; split; [reflexivity|]; split; simpl; auto).
Qed.

Lemma ConnectWithRelay_dial_by_port_witness :
  exists port more g' tr e,
    Split "5349" colon = port :: more /\
    (hasColon "5349" = false -> port = "5349"%string /\ more = []) /\
    ConnectWithRelay (mkEnv "relay.example:5349" None None None None) NewGateway
      = Return (g', tr, e) /\
    (port = "5349"%string ->
       In (EvTLSDial "relay.example:5349" "relay.example") tr
       /\ selectsTCP tr = false) /\
    (port <> "5349"%string ->
       selectsTLS tr = false /\
       In (EvResolveTCPAddr "relay.example:5349") tr /\
       (@None error = None -> In (EvDialTCP "relay.example:5349") tr)).
Proof.
  apply (@ConnectWithRelay_dial_by_port
           (mkEnv "relay.example:5349" None None None None) NewGateway
           (mkRelayDetails "user" "pass" "realm" "relay.example:5349" "")
           "relay.example" "5349"); reflexivity.
Defined.

(** The TLS branch reports a failed dial: the error of [tls.Dial] lands in
    the variable the function tests after the [if]. *)
Lemma ConnectWithRelay_TLS_dial_failure
    (env : RelayEnv) (g : Gateway) (d : RelayDetails) (host : string) (e : error) :
  CallRegisterGatewayIdentityV1 env = Ok d ->
  rdTurnServerAddress d = (host ++ ":5349")%string ->
  hasColon host = false ->
  tls_Dial env (rdTurnServerAddress d) host = Some e ->
  ConnectWithRelay env g
  = Return (g, [LogInfo "Provided relay port 5349. Using TLS";
                EvTLSDial (rdTurnServerAddress d) host],
            Some (Errorf_w "Failed to connect with relay server" e)).
Proof.
  intros Hreg Haddr Hh Hdial.
  unfold ConnectWithRelay. rewrite Hreg.
  assert (Hs : Split (rdTurnServerAddress d) colon = [host; "5349"]).
  { rewrite Haddr. apply (Split_host_port host "5349" Hh). reflexivity. }
  rewrite Hs. cbn [at_index nth_error out_bind].
  cbn [String.eqb Ascii.eqb Bool.eqb]. rewrite Hdial. reflexivity.
Qed.

(** The plain TCP branch does not: the error of [net.DialTCP] is assigned
    to the [err] declared inside the [else] block, the test after the [if]
    reads the outer [err], and the function goes on to build the TURN
    client around a nil connection. *)
Lemma ConnectWithRelay_TCP_dial_failure_lost
    (env : RelayEnv) (g : Gateway) (d : RelayDetails) (host port : string) (e : error) :
  CallRegisterGatewayIdentityV1 env = Ok d ->
  rdTurnServerAddress d = (host ++ ":" ++ port)%string ->
  hasColon host = false -> hasColon port = false ->
  port <> "5349" ->
  net_ResolveTCPAddr env (rdTurnServerAddress d) = None ->
  net_DialTCP env (rdTurnServerAddress d) = Some e ->
  exists g' tr cfg,
    Conn cfg = TCPConnNil /\
    In (EvNewClient cfg) tr /\
    ConnectWithRelay env g
    = Return (g', tr,
              match turn_NewClient env cfg with
              | Some e' => Some (Errorf_w "Failed to create relay client" e')
              | None => None
              end).
Proof.
  intros Hreg Haddr Hh Hp Hne Hres Hdial.
  unfold ConnectWithRelay. rewrite Hreg.
  assert (Hs : Split (rdTurnServerAddress d) colon = [host; port]).
  { rewrite Haddr. apply (Split_host_port _ _ Hh Hp). }
  rewrite Hs. cbn [at_index nth_error out_bind].
  apply String.eqb_neq in Hne. rewrite Hne, Hres, Hdial.
  match goal with
  | |- context [turn_NewClient env ?c] =>
      exists (match turn_NewClient env c with
              | Some _ => g
              | None => mkGateway
                          (mkGatewayConfig (rdTurnServerUsername d)
                             (rdTurnServerPassword d) (rdTurnServerAddress d)
                             (if negb (String.eqb (rdInfisicalStaticIp d) "")
                                 && negb (Contains (rdInfisicalStaticIp d) ":")
                              then (rdInfisicalStaticIp d ++ ":0")%string
                              else rdInfisicalStaticIp d) "" "" "" "")
                          (Some c)
              end); eexists; exists c;
      split; [reflexivity|]; destruct (turn_NewClient env c)
  end.
  - split; [|reflexivity]. simpl. auto.
  - split; [simpl; auto|].
    destruct (negb (String.eqb (rdInfisicalStaticIp d) "")
              && negb (Contains (rdInfisicalStaticIp d) ":")); reflexivity.
Qed.

(** C5. The relay address is [relay.example:3478], the address resolves,
    [net.DialTCP] fails with "connection refused" and the TURN client can
    be built: [ConnectWithRelay] returns a nil error and leaves a client
    whose connection is the nil [*net.TCPConn]. *)
Theorem ConnectWithRelay_TCP_dial_failure_returns_nil :
  ConnectWithRelay (mkEnv "relay.example:3478" None None (Some connRefused) None)
                   NewGateway
  = Return
      (mkGateway
         (mkGatewayConfig "user" "pass" "relay.example:3478" "" "" "" "" "")
         (Some (mkClientConfig "relay.example:3478" "relay.example:3478"
                               TCPConnNil "user" "pass" "realm")),
       [LogInfo "Provided relay port 3478. Using non TLS connection.";
        EvResolveTCPAddr "relay.example:3478";
        EvDialTCP "relay.example:3478";
        EvNewClient (mkClientConfig "relay.example:3478" "relay.example:3478"
                                    TCPConnNil "user" "pass" "realm")],
       None).
Proof. vm_compute. reflexivity. Qed.

(* ================================================================== *)
(** * Properties of one accepted connection *)

(** With a first OrganizationalUnit entry to read, the check dispatches
    the connection exactly when that entry is ["gateway-client"] and the
    CommonName is ["cloud"]; otherwise it logs the mismatch and closes
    the connection. *)
Lemma acceptIteration_authorization
    (c : connId) (ou0 cn : string) (ous : list string) (certs : list x509Certificate) :
  let r := Ok (TLSConn None (mkCert (mkName (ou0 :: ous) cn) :: certs)) in
  (ou0 = "gateway-client" /\ cn = "cloud" ->
   snd (acceptIteration c r) = Dispatch c
   /\ In (EvDispatch c) (fst (acceptIteration c r))
   /\ ~ In (EvConnClose c) (fst (acceptIteration c r)))
  /\ (~ (ou0 = "gateway-client" /\ cn = "cloud") ->
      snd (acceptIteration c r) = Continue
      /\ ~ In (EvDispatch c) (fst (acceptIteration c r))
      /\ In (EvConnClose c) (fst (acceptIteration c r))
      /\ In (LogError ("Client certificate verification failed. Received "
                         ++ fmt_strings (ou0 :: ous) ++ ", " ++ cn)%string)
            (fst (acceptIteration c r))).
Proof.
  cbn zeta. unfold acceptIteration.
  cbn [at_index nth_error OrganizationalUnit CommonName Subject].
  destruct (String.eqb_spec ou0 "gateway-client") as [Hou|Hou];
    destruct (String.eqb_spec cn "cloud") as [Hcn|Hcn];
    cbn [negb orb fst snd]; split; intros Hc;
    try (destruct Hc; contradiction);
    try (exfalso; apply Hc; split; assumption); clear Hc;
    repeat split; simpl; auto 10;
    try (intros Hin; repeat (destruct Hin as [Hin|Hin]; try discriminate Hin);
         contradiction).
Qed.

(** C10. With a leaf certificate whose OrganizationalUnit list is empty,
    the iteration performs the handshake and then stops in a run-time
    panic, index out of range: the check reads [organizationUnit[0]]
    without looking at the length of the list. *)
Theorem acceptIteration_empty_OrganizationalUnit_panics
    (c : connId) (cn : string) (certs : list x509Certificate) :
  at_index (OrganizationalUnit (Subject (mkCert (mkName [] cn)))) 0
  = Panic index_out_of_range
  /\ acceptIteration c (Ok (TLSConn None (mkCert (mkName [] cn) :: certs)))
     = ([EvConnSetDeadline c (Some (10 * Second)); EvHandshake c;
         EvConnSetDeadline c None],
        Crash index_out_of_range).
Proof. split; reflexivity. Qed.

(** What one iteration can produce, by the way it ends. *)
Lemma acceptIteration_events c r ev it :
  acceptIteration c r = (ev, it) ->
  Forall (fun e => isIterationEvent e = true) ev
  /\ match it with
     | Continue => filter isDispatch ev = []
     | Dispatch c' => c' = c /\ filter isDispatch ev = [EvDispatch c]
                      /\ exists k, r = Ok k
     | Crash _ => filter isDispatch ev = []
     end.
Proof.
  unfold acceptIteration. intros H.
  repeat match type of H with
         | context [match ?x with _ => _ end] => destruct x eqn:?
         end;
    inversion H; subst; clear H; cbn [app filter isDispatch];
    (split; [repeat constructor|]); eauto.
Qed.

Lemma acceptIteration_error c err :
  acceptIteration c (Err err) = (acceptErrorLog err, Continue).
Proof.
  unfold acceptIteration, acceptErrorLog.
  destruct (netError err) as [[|]|]; try reflexivity;
    destruct (Contains (Error err) stun_noise); reflexivity.
Qed.

(* ================================================================== *)
(** * Properties of a session *)

Ltac break_step H :=
  repeat match type of H with
         | context [match ?x with _ => _ end] => destruct x eqn:?
         end;
  try discriminate H.

(** Case analysis on [H : step s a = Some (s', ev)]. *)
Ltac step_cases H :=
  unfold step in H;
  match type of H with
  | context [crashed ?s] => destruct (crashed s) eqn:?; [discriminate H|]
  end;
  match type of H with
  | context [match ?a with Cancel => _ | _ => _ end] => destruct a
  end;
  unfold mainSelect, mainGrace, loopSelect, loopAccept, loopAccepted,
    handlerReturns,
    watcher, waitReturns, heartBeatFirst, heartBeatSelect, heartBeatSend,
    permissionFirst, permissionSelect, relayActiveWakes, relayActiveSelect,
    relayActiveSend, advance in H;
  break_step H;
  inversion H; subst; clear H.

(** Case analysis on a run of [Listen_start] that returns. *)
Ltac listen_start_cases H :=
  unfold Listen_start, leftBehind in H;
  repeat (cbv beta iota zeta in H;
          match type of H with
          | context [client ?g] => destruct (client g) eqn:?
          | context [client_Listen ?e] => destruct (client_Listen e) eqn:?
          | context [client_AllocateTCP ?e] =>
              destruct (client_AllocateTCP e) eqn:?
          | context [CallExchangeRelayCertV1 ?e ?a] =>
              destruct (CallExchangeRelayCertV1 e a) eqn:?
          | context [String.eqb ?a ""] => destruct (String.eqb_spec a "")
          | context [resolveStaticIp ?e ?a] =>
              destruct (resolveStaticIp e a) eqn:?
          | context [tls_X509KeyPair ?e ?a ?b] =>
              destruct (tls_X509KeyPair e a b) eqn:?
          end);
  cbv beta iota zeta in H;
  try discriminate H; inversion H; subst; clear H.

Section Traces.

Lemma events_app tr1 tr2 : events (tr1 ++ tr2) = events tr1 ++ events tr2.
Proof. apply map_app. Qed.

Lemma events_stamp t ev : events (stamp t ev) = ev.
Proof.
  unfold events, stamp. rewrite map_map. simpl. apply map_id.
Qed.

Lemma in_stamp t t' e ev : In (t', e) (stamp t ev) <-> t' = t /\ In e ev.
Proof.
  unfold stamp. rewrite in_map_iff. split.
  - intros [x [Hx Hin]]. inversion Hx; subst. auto.
  - intros [-> Hin]. exists e. auto.
Qed.

Lemma in_events e tr : In e (events tr) <-> exists t, In (t, e) tr.
Proof.
  unfold events. rewrite in_map_iff. split.
  - intros [[t e'] [Hx Hin]]. simpl in Hx. subst. eauto.
  - intros [t Hin]. exists (t, e). auto.
Qed.

Lemma filter_none {A} (p q : A -> bool) (l : list A) :
  Forall (fun x => q x = true) l ->
  (forall x, q x = true -> p x = false) ->
  filter p l = [].
Proof.
  intros Hl Hpq. induction Hl as [|x l Hx _ IH]; simpl; [reflexivity|].
  rewrite (Hpq x Hx). exact IH.
Qed.

Lemma filter_nil_not_in {A} (p : A -> bool) (l : list A) (x : A) :
  filter p l = [] -> p x = true -> ~ In x l.
Proof.
  intros Hf Hp Hin.
  assert (Hx : In x (filter p l)) by (apply filter_In; auto).
  rewrite Hf in Hx. contradiction.
Qed.

End Traces.

Section Reachability.

Lemma reach_prepend s0 a s1 ev tr s :
  step s0 a = Some (s1, ev) ->
  reach s1 tr s ->
  reach s0 (stamp (now s0) ev ++ tr) s.
Proof.
  intros Hstep Hr. induction Hr as [|tr s a' s' ev' Hr IH Hs].
  - rewrite app_nil_r.
    change (stamp (now s0) ev) with ([] ++ stamp (now s0) ev).
    eapply reach_step; [apply reach_init|exact Hstep].
  - rewrite app_assoc. eapply reach_step; eassumption.
Qed.

Lemma run_reach acts : forall s0 s tr,
  run s0 acts = Some (s, tr) -> reach s0 tr s.
Proof.
  induction acts as [|a acts IH]; simpl; intros s0 s tr H.
  - inversion H; subst. apply reach_init.
  - destruct (step s0 a) as [[s1 ev]|] eqn:Hstep; [|discriminate].
    destruct (run s1 acts) as [[s2 tr2]|] eqn:Hrun; [|discriminate].
    inversion H; subst.
    eapply reach_prepend; [exact Hstep|]. apply IH. exact Hrun.
Qed.

Lemma Listen_start_running env g t0 ev cfg s0 left :
  Listen_start env g t0 = Return (ev, cfg, inr s0, left) ->
  initial env t0 s0
  /\ allocated env = true
  /\ Forall (fun e => isSetup e = true) ev.
Proof.
  unfold Listen_start, allocated, initial, leftBehind. intros H.
  repeat match type of H with
         | context [match ?x with _ => _ end] => destruct x eqn:?
         end; inversion H; subst; clear H.
  all: split; [do 4 eexists; reflexivity|]; split; [reflexivity|].
  all: repeat constructor.
Qed.

(** A return of [Listen] that leaves a goroutine behind: the key pair did
    not parse, and the goroutine is the permission goroutine of the
    static address. *)
Lemma Listen_start_left env g t0 ev cfg res s1 :
  Listen_start env g t0 = Return (ev, cfg, res, Some s1) ->
  onlyPermission (InfisicalStaticIp (config g)) s1
  /\ InfisicalStaticIp (config g) <> ""
  /\ perm (life s1) = PFirst
  /\ crashed s1 = false /\ now s1 = t0
  /\ isTCPListener (relayConn (loopG s1)) = false
  /\ allocated env = true
  /\ exists cert e,
       tls_X509KeyPair env (xCertificate cert) (xPrivateKey cert) = Some e
       /\ res = inl (Some (Errorf_s "failed to parse cert" e)).
Proof.
  unfold allocated, onlyPermission. intros H.
  listen_start_cases H; try contradiction.
  cbn. repeat match goal with
              | |- _ /\ _ => split
              end; auto; eauto.
Qed.

Lemma Listen_running env g t0 acts tr s :
  Listen env g t0 acts = Some (tr, inr s) ->
  exists ev s0 tr',
    initial env t0 s0 /\ allocated env = true
    /\ Forall (fun e => isSetup e = true) ev
    /\ reach s0 tr' s /\ tr = stamp t0 ev ++ tr'.
Proof.
  unfold Listen. intros H.
  destruct (Listen_start env g t0) as [[[[ev cfg] [e|s0]] [s1|]]|] eqn:Hs;
    try discriminate.
  - destruct (run s1 acts) as [[s2 tr1]|]; discriminate.
  - destruct (run s0 acts) as [[s1' tr1]|] eqn:Hr; [|discriminate].
    inversion H; subst.
    destruct (Listen_start_running _ _ _ _ _ _ _ Hs) as [Hi [Ha Hev]].
    exists ev, s0, tr1. repeat split; auto. eapply run_reach; eauto.
  - destruct (run s0 acts) as [[s1' tr1]|] eqn:Hr; [|discriminate].
    inversion H; subst.
    destruct (Listen_start_running _ _ _ _ _ _ _ Hs) as [Hi [Ha Hev]].
    exists ev, s0, tr1. repeat split; auto. eapply run_reach; eauto.
Qed.

(** The three shapes of a session. *)
Lemma Listen_cases env g t0 acts tr res :
  Listen env g t0 acts = Some (tr, res) ->
  exists ev cfg,
    (exists e, Listen_start env g t0 = Return (ev, cfg, inl e, None)
               /\ tr = stamp t0 ev /\ res = inl e)
    \/ (exists e s1 s tr',
          Listen_start env g t0 = Return (ev, cfg, inl e, Some s1)
          /\ reach s1 tr' s /\ tr = stamp t0 ev ++ tr' /\ res = inl e)
    \/ (exists s0 left s tr',
          Listen_start env g t0 = Return (ev, cfg, inr s0, left)
          /\ reach s0 tr' s /\ tr = stamp t0 ev ++ tr' /\ res = inr s).
Proof.
  unfold Listen. intros H.
  destruct (Listen_start env g t0) as [[[[ev cfg] [e|s0]] [s1|]]|] eqn:Hs;
    try discriminate; exists ev, cfg.
  - destruct (run s1 acts) as [[s2 tr1]|] eqn:Hr; [|discriminate].
    inversion H; subst. right; left. exists e, s1, s2, tr1.
    repeat split; auto. eapply run_reach; eauto.
  - inversion H; subst. left. eauto.
  - destruct (run s0 acts) as [[s2 tr1]|] eqn:Hr; [|discriminate].
    inversion H; subst. right; right. exists s0, (Some s1), s2, tr1.
    repeat split; auto. eapply run_reach; eauto.
  - destruct (run s0 acts) as [[s2 tr1]|] eqn:Hr; [|discriminate].
    inversion H; subst. right; right. exists s0, None, s2, tr1.
    repeat split; auto. eapply run_reach; eauto.
Qed.

(** What the goroutine left behind can do: its calls of
    [CreatePermissions], and nothing else happens in the process. *)
Lemma step_onlyPermission ip s a s' ev :
  onlyPermission ip s ->
  step s a = Some (s', ev) ->
  onlyPermission ip s'
  /\ Forall (fun e => isPermissionEvent ip e = true) ev.
Proof.
  unfold onlyPermission.
  intros [I1 [I2 [I3 [I4 [I5 [I6 [I7 [I8 [I9 I10]]]]]]]]] H.
  step_cases H; simpl in *;
    try congruence;
    try (rewrite I5 in *; simpl in *; discriminate);
    try (destruct I9; congruence);
    (split; [repeat split; auto|]);
    repeat constructor; simpl; try apply String.eqb_refl.
  unfold tickerAdvance. rewrite I10.
  destruct (_ <=? _); [reflexivity|exact I10].
Qed.

Lemma reach_onlyPermission ip s1 tr s :
  reach s1 tr s ->
  onlyPermission ip s1 ->
  onlyPermission ip s
  /\ Forall (fun e => isPermissionEvent ip e = true) (events tr).
Proof.
  intros Hr H1. induction Hr as [|tr s a s' ev Hr [IH1 IH2] Hs].
  - split; [assumption|constructor].
  - destruct (step_onlyPermission _ _ _ _ _ IH1 Hs) as [S1 S2].
    split; [assumption|].
    rewrite events_app, events_stamp. apply Forall_app. auto.
Qed.

(** Time does not go back. *)
Lemma step_now s a s' ev : step s a = Some (s', ev) -> now s <= now s'.
Proof.
  intros H. step_cases H; simpl; lia.
Qed.

End Reachability.

Section AcceptLoop.

Lemma loopAccepted_error s err :
  lpc (loopG s) = LAccept ->
  loopAccepted (Err err) s = Some (continues s, acceptErrorLog err).
Proof.
  intros Hpc. unfold loopAccepted. rewrite Hpc, acceptIteration_error.
  reflexivity.
Qed.



End AcceptLoop.

Section ReturnEvents.

Lemma returns_events ce ds e :
  Forall (fun x => isReturnEvent x = true) (returns ce ds e).
Proof.
  unfold returns, runDefers. apply Forall_app. split; [|repeat constructor].
  induction ds as [|d ds IH]; simpl; [constructor|].
  apply Forall_app. split; [|exact IH].
  destruct d; simpl; [repeat constructor|].
  destruct ce; repeat constructor.
Qed.

End ReturnEvents.

(** Closes goals [filter p ev = []] for the events of one step. *)
Ltac no_such_event :=
  first
    [ reflexivity
    | match goal with
      | r : option error |- _ => destruct r; reflexivity
      end
    | match goal with
      | Hi : acceptIteration _ _ = (?ev, _) |- _ =>
          let Hf := fresh "Hf" in
          pose proof (proj1 (acceptIteration_events _ _ _ _ Hi)) as Hf;
          rewrite ?filter_app; rewrite (filter_none _ _ _ Hf);
          [reflexivity | intros [] Hx; try discriminate Hx; reflexivity]
      end
    | simpl; apply (filter_none _ _ _ (returns_events _ _ _));
      intros [] Hx; try discriminate Hx; reflexivity ].

Section NoAcceptDeadline.

Lemma step_isTCPListener s a s' ev :
  step s a = Some (s', ev) ->
  isTCPListener (relayConn (loopG s)) = false ->
  isTCPListener (relayConn (loopG s')) = false
  /\ filter isSetAcceptDeadline ev = [].
Proof.
  intros H Hl. step_cases H; simpl in *; auto; try congruence;
    (split; [assumption|]); no_such_event.
Qed.

Lemma reach_no_accept_deadline s0 tr s :
  reach s0 tr s ->
  isTCPListener (relayConn (loopG s0)) = false ->
  isTCPListener (relayConn (loopG s)) = false
  /\ filter isSetAcceptDeadline (events tr) = [].
Proof.
  intros Hr H0. induction Hr as [|tr s a s' ev Hr [IH1 IH2] Hs].
  - auto.
  - destruct (step_isTCPListener _ _ _ _ Hs IH1) as [H1 H2].
    split; [exact H1|].
    rewrite events_app, filter_app, events_stamp, IH2, H2. reflexivity.
Qed.

Lemma Listen_start_no_accept_deadline env g t0 ev cfg res left :
  Listen_start env g t0 = Return (ev, cfg, res, left) ->
  filter isSetAcceptDeadline ev = [].
Proof.
  unfold Listen_start. intros H.
  repeat match type of H with
         | context [match ?x with _ => _ end] => destruct x eqn:?
         end; inversion H; subst; clear H;
    destruct (relay_Close env); reflexivity.
Qed.

End NoAcceptDeadline.

Section AllocationClose.

Lemma allocCloses_app tr1 tr2 :
  allocCloses (tr1 ++ tr2) = (allocCloses tr1 + allocCloses tr2)%nat.
Proof.
  unfold allocCloses. rewrite events_app, filter_app, length_app. reflexivity.
Qed.

Lemma allocCloses_stamp t ev :
  allocCloses (stamp t ev) = List.length (filter isAllocClose ev).
Proof. unfold allocCloses. rewrite events_stamp. reflexivity. Qed.

Lemma allocCloses_returns ce e :
  filter isAllocClose (returns ce [DeferAllocClose; DeferClientClose] e)
  = [EvAllocClose].
Proof. destruct ce; reflexivity. Qed.

(** What a step does to the goroutine of [Listen] itself. *)
Lemma step_main s a s' ev :
  step s a = Some (s', ev) ->
  match a with
  | MainSelect _ =>
      mpc (mainG s) = MSelect
      /\ mpc (mainG s') = MGrace (now s + 5 * Second)
      /\ mdefers (mainG s') = mdefers (mainG s)
      /\ filter isAllocClose ev = []
      /\ In EvCloseShutdownCh ev
  | MainGrace _ =>
      (exists d, mpc (mainG s) = MGrace d)
      /\ mpc (mainG s') = MReturned
      /\ filter isAllocClose ev
         = filter isAllocClose
             (returns (closeErr (mainG s)) (mdefers (mainG s)) (merr (mainG s)))
  | _ => mainG s' = mainG s /\ filter isAllocClose ev = []
  end.
Proof.
  intros H. step_cases H; simpl; repeat split; eauto; try no_such_event;
    simpl; auto.
Qed.

Lemma step_deferredOnce tr s a s' ev :
  deferredOnce tr s ->
  step s a = Some (s', ev) ->
  deferredOnce (tr ++ stamp (now s) ev) s'.
Proof.
  unfold deferredOnce. intros Hd H.
  rewrite allocCloses_app, allocCloses_stamp.
  pose proof (step_main _ _ _ _ H) as Hm.
  destruct a;
    try (destruct Hm as [Hm1 Hm2]; rewrite Hm1, Hm2; simpl;
         destruct (mpc (mainG s)); [destruct Hd; split| destruct Hd; split|];
         auto; lia).
  - destruct Hm as [Hm1 [Hm2 [Hm3 [Hm4 _]]]].
    rewrite Hm1 in Hd. rewrite Hm2, Hm3, Hm4. simpl.
    destruct Hd; split; auto; lia.
  - destruct Hm as [[d Hm1] [Hm2 Hm3]].
    rewrite Hm1 in Hd. destruct Hd as [Hd1 Hd2].
    rewrite Hm2, Hm3, Hd1, Hd2, allocCloses_returns. reflexivity.
Qed.

Lemma reach_deferredOnce s0 tr s :
  reach s0 tr s -> deferredOnce [] s0 -> deferredOnce tr s.
Proof.
  intros Hr H0. induction Hr as [|tr s a s' ev Hr IH Hs]; [exact H0|].
  eapply step_deferredOnce; eauto.
Qed.

Lemma initial_deferredOnce env t0 s0 : initial env t0 s0 -> deferredOnce [] s0.
Proof.
  intros [addr [ppc [ptk [peer ->]]]]. split; reflexivity.
Qed.

(** A session that returns before its goroutines start. *)
Lemma Listen_start_returns env g t0 ev cfg e left :
  Listen_start env g t0 = Return (ev, cfg, inl e, left) ->
  filter isAllocClose ev = if allocated env then [EvAllocClose] else [].
Proof.
  unfold Listen_start, allocated. intros H.
  repeat match type of H with
         | context [match ?x with _ => _ end] => destruct x eqn:?
         end; inversion H; subst; clear H;
    destruct (relay_Close env); reflexivity.
Qed.

End AllocationClose.

(* ================================================================== *)
(** * The claims about the accept loop and the allocation *)

Section IdentityCheck.






End IdentityCheck.




(** C4.  An [Accept] that times out is retried; the next [Accept] returns
    a connection whose handshake completes with a leaf certificate that
    has no OrganizationalUnit.  The loop then ends in the run-time panic
    of [organizationUnit[0]], though [ctx] is not cancelled and
    [shutdownCh] is not closed; nothing runs any more. *)
Theorem accept_loop_ends_without_a_signal :
  exists s,
    Listen okListenEnv connectedGateway 0
           [LoopSelect LoopDefault; LoopAccept; LoopAccepted (Err timeoutErr);
            LoopSelect LoopDefault; LoopAccept;
            LoopAccepted (Ok (TLSConn None [noUnitCert]))]
    = Some (setupTrace ++
            stamp 0 [EvAccept; EvAccept;
                     EvConnSetDeadline 0%nat (Some (10 * Second));
                     EvHandshake 0%nat; EvConnSetDeadline 0%nat None;
                     EvPanic index_out_of_range],
            inr s)
    /\ crashed s = true
    /\ ctxDone (sync s) = false
    /\ shutdownCh (sync s) = false
    /\ lpc (loopG s) <> LExited
    /\ forall a, step s a = None.
Proof.
  eexists. split; [vm_compute; reflexivity|].
  repeat split; discriminate.
Qed.

(** X26.  A failed [Accept] does not end the loop.  The loop logs nothing
    when the error is a timeout or mentions an incomplete STUN or TURN
    frame, and one "Failed to accept connection" line otherwise; it
    counts no connection, starts no goroutine and is back at the head of
    the [for].  Unless [ctx] is cancelled or [shutdownCh] is closed by
    then, its [select] takes [default] and it calls [Accept] again. *)
Theorem accept_errors_are_retried (s : State) (err : error) :
  crashed s = false ->
  lpc (loopG s) = LAccept ->
  step s (LoopAccepted (Err err)) = Some (continues s, acceptErrorLog err)
  /\ (netError err = Some true -> acceptErrorLog err = [])
  /\ (Contains (Error err) stun_noise = true -> acceptErrorLog err = [])
  /\ (netError err <> Some true ->
      Contains (Error err) stun_noise = false ->
      acceptErrorLog err
      = [LogError ("Failed to accept connection: " ++ Error err)%string])
  /\ nextConn (loopG (continues s)) = nextConn (loopG s)
  /\ tasks (continues s) = tasks s
  /\ sync (continues s) = sync s
  /\ (ctxDone (sync s) = false ->
      shutdownCh (sync s) = false ->
      exists s2 tr,
        run (continues s) [LoopSelect LoopDefault; LoopAccept] = Some (s2, tr)
        /\ filter isAccept (events tr) = [EvAccept]
        /\ lpc (loopG s2) = LAccept
        /\ nextConn (loopG s2) = nextConn (loopG s))
  /\ (ctxDone (sync s) || shutdownCh (sync s) = true ->
      step (continues s) (LoopSelect LoopDefault) = None).
Proof.
  intros Hc Hpc.
  split; [unfold step; rewrite Hc; apply loopAccepted_error; assumption|].
  split; [intros Ht; unfold acceptErrorLog; rewrite Ht; reflexivity|].
  split.
  { intros Hn. unfold acceptErrorLog. rewrite Hn.
    destruct (netError err) as [[|]|]; reflexivity. }
  split.
  { intros Ht Hn. unfold acceptErrorLog. rewrite Hn.
    destruct (netError err) as [[|]|]; try reflexivity. congruence. }
  split; [reflexivity|]. split; [reflexivity|]. split; [reflexivity|].
  split.
  - intros Hx Hsh. unfold run, step, loopSelect, loopAccept, continues. cbn.
    rewrite Hc, Hx, Hsh. cbn. rewrite Hc.
    do 2 eexists. split; [reflexivity|].
    rewrite events_app, !events_stamp, filter_app.
    destruct (isTCPListener _); cbn; auto.
  - intros Hsig. unfold step, loopSelect, continues. cbn.
    rewrite Hc, Hsig. reflexivity.
Qed.

Lemma accept_errors_are_retried_witness :
  step acceptingState (LoopAccepted (Err timeoutErr))
  = Some (continues acceptingState, [])
  /\ exists s2 tr,
       run (continues acceptingState) [LoopSelect LoopDefault; LoopAccept]
       = Some (s2, tr)
       /\ filter isAccept (events tr) = [EvAccept]
       /\ lpc (loopG s2) = LAccept.
Proof.
  destruct (accept_errors_are_retried acceptingState timeoutErr
              eq_refl eq_refl)
    as [H1 [_ [_ [_ [_ [_ [_ [H2 _]]]]]]]].
  split; [exact H1|].
  destruct (H2 eq_refl eq_refl) as [s2 [tr [R1 [R2 [R3 _]]]]].
  exists s2, tr. auto.
Defined.


(** C7. A session of [Listen] never closes the relay allocation twice,
    and once [Listen] has returned, by whichever path, it has closed the
    allocation exactly once if it had obtained one (and not at all if it
    had not). *)
Theorem allocation_closed_exactly_once
    (env : ListenEnv) (g : Gateway) (t0 : Z) (acts : list Action)
    (tr : trace) (res : option error + State) :
  Listen env g t0 acts = Some (tr, res) ->
  (allocCloses tr <= 1)%nat
  /\ (forall e, returned res = Some e ->
                allocCloses tr = if allocated env then 1%nat else 0%nat).
Proof.
  intros H. destruct res as [e|s].
  - destruct (Listen_cases _ _ _ _ _ _ H)
      as [ev [cfg [[e' [Hs [-> He]]]
                  |[[e' [s1 [s [tr' [Hs [Hr [-> He]]]]]]]
                   |[s0 [left [s [tr' [_ [_ [_ He]]]]]]]]]]];
      [| |discriminate He].
    + rewrite allocCloses_stamp, (Listen_start_returns _ _ _ _ _ _ _ Hs).
      destruct (allocated env); simpl; split; auto.
    + destruct (Listen_start_left _ _ _ _ _ _ _ Hs) as [Hl _].
      destruct (reach_onlyPermission _ _ _ _ Hr Hl) as [_ Hev].
      assert (Hz : allocCloses tr' = 0%nat).
      { unfold allocCloses. rewrite (filter_none isAllocClose _ _ Hev);
          [reflexivity|intros [] Hx; try discriminate Hx; reflexivity]. }
      rewrite allocCloses_app, allocCloses_stamp, Hz,
        (Listen_start_returns _ _ _ _ _ _ _ Hs).
      destruct (allocated env); simpl; split; auto.
  - destruct (Listen_running _ _ _ _ _ _ H)
      as [ev [s0 [tr' [Hi [Ha [Hev [Hr ->]]]]]]].
    pose proof (reach_deferredOnce _ _ _ Hr (initial_deferredOnce _ _ _ Hi)) as Hd.
    rewrite allocCloses_app, allocCloses_stamp, Ha.
    rewrite (filter_none isAllocClose _ _ Hev)
      by (intros [] Hx; try discriminate Hx; reflexivity).
    unfold deferredOnce in Hd. unfold returned. simpl.
    destruct (mpc (mainG s)).
    + destruct Hd as [Hd _]. rewrite Hd. split; [lia|discriminate].
    + destruct Hd as [Hd _]. rewrite Hd. split; [lia|discriminate].
    + rewrite Hd. split; [lia|reflexivity].
Qed.

(** C8. In no session of [Listen] is an accept deadline ever set: the
    listener the loop accepts on is the one made by [tls.NewListener],
    whose dynamic type is not [net.TCPListener], so the type assertion
    that guards [SetDeadline] fails at every iteration. *)
Theorem accept_deadline_is_never_set
    (env : ListenEnv) (g : Gateway) (t0 : Z) (acts : list Action)
    (tr : trace) (res : option error + State) :
  Listen env g t0 acts = Some (tr, res) ->
  forall t d, ~ In (t, EvSetAcceptDeadline d) tr.
Proof.
  intros H t d Hin.
  assert (Hf : filter isSetAcceptDeadline (events tr) = []).
  { destruct (Listen_cases _ _ _ _ _ _ H)
      as [ev [cfg [[e' [Hs [-> _]]]
                  |[[e' [s1 [s [tr' [Hs [Hr [-> _]]]]]]]
                   |[s0 [left [s [tr' [Hs [Hr [-> _]]]]]]]]]]].
    - rewrite events_stamp.
      eapply Listen_start_no_accept_deadline; eauto.
    - rewrite events_app, filter_app, events_stamp.
      rewrite (Listen_start_no_accept_deadline _ _ _ _ _ _ _ Hs).
      destruct (Listen_start_left _ _ _ _ _ _ _ Hs) as [_ [_ [_ [_ [_ [Hl _]]]]]].
      apply (reach_no_accept_deadline _ _ _ Hr Hl).
    - rewrite events_app, filter_app, events_stamp.
      rewrite (Listen_start_no_accept_deadline _ _ _ _ _ _ _ Hs).
      destruct (Listen_start_running _ _ _ _ _ _ _ Hs)
        as [[addr [ppc [ptk [peer ->]]]] _].
      apply (reach_no_accept_deadline _ _ _ Hr). reflexivity. }
  apply (filter_nil_not_in _ _ (EvSetAcceptDeadline d) Hf); [reflexivity|].
  apply in_events. eauto.
Qed.

(* ================================================================== *)
(** * Connection tasks and the wait group *)

Section Tasks.

Lemma tcId_handlerDone c t : tcId (handlerDone c t) = tcId t.
Proof. unfold handlerDone. destruct (isTask c t); reflexivity. Qed.

Lemma tcId_watcherDone c t : tcId (watcherDone c t) = tcId t.
Proof. unfold watcherDone. destruct (isTask c t); reflexivity. Qed.

Lemma handling_watcherDone c t : handling (watcherDone c t) = handling t.
Proof. unfold watcherDone. destruct (isTask c t); reflexivity. Qed.

Lemma map_tcId_handlerDone c l : map tcId (map (handlerDone c) l) = map tcId l.
Proof.
  rewrite map_map. apply map_ext. intros t. apply tcId_handlerDone.
Qed.

Lemma map_tcId_watcherDone c l : map tcId (map (watcherDone c) l) = map tcId l.
Proof.
  rewrite map_map. apply map_ext. intros t. apply tcId_watcherDone.
Qed.

Lemma filter_handling_watcherDone c l :
  List.length (filter handling (map (watcherDone c) l))
  = List.length (filter handling l).
Proof.
  induction l as [|t l IH]; simpl; [reflexivity|].
  rewrite handling_watcherDone. destruct (handling t); simpl; congruence.
Qed.

Lemma handlerDone_absent c l :
  ~ In c (map tcId l) -> map (handlerDone c) l = l.
Proof.
  induction l as [|t l IH]; simpl; intros Hn; [reflexivity|].
  rewrite IH by tauto. unfold handlerDone, isTask.
  destruct (Nat.eqb_spec (tcId t) c); [exfalso; tauto|reflexivity].
Qed.

Lemma running_absent c l :
  ~ In c (map tcId l) ->
  existsb (fun t => isTask c t && handling t) l = false.
Proof.
  induction l as [|t l IH]; simpl; intros Hn; [reflexivity|].
  rewrite IH by tauto. unfold isTask.
  destruct (Nat.eqb_spec (tcId t) c); [exfalso; tauto|reflexivity].
Qed.

Lemma running_counted c l :
  existsb (fun t => isTask c t && handling t) l = true ->
  (1 <= List.length (filter handling l))%nat.
Proof.
  induction l as [|t l IH]; simpl; [discriminate|].
  destruct (handling t); simpl; [lia|].
  rewrite andb_false_r. simpl. exact IH.
Qed.

Lemma inFlight_handlerDone c l :
  NoDup (map tcId l) ->
  existsb (fun t => isTask c t && handling t) l = true ->
  List.length (filter handling (map (handlerDone c) l))
  = pred (List.length (filter handling l)).
Proof.
  induction l as [|t l IH]; simpl; intros Hnd Hex; [discriminate|].
  inversion Hnd as [|x xs Hnotin Hnd']; subst.
  unfold handlerDone at 1.
  destruct (isTask c t) eqn:Hc; simpl in *.
  - apply Nat.eqb_eq in Hc. subst c.
    rewrite (handlerDone_absent _ _ Hnotin).
    rewrite (running_absent _ _ Hnotin), orb_false_r in Hex.
    rewrite Hex. reflexivity.
  - pose proof (running_counted _ _ Hex).
    destruct (handling t); simpl; rewrite (IH Hnd' Hex); lia.
Qed.

Lemma in_handlerDone c l t :
  In t (map (handlerDone c) l) ->
  exists u, In u l /\ tcId u = tcId t /\ watching u = watching t
            /\ (handling t = handling u \/ (tcId t = c /\ handling t = false)).
Proof.
  rewrite in_map_iff. intros [u [Hu Hin]]. exists u. subst t.
  unfold handlerDone, isTask.
  destruct (Nat.eqb_spec (tcId u) c); simpl; repeat split; auto.
Qed.

Lemma in_watcherDone c l t :
  In t (map (watcherDone c) l) ->
  exists u, In u l /\ tcId u = tcId t /\ handling u = handling t
            /\ (watching t = watching u \/ (tcId t = c /\ watching t = false)).
Proof.
  rewrite in_map_iff. intros [u [Hu Hin]]. exists u. subst t.
  unfold watcherDone, isTask.
  destruct (Nat.eqb_spec (tcId u) c); simpl; repeat split; auto.
Qed.

End Tasks.

Section SessionInvariants.

(** What a step does to the connection tasks. *)
Lemma step_tasks s a s' ev :
  step s a = Some (s', ev) ->
  match a with
  | LoopAccepted r =>
      lpc (loopG s) = LAccept /\
      exists it evi,
        acceptIteration (nextConn (loopG s)) r = (evi, it) /\
        match it with
        | Dispatch c =>
            c = nextConn (loopG s)
            /\ tasks s' = tasks s ++ [mkTask c true true]
            /\ wg (sync s') = S (wg (sync s))
            /\ nextConn (loopG s') = S (nextConn (loopG s))
            /\ ev = evi
        | Continue =>
            tasks s' = tasks s /\ wg (sync s') = wg (sync s)
            /\ (nextConn (loopG s) <= nextConn (loopG s'))%nat
            /\ ev = evi
        | Crash m =>
            tasks s' = tasks s /\ wg (sync s') = wg (sync s)
            /\ nextConn (loopG s') = nextConn (loopG s)
            /\ ev = evi ++ [EvPanic m]
        end
  | HandlerReturns c =>
      existsb (fun t => isTask c t && handling t) (tasks s) = true
      /\ tasks s' = map (handlerDone c) (tasks s)
      /\ wg (sync s') = pred (wg (sync s))
      /\ nextConn (loopG s') = nextConn (loopG s)
      /\ ev = [EvHandled c; EvConnClose c; EvWgDone]
  | Watcher c w =>
      tasks s' = map (watcherDone c) (tasks s)
      /\ wg (sync s') = wg (sync s)
      /\ nextConn (loopG s') = nextConn (loopG s)
      /\ ev = [EvConnClose c]
  | _ =>
      tasks s' = tasks s /\ wg (sync s') = wg (sync s)
      /\ nextConn (loopG s') = nextConn (loopG s)
      /\ filter isTaskEvent ev = []
  end.
Proof.
  intros H. step_cases H; simpl;
    try (repeat split; auto; no_such_event; fail).
  all: split; [reflexivity|]; do 2 eexists; (split; [reflexivity|]); simpl;
    match goal with
    | Hi : acceptIteration _ _ = _ |- _ =>
        pose proof (proj2 (acceptIteration_events _ _ _ _ Hi)) as Hd;
        simpl in Hd
    end;
    try match type of Hd with
        | _ /\ _ => destruct Hd as [-> [_ [k Hk]]]; try discriminate Hk
        end;
    repeat split; auto.
Qed.

Lemma step_tasksWf s a s' ev :
  tasksWf s -> step s a = Some (s', ev) -> tasksWf s'.
Proof.
  intros [Hnd [Hlt Hwg]] H. pose proof (step_tasks _ _ _ _ H) as Hs.
  unfold tasksWf, inFlight in *.
  destruct a;
    try (destruct Hs as [Ht [Hw [Hn _]]]; rewrite Ht, Hw, Hn; auto; fail).
  - destruct Hs as [_ [it [evi [Hi Hs]]]]. destruct it.
    + destruct Hs as [Ht [Hw [Hn _]]]. rewrite Ht, Hw.
      repeat split; auto. intros t Hin. specialize (Hlt t Hin). lia.
    + destruct Hs as [-> [Ht [Hw [Hn _]]]]. rewrite Ht, Hw, Hn.
      rewrite map_app, filter_app, length_app. simpl. repeat split.
      * apply NoDup_app; [assumption|repeat constructor; simpl; tauto|].
        intros x Hx [<-|[]]. apply in_map_iff in Hx.
        destruct Hx as [t [Hid Hin]]. specialize (Hlt t Hin). lia.
      * intros t Hin. apply in_app_or in Hin. destruct Hin as [Hin|[<-|[]]].
        -- specialize (Hlt t Hin). lia.
        -- simpl. lia.
      * lia.
    + destruct Hs as [Ht [Hw [Hn _]]]. rewrite Ht, Hw, Hn. auto.
  - destruct Hs as [Hex [Ht [Hw [Hn _]]]]. rewrite Ht, Hw, Hn.
    rewrite map_tcId_handlerDone, (inFlight_handlerDone _ _ Hnd Hex).
    repeat split; auto.
    intros t Hin. apply in_handlerDone in Hin.
    destruct Hin as [u [Hu [Hid _]]]. rewrite <- Hid. auto.
  - destruct Hs as [Ht [Hw [Hn _]]]. rewrite Ht, Hw, Hn.
    rewrite map_tcId_watcherDone, filter_handling_watcherDone.
    repeat split; auto.
    intros t Hin. apply in_watcherDone in Hin.
    destruct Hin as [u [Hu [Hid _]]]. rewrite <- Hid. auto.
Qed.

Lemma step_signalled s a s' ev :
  signalled s -> step s a = Some (s', ev) ->
  signalled s' /\ (shutdownCh (sync s) = true -> shutdownCh (sync s') = true).
Proof.
  unfold signalled. intros Hg H.
  step_cases H; simpl; (split; [|auto]); auto;
    destruct (mpc (mainG s)); auto; discriminate.
Qed.

End SessionInvariants.

Section Shutdown.

Lemma in_events_snoc e tr t ev :
  In e (events (tr ++ stamp t ev)) <-> In e (events tr) \/ In e ev.
Proof. rewrite events_app, events_stamp. apply in_app_iff. Qed.

Lemma not_task_event e ev :
  filter isTaskEvent ev = [] -> isTaskEvent e = true -> ~ In e ev.
Proof. intros Hf He. apply (filter_nil_not_in _ _ _ Hf He). Qed.

Lemma dispatched_is c e ev :
  filter isDispatch ev = [EvDispatch c] -> In (EvDispatch e) ev -> e = c.
Proof.
  intros Hf Hin.
  assert (Hx : In (EvDispatch e) (filter isDispatch ev))
    by (apply filter_In; auto).
  rewrite Hf in Hx. destruct Hx as [Hx|[]]. congruence.
Qed.

Lemma step_tasksLogged tr s a s' ev :
  tasksLogged tr s ->
  step s a = Some (s', ev) ->
  tasksLogged (tr ++ stamp (now s) ev) s'.
Proof.
  intros [T1 [T2 T3]] H. pose proof (step_tasks _ _ _ _ H) as Hs.
  unfold tasksLogged.
  destruct a;
    try (destruct Hs as [Ht [_ [_ Hf]]]; rewrite Ht;
         split; [|split];
         [ intros x Hin; apply in_events_snoc in Hin;
           destruct Hin as [Hin|Hin]; [auto|];
           exfalso; exact (not_task_event (EvDispatch x) _ Hf eq_refl Hin)
         | intros t Hin Hh; apply in_events_snoc; auto
         | intros t Hin Hw; apply in_events_snoc; auto ]; fail).
  - (* LoopAccepted *)
    destruct Hs as [_ [it [evi [Hi Hs]]]].
    pose proof (proj2 (acceptIteration_events _ _ _ _ Hi)) as Hd.
    destruct it; simpl in Hd, Hs.
    + destruct Hs as [Ht [_ [_ ->]]]. rewrite Ht. split; [|split].
      * intros c Hin. apply in_events_snoc in Hin.
        destruct Hin as [Hin|Hin]; [auto|].
        exfalso. exact (filter_nil_not_in isDispatch _ (EvDispatch c) Hd eq_refl Hin).
      * intros t Hin Hh. apply in_events_snoc. auto.
      * intros t Hin Hw. apply in_events_snoc. auto.
    + destruct Hs as [-> [Ht [_ [_ ->]]]]. destruct Hd as [_ [Hd _]].
      rewrite Ht. split; [|split].
      * intros c Hin. apply in_events_snoc in Hin.
        destruct Hin as [Hin|Hin].
        -- destruct (T1 c Hin) as [t [Hin' Hid]]. exists t.
           split; [apply in_or_app; auto|assumption].
        -- apply (dispatched_is _ _ _ Hd) in Hin. subst c.
           eexists. split; [apply in_or_app; right; left; reflexivity|].
           reflexivity.
      * intros t Hin Hh. apply in_events_snoc.
        apply in_app_or in Hin. destruct Hin as [Hin|[<-|[]]]; auto.
        discriminate Hh.
      * intros t Hin Hw. apply in_events_snoc.
        apply in_app_or in Hin. destruct Hin as [Hin|[<-|[]]]; auto.
        discriminate Hw.
    + destruct Hs as [Ht [_ [_ ->]]]. rewrite Ht. split; [|split].
      * intros c Hin. apply in_events_snoc in Hin.
        destruct Hin as [Hin|Hin]; [auto|].
        apply in_app_or in Hin. destruct Hin as [Hin|[Hin|[]]];
          [|discriminate Hin].
        exfalso. exact (filter_nil_not_in isDispatch _ (EvDispatch c) Hd eq_refl Hin).
      * intros t Hin Hh. apply in_events_snoc. auto.
      * intros t Hin Hw. apply in_events_snoc. auto.
  - (* HandlerReturns *)
    destruct Hs as [_ [Ht [_ [_ ->]]]]. rewrite Ht. split; [|split].
    + intros c' Hin. apply in_events_snoc in Hin.
      destruct Hin as [Hin|[Hin|[Hin|[Hin|[]]]]]; try discriminate Hin.
      destruct (T1 c' Hin) as [t [Hin' Hid]].
      exists (handlerDone c t). split; [apply in_map; assumption|].
      rewrite tcId_handlerDone. assumption.
    + intros t Hin Hh. apply in_events_snoc.
      apply in_handlerDone in Hin.
      destruct Hin as [u [Hu [Hid [_ [Heq|[Heq _]]]]]].
      * left. rewrite <- Hid. apply T2; congruence.
      * right. rewrite Heq. simpl. auto.
    + intros t Hin Hw. apply in_events_snoc.
      apply in_handlerDone in Hin.
      destruct Hin as [u [Hu [Hid [Hwu _]]]].
      left. rewrite <- Hid. apply T3; congruence.
  - (* Watcher *)
    destruct Hs as [Ht [_ [_ ->]]]. rewrite Ht. split; [|split].
    + intros c' Hin. apply in_events_snoc in Hin.
      destruct Hin as [Hin|[Hin|[]]]; try discriminate Hin.
      destruct (T1 c' Hin) as [t [Hin' Hid]].
      exists (watcherDone c t). split; [apply in_map; assumption|].
      rewrite tcId_watcherDone. assumption.
    + intros t Hin Hh. apply in_events_snoc.
      apply in_watcherDone in Hin.
      destruct Hin as [u [Hu [Hid [Hhu _]]]].
      left. rewrite <- Hid. apply T2; congruence.
    + intros t Hin Hw. apply in_events_snoc.
      apply in_watcherDone in Hin.
      destruct Hin as [u [Hu [Hid [_ [Heq|[Heq _]]]]]].
      * left. rewrite <- Hid. apply T3; congruence.
      * right. rewrite Heq. simpl. auto.
Qed.

End Shutdown.

Section AfterShutdown.

Lemma step_graceTimed tr s a s' ev :
  graceTimed tr s ->
  step s a = Some (s', ev) ->
  graceTimed (tr ++ stamp (now s) ev) s'.
Proof.
  unfold graceTimed. intros Hg H d Hd.
  pose proof (step_main _ _ _ _ H) as Hm.
  destruct a;
    try (destruct Hm as [Hm _]; rewrite Hm in Hd;
         destruct (Hg d Hd) as [t1 [Hin Heq]]; exists t1;
         split; [apply in_or_app; auto|assumption]; fail).
  - destruct Hm as [_ [Hm [_ [_ Hin]]]]. rewrite Hm in Hd.
    inversion Hd; subst. exists (now s). split; [|reflexivity].
    apply in_or_app. right. apply in_stamp. auto.
  - destruct Hm as [_ [Hm _]]. congruence.
Qed.

Lemma step_waitLogged tr s a s' ev :
  waitLogged tr s ->
  step s a = Some (s', ev) ->
  waitLogged (tr ++ stamp (now s) ev) s'.
Proof.
  unfold waitLogged. intros [W1 W2] H.
  step_cases H; simpl; split; intros Hw;
    try discriminate Hw;
    try (first [ reflexivity
               | assumption
               | apply W1; first [assumption|discriminate|congruence] ]; fail);
    apply in_events_snoc;
    first [ left; apply W2; first [assumption|reflexivity]
          | right; simpl; auto ].
Qed.

(** Once [ctx] is cancelled or [shutdownCh] is closed, the [select] of
    the loop no longer takes [default]: only a loop that is already past
    its [select] can still call [Accept], once, and dispatch what that
    call returns. *)
Lemma step_after_signal s a s' ev :
  ctxDone (sync s) || shutdownCh (sync s) = true ->
  step s a = Some (s', ev) ->
  (ctxDone (sync s) = true -> ctxDone (sync s') = true)
  /\ (shutdownCh (sync s) = true -> shutdownCh (sync s') = true)
  /\ (List.length (filter isAccept ev) + pendingCall s' <= pendingCall s)%nat
  /\ (List.length (filter isDispatch ev) + pendingAccept s'
      <= pendingAccept s)%nat.
Proof.
  intros Hsig H. unfold pendingCall, pendingAccept.
  step_cases H; simpl;
    try (rewrite Hsig in *; discriminate);
    try match goal with
        | Hl : lpc (loopG s) = _ |- _ => rewrite Hl
        end;
    (split; [auto|]); (split; [auto|]);
    try match goal with
        | Hi : acceptIteration _ _ = _ |- _ =>
            let Hf := fresh "Hf" in
            let Hd := fresh "Hd" in
            pose proof (proj1 (acceptIteration_events _ _ _ _ Hi)) as Hf;
            pose proof (proj2 (acceptIteration_events _ _ _ _ Hi)) as Hd;
            simpl in Hd; rewrite ?filter_app, ?length_app;
            try match type of Hd with
                | _ /\ _ => destruct Hd as [_ [Hd _]]
                end;
            rewrite Hd;
            rewrite (filter_none isAccept _ _ Hf)
              by (intros [] Hx; try discriminate Hx; reflexivity);
            simpl; lia
        end;
    try (replace (filter isAccept _) with (@nil Event) by
            (symmetry; no_such_event));
    try (replace (filter isDispatch _) with (@nil Event) by
            (symmetry; no_such_event));
    simpl; try lia;
    try match goal with
        | r : option error |- _ => destruct r; simpl; lia
        end.
Qed.

Lemma reach_after_signal s tr s' :
  reach s tr s' ->
  ctxDone (sync s) || shutdownCh (sync s) = true ->
  (ctxDone (sync s) = true -> ctxDone (sync s') = true)
  /\ (shutdownCh (sync s) = true -> shutdownCh (sync s') = true)
  /\ (acceptCalls tr + pendingCall s' <= pendingCall s)%nat
  /\ (dispatches tr + pendingAccept s' <= pendingAccept s)%nat.
Proof.
  intros Hr Hsig.
  induction Hr as [|tr s1 a s2 ev Hr [IH1 [IH2 [IH3 IH4]]] Hs].
  - unfold acceptCalls, dispatches. simpl. auto.
  - assert (Hsig1 : ctxDone (sync s1) || shutdownCh (sync s1) = true).
    { apply orb_true_iff in Hsig. apply orb_true_iff.
      destruct Hsig; [left|right]; auto. }
    destruct (step_after_signal _ _ _ _ Hsig1 Hs) as [H1 [H2 [H3 H4]]].
    unfold acceptCalls, dispatches in *.
    rewrite events_app, events_stamp, !filter_app, !length_app.
    repeat split; auto; lia.
Qed.

Lemma reach_sessionInv s0 tr s :
  reach s0 tr s -> sessionInv [] s0 -> sessionInv tr s.
Proof.
  intros Hr H0. induction Hr as [|tr s a s' ev Hr IH Hs]; [exact H0|].
  destruct (IH) as [I1 [I2 [I3 [I4 I5]]]].
  repeat split.
  - eapply step_tasksWf; eauto.
  - eapply step_tasksWf; eauto.
  - eapply step_tasksWf; eauto.
  - eapply step_signalled; eauto.
  - eapply step_tasksLogged; eauto.
  - eapply step_tasksLogged; eauto.
  - eapply step_tasksLogged; eauto.
  - eapply step_graceTimed; eauto.
  - eapply step_waitLogged; eauto.
  - eapply step_waitLogged; eauto.
Qed.

Lemma initial_sessionInv env t0 s0 : initial env t0 s0 -> sessionInv [] s0.
Proof.
  intros [addr [ppc [ptk [peer ->]]]].
  unfold sessionInv, tasksWf, signalled, tasksLogged, graceTimed, waitLogged.
  simpl. repeat split; try tauto; try constructor;
    try discriminate; try contradiction.
Qed.

End AfterShutdown.

(* ================================================================== *)
(** * The claim about shutdown *)

(** C6, as stated, fails.  The accept loop is inside [Accept] when the
    caller cancels; [Listen] closes [shutdownCh] and starts its grace wait
    while the loop is still there; the wait group is empty, so [waitCh] is
    closed; [Accept] then returns a connection, which is handshaken and
    dispatched after the shutdown signal; [Listen] returns at once, at
    time 0, with that connection's task in flight and the loop not yet
    out of its [for]. *)
Lemma connection_accepted_after_shutdown :
  exists s,
    Listen okListenEnv connectedGateway 0 lateAccept
    = Some (setupTrace ++
            stamp 0 [EvAccept;
                     LogInfo "Shutting down gateway..."; EvCloseShutdownCh;
                     EvCloseWaitCh;
                     EvConnSetDeadline 0%nat (Some (10 * Second));
                     EvHandshake 0%nat; EvConnSetDeadline 0%nat None;
                     EvDispatch 0%nat;
                     EvAllocClose; EvClientClose; EvListenReturn None],
            inr s)
    /\ mpc (mainG s) = MReturned
    /\ tasks s = [mkTask 0%nat true true]
    /\ lpc (loopG s) = LTop
    /\ now s = 0.
Proof.
  eexists. split; [vm_compute; reflexivity|]. repeat split.
Qed.

(** C6, amended.  In a session whose goroutines have started:
    - [Listen] is past its first [select] only with [shutdownCh] closed:
      the stop signal is given before the grace wait begins;
    - once [shutdownCh] is closed the [select] of the accept loop no
      longer takes [default]: at the head of its [for] the loop can only
      leave.  A loop that was past its [select] when the signal was given
      still makes the call of [Accept] it was about to make, so at most
      one further call of [Accept] starts, and at most one connection, the
      one that call or the call in progress returns, is still dispatched;
    - [Listen] returns only when [waitCh] has been closed or 5 seconds
      after it closed [shutdownCh]; [waitCh] is closed only after the
      signal and when every connection dispatched so far has been handled;
    - once [shutdownCh] is closed, every dispatched connection either has
      been closed or has a watcher that is ready to close it. *)
Theorem shutdown_amended
    (env : ListenEnv) (g : Gateway) (t0 : Z) (acts : list Action)
    (tr : trace) (s : State) :
  Listen env g t0 acts = Some (tr, inr s) ->
  (mpc (mainG s) <> MSelect -> shutdownCh (sync s) = true)
  /\ (shutdownCh (sync s) = true ->
      forall acts' s' tr',
        run s acts' = Some (s', tr') ->
        shutdownCh (sync s') = true
        /\ (acceptCalls tr' <= pendingCall s)%nat
        /\ (dispatches tr' <= pendingAccept s)%nat)
  /\ (crashed s = false ->
      shutdownCh (sync s) = true ->
      lpc (loopG s) = LTop ->
      step s (LoopSelect LoopDefault) = None
      /\ exists s' ev,
           step s (LoopSelect LoopShutdown) = Some (s', ev)
           /\ lpc (loopG s') = LExited)
  /\ (forall c s' ev,
        step s (MainGrace c) = Some (s', ev) ->
        mpc (mainG s') = MReturned
        /\ ((c = CaseWaitCh /\ In EvCloseWaitCh (events tr))
            \/ (c = CaseTimeAfter
                /\ exists t1, In (t1, EvCloseShutdownCh) tr
                              /\ t1 + 5 * Second <= now s)))
  /\ (forall s' ev,
        step s WaitReturns = Some (s', ev) ->
        shutdownCh (sync s) = true
        /\ forall c, In (EvDispatch c) (events tr) -> In (EvHandled c) (events tr))
  /\ (crashed s = false ->
      shutdownCh (sync s) = true ->
      forall c, In (EvDispatch c) (events tr) ->
                In (EvConnClose c) (events tr)
                \/ exists s', step s (Watcher c WatchShutdown)
                              = Some (s', [EvConnClose c])).
Proof.
  intros H.
  destruct (Listen_running _ _ _ _ _ _ H)
    as [ev0 [s0 [tr' [Hi [_ [Hev [Hr ->]]]]]]].
  pose proof (reach_sessionInv _ _ _ Hr (initial_sessionInv _ _ _ Hi))
    as [[Hnd [Hlt Hwg]] [Hsig [[T1 [T2 T3]] [Hg [W1 W2]]]]].
  assert (Hweak : forall e, In e (events tr') ->
                            In e (events (stamp t0 ev0 ++ tr'))).
  { intros e He. rewrite events_app. apply in_or_app. auto. }
  assert (Hdisp : forall c, In (EvDispatch c) (events (stamp t0 ev0 ++ tr')) ->
                            In (EvDispatch c) (events tr')).
  { intros c Hc. rewrite events_app, events_stamp in Hc.
    apply in_app_or in Hc. destruct Hc as [Hc|Hc]; [|assumption].
    exfalso. rewrite Forall_forall in Hev. specialize (Hev _ Hc).
    discriminate Hev. }
  split; [|split; [|split; [|split; [|split]]]].
  - intros Hm. unfold signalled in Hsig.
    destruct (mpc (mainG s)); [contradiction|assumption|assumption].
  - intros Hsh acts' s' tr1 Hrun. apply run_reach in Hrun.
    destruct (reach_after_signal _ _ _ Hrun) as [_ [H1 [H2 H3]]];
      [rewrite Hsh; apply orb_true_r|].
    split; [auto|]. split; lia.
  - intros Hc Hsh Hl. unfold step, loopSelect. rewrite Hc, Hl, Hsh, orb_true_r.
    split; [reflexivity|]. do 2 eexists. split; reflexivity.
  - intros c s' ev Hstep. pose proof (step_main _ _ _ _ Hstep) as Hm.
    destruct Hm as [[d Hd] [Hret _]]. split; [assumption|].
    unfold step, mainGrace in Hstep.
    destruct (crashed s); [discriminate|]. rewrite Hd in Hstep.
    destruct c.
    + left. split; [reflexivity|]. apply Hweak, W2.
      destruct (waitCh (sync s)); try discriminate. reflexivity.
    + right. split; [reflexivity|].
      destruct (d <=? now s) eqn:Hle; [|discriminate].
      apply Z.leb_le in Hle.
      destruct (Hg d Hd) as [t1 [Hin Heq]]. exists t1.
      split; [apply in_or_app; auto|lia].
  - intros s' ev Hstep. unfold step, waitReturns in Hstep.
    destruct (crashed s); [discriminate|].
    destruct (waitCh (sync s)) eqn:Hw; try discriminate.
    destruct (wg (sync s)) eqn:Hz; [|discriminate].
    split; [apply W1; discriminate|].
    intros c Hc. apply Hdisp in Hc. destruct (T1 c Hc) as [t [Hin Hid]].
    apply Hweak. rewrite <- Hid. apply T2; [assumption|].
    unfold inFlight in Hwg.
    destruct (handling t) eqn:Hh; [|reflexivity].
    assert (Hf : In t (filter handling (tasks s)))
      by (apply filter_In; auto).
    destruct (filter handling (tasks s)); [contradiction|discriminate].
  - intros Hc Hsh c Hin. apply Hdisp in Hin.
    destruct (T1 c Hin) as [t [Hint Hid]].
    destruct (watching t) eqn:Hw.
    + right. unfold step, watcher. rewrite Hc, Hsh.
      assert (Hex : existsb (fun t => isTask c t && watching t) (tasks s) = true).
      { apply existsb_exists. exists t. split; [assumption|].
        unfold isTask. rewrite Hid, Nat.eqb_refl, Hw. reflexivity. }
      rewrite Hex. simpl. eauto.
    + left. apply Hweak. rewrite <- Hid. apply T3; assumption.
Qed.

(* ================================================================== *)
(** * The heart beat task *)

Section HeartBeat.

Lemma heartBeats_app tr1 tr2 :
  heartBeats (tr1 ++ tr2) = heartBeats tr1 ++ heartBeats tr2.
Proof. unfold heartBeats. rewrite filter_app, map_app. reflexivity. Qed.

Lemma heartBeats_stamp t ev :
  heartBeats (stamp t ev) = map (fun _ => t) (filter isHeartBeat ev).
Proof.
  unfold heartBeats, stamp. induction ev as [|e ev IH]; simpl; [reflexivity|].
  destruct (isHeartBeat e); simpl; rewrite IH; reflexivity.
Qed.

Lemma tickerAdvance_hour now' tk :
  tkPeriod tk = 1 * Hour ->
  tkPeriod (tickerAdvance now' tk) = 1 * Hour
  /\ ((tkStopped tk = true \/ now' < tkNext tk) -> tickerAdvance now' tk = tk)
  /\ (tkStopped tk = false -> tkNext tk <= now' ->
      tkPending (tickerAdvance now' tk) = true
      /\ tkNext tk <= tkNext (tickerAdvance now' tk) - Hour
      /\ tkNext (tickerAdvance now' tk) - Hour <= now').
Proof.
  intros Hp. unfold tickerAdvance.
  destruct (tkStopped tk) eqn:Hs.
  - repeat split; auto; discriminate.
  - destruct (tkNext tk <=? now') eqn:Hle.
    + apply Z.leb_le in Hle. simpl. rewrite Hp.
      assert (Hpos : 0 < 1 * Hour) by (unfold Hour, Minute, Second; lia).
      pose proof (Z.mul_div_le (now' - tkNext tk) (1 * Hour) Hpos) as Hd.
      pose proof (Z.div_pos (now' - tkNext tk) (1 * Hour)) as Hq.
      assert (0 <= (now' - tkNext tk) / (1 * Hour)) by (apply Hq; lia).
      repeat split; auto.
      * intros [Hc|Hc]; [discriminate|lia].
      * nia.
      * nia.
    + apply Z.leb_gt in Hle. repeat split; auto; intros; lia.
Qed.

(** What a step does to the heart beat task and to the clock. *)
Lemma step_heartBeat s a s' ev :
  step s a = Some (s', ev) ->
  match a with
  | Advance d =>
      0 <= d /\ now s' = now s + d /\ hb (life s') = hb (life s)
      /\ hbTicker (life s') = tickerAdvance (now s + d) (hbTicker (life s))
      /\ filter isHeartBeat ev = []
  | HeartBeatFirst r =>
      (exists w, hb (life s) = HSleep w /\ w <= now s)
      /\ hb (life s') = HLoop
      /\ hbTicker (life s') = hbTicker (life s) /\ now s' = now s
      /\ filter isHeartBeat ev = [EvHeartBeat]
  | HeartBeatSelect CaseTick r =>
      hb (life s) = HLoop /\ tkPending (hbTicker (life s)) = true
      /\ hb (life s') = HSend r
      /\ hbTicker (life s') = tickerTake (hbTicker (life s)) /\ now s' = now s
      /\ filter isHeartBeat ev = [EvHeartBeat]
  | HeartBeatSelect CaseDone r =>
      hb (life s) = HLoop /\ hb (life s') = HStopped
      /\ hbTicker (life s') = tickerStop (hbTicker (life s)) /\ now s' = now s
      /\ filter isHeartBeat ev = []
  | HeartBeatSend =>
      (exists e, hb (life s) = HSend e) /\ hb (life s') = HLoop
      /\ hbTicker (life s') = hbTicker (life s) /\ now s' = now s
      /\ filter isHeartBeat ev = []
  | _ =>
      hb (life s') = hb (life s)
      /\ hbTicker (life s') = hbTicker (life s) /\ now s' = now s
      /\ filter isHeartBeat ev = []
  end.
Proof.
  intros H. step_cases H; simpl; repeat split; eauto; try no_such_event.
  all: try lia.
  all: eexists; split; [reflexivity|]; apply Z.leb_le; assumption.
Qed.

Lemma nth_error_snoc (l : list Z) (x : Z) (k : nat) (t : Z) :
  nth_error (l ++ [x]) k = Some t ->
  nth_error l k = Some t \/ (k = List.length l /\ t = x).
Proof.
  intros H. destruct (Nat.lt_ge_cases k (List.length l)) as [Hlt|Hge].
  - rewrite nth_error_app1 in H by assumption. auto.
  - rewrite nth_error_app2 in H by assumption. right.
    destruct (k - List.length l)%nat as [|j] eqn:Hk; simpl in H.
    + inversion H. split; [lia|reflexivity].
    + destruct j; discriminate.
Qed.

Lemma step_heartBeatTimed t0 tr s a s' ev :
  heartBeatTimed t0 tr s ->
  step s a = Some (s', ev) ->
  heartBeatTimed t0 (tr ++ stamp (now s) ev) s'.
Proof.
  unfold heartBeatTimed.
  intros [B1 [B2 [B3 [B4 [B5 B6]]]]] H.
  pose proof (step_heartBeat _ _ _ _ H) as Hs.
  rewrite heartBeats_app, heartBeats_stamp.
  destruct a as [ |d|c|c|c| |r|c|c w| |r|c r| | |c| |c r| ];
    try (destruct Hs as [Hh [Ht [Hn Hf]]]; rewrite Hh, Ht, Hn, Hf;
         cbn [map]; rewrite app_nil_r;
         exact (conj B1 (conj B2 (conj B3 (conj B4 (conj B5 B6))))); fail).
  - (* Advance *)
    destruct Hs as [Hd [Hn [Hh [Ht Hf]]]]. rewrite Hh, Ht, Hn, Hf.
    cbn [map]. rewrite app_nil_r.
    destruct (tickerAdvance_hour (now s + d) _ B4) as [A1 [A2 A3]].
    split; [assumption|]. split; [assumption|].
    split; [intros Hw; destruct (B3 Hw); split; [assumption|lia]|].
    split; [assumption|].
    destruct (tkStopped (hbTicker (life s))) eqn:Hst.
    + rewrite A2 by auto. split; [lia|assumption].
    + destruct (Z_lt_le_dec (now s + d) (tkNext (hbTicker (life s))))
        as [Hlt|Hle].
      * rewrite A2 by auto. split; [lia|assumption].
      * destruct (A3 eq_refl Hle) as [Ap [An1 An2]].
        rewrite Ap. split; [assumption|].
        unfold bit in *. destruct (tkPending (hbTicker (life s)));
          unfold Hour, Minute, Second in *; lia.
  - (* HeartBeatFirst *)
    destruct Hs as [[w [Hw Hle]] [Hh [Ht [Hn Hf]]]].
    rewrite Hh, Ht, Hn, Hf. destruct (B2 w Hw) as [-> Hz].
    assert (Hl : heartBeats tr = []).
    { destruct (heartBeats tr); [reflexivity|simpl in Hz; lia]. }
    rewrite Hl in *. cbn [map app List.length filter].
    split.
    { intros k t Hk. destruct k as [|k]; simpl in Hk;
        [inversion Hk; subst; unfold Hour, Minute, Second in *; lia
        |destruct k; discriminate]. }
    split; [discriminate|]. split; [intros _; lia|].
    split; [assumption|]. split; [assumption|].
    simpl in B6. exact B6.
  - (* HeartBeatSelect *)
    destruct c.
    + destruct Hs as [Hl [Hh [Ht [Hn Hf]]]]. rewrite Hh, Ht, Hn, Hf.
      cbn [map tickerStop tkPeriod tkNext tkPending]. rewrite app_nil_r.
      split; [assumption|]. split; [discriminate|].
      split; [intros _; apply B3; intros w; congruence|].
      repeat split; assumption.
    + destruct Hs as [Hl [Hp [Hh [Ht [Hn Hf]]]]]. rewrite Hh, Ht, Hn, Hf.
      assert (Hl1 : 1 <= Z.of_nat (List.length (heartBeats tr))
                    /\ t0 + 10 * Second <= now s)
        by (apply B3; intros w; congruence).
      rewrite Hp in B6.
      cbn [map tickerTake tkPeriod tkNext tkPending].
      rewrite length_app. cbn [List.length].
      split.
      { intros k t Hk. apply nth_error_snoc in Hk.
        destruct Hk as [Hk|[-> ->]]; [auto|].
        unfold bit in B6. split; [lia|].
        unfold Hour, Minute, Second in *; lia. }
      split; [discriminate|]. split; [intros _; lia|].
      split; [assumption|]. split; [assumption|].
      unfold bit in *. unfold Hour, Minute, Second in *. lia.
  - (* HeartBeatSend *)
    destruct Hs as [[e He] [Hh [Ht [Hn Hf]]]]. rewrite Hh, Ht, Hn, Hf.
    cbn [map]. rewrite app_nil_r.
    split; [assumption|]. split; [discriminate|].
    split; [intros _; apply B3; intros w; congruence|].
    repeat split; assumption.
Qed.


End HeartBeat.

Section HeartBeatRuns.

Lemma reach_heartBeatTimed t0 s0 tr s :
  reach s0 tr s -> heartBeatTimed t0 [] s0 -> heartBeatTimed t0 tr s.
Proof.
  intros Hr H0. induction Hr as [|tr s a s' ev Hr IH Hs]; [exact H0|].
  eapply step_heartBeatTimed; eauto.
Qed.

Lemma initial_heartBeatTimed env t0 s0 :
  initial env t0 s0 -> heartBeatTimed t0 [] s0.
Proof.
  intros [addr [ppc [ptk [peer ->]]]]. unfold heartBeatTimed. simpl.
  split; [intros [|k] t Hk; discriminate Hk|].
  split; [intros w Hw; inversion Hw; auto|].
  split; [intros Hn; exfalso; exact (Hn _ eq_refl)|].
  unfold Hour, Minute, Second. repeat split; lia.
Qed.

Lemma heartBeats_setup t0 ev tr :
  Forall (fun e => isSetup e = true) ev ->
  heartBeats (stamp t0 ev ++ tr) = heartBeats tr.
Proof.
  intros Hev. rewrite heartBeats_app, heartBeats_stamp.
  rewrite (filter_none isHeartBeat _ _ Hev); [reflexivity|].
  intros [] Hx; try discriminate Hx; reflexivity.
Qed.

(** Five seconds into the grace wait [Listen] can return, and returns the
    error it holds. *)
Lemma grace_timeout_returns s d :
  crashed s = false ->
  mpc (mainG s) = MGrace d ->
  d <= now s + 5 * Second ->
  exists s' tr',
    run s [Advance (5 * Second); MainGrace CaseTimeAfter] = Some (s', tr')
    /\ returned (inr s') = Some (merr (mainG s)).
Proof.
  intros Hc Hm Hd.
  unfold run, step. rewrite Hc. unfold advance.
  change (5 * Second <? 0) with false. cbn [crashed setNow setLife].
  rewrite Hc. unfold mainGrace. cbn [mainG setNow setLife now]. rewrite Hm.
  apply Z.leb_le in Hd. rewrite Hd.
  do 2 eexists. split; [reflexivity|]. reflexivity.
Qed.

(** An interval heart beat that fails, step by step. *)
Lemma interval_failure_runs s err :
  crashed s = false ->
  hb (life s) = HLoop ->
  tkPending (hbTicker (life s)) = true ->
  errCh (sync s) = None ->
  mpc (mainG s) = MSelect ->
  exists s',
    run s [HeartBeatSelect CaseTick (Some err); HeartBeatSend;
           MainSelect CaseErrCh]
    = Some (s', stamp (now s) [LogInfo "Registering heart beat"; EvHeartBeat;
                               EvErrChSend (Some err); EvCloseShutdownCh])
    /\ shutdownCh (sync s') = true
    /\ merr (mainG s') = Some err
    /\ mpc (mainG s') = MGrace (now s + 5 * Second)
    /\ crashed s' = false
    /\ now s' = now s.
Proof.
  intros Hc Hh Hp He Hm.
  unfold run, step. rewrite Hc. unfold heartBeatSelect. rewrite Hh, Hp.
  cbn [crashed setLife]. rewrite Hc.
  unfold heartBeatSend. cbn [life setLife hb setHb sync errCh]. rewrite He.
  cbn [crashed setLife setSync]. rewrite Hc.
  unfold mainSelect. cbn [mainG setLife setSync]. rewrite Hm.
  cbn [sync setLife setSync errCh setErrCh].
  eexists. split; [reflexivity|]. repeat split. exact Hc.
Qed.

End HeartBeatRuns.

(* ================================================================== *)
(** * The claim about the heart beat *)

(** C3, as stated, fails.  The first heart beat, ten seconds after the
    start, fails: the error is logged and nothing is sent to [errCh]; the
    task is back in its loop and [Listen] stays in its [select]. *)
Lemma first_heart_beat_failure_is_not_sent :
  exists s,
    Listen okListenEnv connectedGateway 0
           [Advance (10 * Second); HeartBeatFirst (Some connRefused)]
    = Some (setupTrace ++
            stamp (10 * Second)
              [LogInfo "Registering first heart beat"; EvHeartBeat;
               LogError "Failed to register heartbeat: connect: connection refused"],
            inr s)
    /\ errCh (sync s) = None
    /\ hb (life s) = HLoop
    /\ shutdownCh (sync s) = false
    /\ step s HeartBeatSend = None
    /\ step s (MainSelect CaseErrCh) = None.
Proof.
  eexists. split; [vm_compute; reflexivity|]. repeat split.
Qed.

(** The other half of the condition fails too: the result of an interval
    heart beat is sent to [errCh] whatever it is, so a heart beat that
    succeeds sends a nil error, and [Listen], which shuts down on anything
    it receives, shuts down and returns nil. *)
Lemma interval_heart_beat_success_sends_nil :
  exists s,
    Listen okListenEnv connectedGateway 0
           [Advance (10 * Second); HeartBeatFirst None; Advance (1 * Hour);
            HeartBeatSelect CaseTick None; HeartBeatSend; MainSelect CaseErrCh]
    = Some (setupTrace ++
            stamp (10 * Second) [LogInfo "Registering first heart beat"; EvHeartBeat]
            ++ stamp (10 * Second + 1 * Hour)
                 [LogInfo "Registering heart beat"; EvHeartBeat;
                  EvErrChSend None; EvCloseShutdownCh],
            inr s)
    /\ shutdownCh (sync s) = true
    /\ merr (mainG s) = None.
Proof.
  eexists. split; [vm_compute; reflexivity|]. repeat split.
Qed.

(* ================================================================== *)
(** * The claim about the identity check, and examples of the others *)

(** C1.  A peer whose handshake completes presents a leaf certificate
    with CommonName ["cloud"] and no OrganizationalUnit.  The connection is
    not closed and no mismatch is logged: after the handshake the accept
    loop panics on [organizationUnit[0]], and with it the whole process,
    which makes no further step. *)
Theorem empty_OrganizationalUnit_is_not_closed_nor_logged :
  exists s,
    Listen okListenEnv connectedGateway 0
           [LoopSelect LoopDefault; LoopAccept;
            LoopAccepted (Ok (TLSConn None [noUnitCert]))]
    = Some (setupTrace ++
            stamp 0 [EvAccept;
                     EvConnSetDeadline 0%nat (Some (10 * Second));
                     EvHandshake 0%nat; EvConnSetDeadline 0%nat None;
                     EvPanic index_out_of_range],
            inr s)
    /\ crashed s = true
    /\ tasks s = []
    /\ forall a, step s a = None.
Proof.
  eexists. split; [vm_compute; reflexivity|]. repeat split.
Qed.

(** Evaluates a concrete session [H : Listen ... = Some (tr, res)], keeping
    [H] as it is. *)
Ltac evaluate_session H :=
  let H' := fresh H in
  pose proof H as H'; vm_compute in H'; inversion H'; subst; clear H'.

Lemma allocation_closed_exactly_once_witness :
  exists tr res,
    Listen okListenEnv connectedGateway 0 drainedSession = Some (tr, res)
    /\ returned res = Some None
    /\ (allocCloses tr <= 1)%nat
    /\ allocCloses tr = 1%nat.
Proof.
  destruct (Listen okListenEnv connectedGateway 0 drainedSession)
    as [[tr res]|] eqn:HL; [|vm_compute in HL; discriminate HL].
  exists tr, res. split; [reflexivity|].
  pose proof (allocation_closed_exactly_once _ _ _ _ _ _ HL) as H.
  assert (Hres : returned res = Some None) by (evaluate_session HL; reflexivity).
  split; [exact Hres|].
  split; [exact (proj1 H)|exact (proj2 H None Hres)].
Defined.

Lemma accept_deadline_is_never_set_witness :
  exists tr res,
    Listen okListenEnv connectedGateway 0 drainedSession = Some (tr, res)
    /\ In (0, EvAccept) tr
    /\ forall t d, ~ In (t, EvSetAcceptDeadline d) tr.
Proof.
  destruct (Listen okListenEnv connectedGateway 0 drainedSession)
    as [[tr res]|] eqn:HL; [|vm_compute in HL; discriminate HL].
  exists tr, res. split; [reflexivity|].
  split; [evaluate_session HL; simpl; tauto|].
  exact (accept_deadline_is_never_set _ _ _ _ _ _ HL).
Defined.

Lemma shutdown_amended_witness :
  exists tr s,
    Listen okListenEnv connectedGateway 0 lateAccept = Some (tr, inr s)
    /\ shutdownCh (sync s) = true
    /\ forall c, In (EvDispatch c) (events tr) ->
                 In (EvConnClose c) (events tr)
                 \/ exists s', step s (Watcher c WatchShutdown)
                               = Some (s', [EvConnClose c]).
Proof.
  destruct (Listen okListenEnv connectedGateway 0 lateAccept)
    as [[tr [e|s]]|] eqn:HL;
    [vm_compute in HL; discriminate HL| |vm_compute in HL; discriminate HL].
  exists tr, s. split; [reflexivity|].
  assert (Hs : crashed s = false /\ shutdownCh (sync s) = true)
    by (evaluate_session HL; split; reflexivity).
  split; [exact (proj2 Hs)|].
  exact (proj2 (proj2 (proj2 (proj2 (proj2 (shutdown_amended _ _ _ _ _ _ HL)))))
           (proj1 Hs) (proj2 Hs)).
Defined.

(* ================================================================== *)
(** * Further properties of ConnectWithRelay *)

Lemma Contains_port_suffix s : Contains (s ++ ":0") ":" = true.
Proof.
  induction s as [|c s IH]; [reflexivity|].
  cbn [String.append Contains]. rewrite IH.
  destruct (prefix ":" (String c (s ++ ":0"))); reflexivity.
Qed.

(** X1.  When the control plane registers the gateway with a relay
    address that holds no colon (no port, or the empty string),
    [ConnectWithRelay] does not return an error: reading the port,
    element 1 of the split address, panics. *)
Theorem ConnectWithRelay_address_without_colon_panics
    (env : RelayEnv) (g : Gateway) (d : RelayDetails) :
  CallRegisterGatewayIdentityV1 env = Ok d ->
  hasColon (rdTurnServerAddress d) = false ->
  ConnectWithRelay env g = Panic index_out_of_range.
Proof.
  intros Hreg Hc. unfold ConnectWithRelay.
  rewrite Hreg, (Split_noColon _ Hc). reflexivity.
Qed.

Lemma ConnectWithRelay_address_without_colon_panics_witness :
  ConnectWithRelay (mkEnv "relay.example" None None None None) NewGateway
  = Panic index_out_of_range.
Proof.
  apply (@ConnectWithRelay_address_without_colon_panics
           (mkEnv "relay.example" None None None None) NewGateway
           (mkRelayDetails "user" "pass" "realm" "relay.example" ""));
    reflexivity.
Defined.

(** Case analysis on a run of [ConnectWithRelay] that returns. *)
Ltac connect_cases H :=
  unfold ConnectWithRelay, out_bind, at_index in H;
  repeat (cbv beta iota in H;
          match type of H with
          | context [CallRegisterGatewayIdentityV1 ?e] =>
              destruct (CallRegisterGatewayIdentityV1 e) eqn:?
          | context [nth_error ?l ?i] => destruct (nth_error l i) eqn:?
          | context [String.eqb ?a "5349"] =>
              destruct (String.eqb a "5349") eqn:?
          | context [tls_Dial ?e ?a ?b] => destruct (tls_Dial e a b) eqn:?
          | context [net_ResolveTCPAddr ?e ?a] =>
              destruct (net_ResolveTCPAddr e a) eqn:?
          | context [net_DialTCP ?e ?a] => destruct (net_DialTCP e a) eqn:?
          | context [turn_NewClient ?e ?c] =>
              destruct (turn_NewClient e c) eqn:?
          end);
  cbv beta iota in H;
  try discriminate H; inversion H; subst; clear H.

(** X2.  [ConnectWithRelay] changes the gateway only when it returns nil.
    On an error the gateway is exactly as it was.  On success the client
    was built for the registered address (as STUN and as TURN server) and
    credentials, and the configuration is replaced as a whole: it holds
    the registered credentials and address, and its certificate fields
    are empty again. *)
Theorem ConnectWithRelay_gateway_changes_only_on_success
    (env : RelayEnv) (g g' : Gateway) (tr : list Event) (e : option error) :
  ConnectWithRelay env g = Return (g', tr, e) ->
  match e with
  | Some _ => g' = g
  | None =>
      exists d cfg,
        CallRegisterGatewayIdentityV1 env = Ok d
        /\ client g' = Some cfg
        /\ In (EvNewClient cfg) tr
        /\ STUNServerAddr cfg = rdTurnServerAddress d
        /\ TURNServerAddr cfg = rdTurnServerAddress d
        /\ Username cfg = rdTurnServerUsername d
        /\ Password cfg = rdTurnServerPassword d
        /\ Realm cfg = rdTurnServerRealm d
        /\ TurnServerUsername (config g') = rdTurnServerUsername d
        /\ TurnServerPassword (config g') = rdTurnServerPassword d
        /\ TurnServerAddress (config g') = rdTurnServerAddress d
        /\ SerialNumber (config g') = ""
        /\ PrivateKey (config g') = ""
        /\ Certificate (config g') = ""
        /\ CertificateChain (config g') = ""
  end.
Proof.
  intros H. connect_cases H; try reflexivity;
    (do 2 eexists; split; [reflexivity|];
     repeat split; try reflexivity;
     try (simpl; auto 10; fail);
     cbn; match goal with
          | |- context [if ?b then _ else _] => destruct b
          end; reflexivity).
Qed.

Lemma ConnectWithRelay_gateway_changes_only_on_success_witness :
  exists g' tr,
    ConnectWithRelay (mkEnv "relay.example:5349" (Some connRefused) None None None)
                     connectedGateway
    = Return (g', tr, Some (Errorf_w "Failed to connect with relay server"
                                     connRefused))
    /\ g' = connectedGateway.
Proof.
  do 2 eexists. split; [vm_compute; reflexivity|].
  exact (@ConnectWithRelay_gateway_changes_only_on_success
           (mkEnv "relay.example:5349" (Some connRefused) None None None)
           connectedGateway _ _ (Some _) eq_refl).
Defined.

(** X3.  After a successful [ConnectWithRelay] the static address kept
    in the configuration is the registered one made ready for
    [net.ResolveTCPAddr]: empty exactly when the registered one is empty,
    unchanged when it already holds a colon, and followed by [":0"] (any
    port) otherwise; so a static address that is not empty always holds a
    colon. *)
Theorem ConnectWithRelay_static_address_has_a_port
    (env : RelayEnv) (g g' : Gateway) (tr : list Event) (d : RelayDetails) :
  CallRegisterGatewayIdentityV1 env = Ok d ->
  ConnectWithRelay env g = Return (g', tr, None) ->
  let ip := rdInfisicalStaticIp d in
  let ip' := InfisicalStaticIp (config g') in
  (ip = "" -> ip' = "")
  /\ (Contains ip ":" = true -> ip' = ip)
  /\ (ip <> "" -> Contains ip ":" = false -> ip' = (ip ++ ":0")%string)
  /\ (ip' <> "" -> Contains ip' ":" = true)
  /\ (ip' = "" -> ip = "").
Proof.
  intros Hreg H.
  assert (Hip : InfisicalStaticIp (config g')
                = if negb (String.eqb (rdInfisicalStaticIp d) "")
                     && negb (Contains (rdInfisicalStaticIp d) ":")
                  then (rdInfisicalStaticIp d ++ ":0")%string
                  else rdInfisicalStaticIp d).
  { connect_cases H; try congruence;
      inversion Hreg; subst; cbn;
      match goal with
      | |- context [if ?b then _ else _] => destruct b
      end; reflexivity. }
  cbn zeta. rewrite Hip. clear Hip.
  destruct (String.eqb_spec (rdInfisicalStaticIp d) "") as [He|Hne];
    destruct (Contains (rdInfisicalStaticIp d) ":") eqn:Hc;
    cbn [negb andb]; repeat split; intros; try congruence.
  - apply Contains_port_suffix.
  - destruct (rdInfisicalStaticIp d); [congruence|discriminate].
Qed.

Lemma ConnectWithRelay_static_address_has_a_port_witness :
  exists g' tr,
    ConnectWithRelay
      (mkRelayEnv (Ok (mkRelayDetails "user" "pass" "realm"
                                      "relay.example:5349" "198.51.100.7"))
                  (fun _ _ => None) (fun _ => None) (fun _ => None)
                  (fun _ => None))
      NewGateway
    = Return (g', tr, None)
    /\ InfisicalStaticIp (config g') = "198.51.100.7:0".
Proof.
  do 2 eexists. split; [vm_compute; reflexivity|].
  match goal with
  | |- InfisicalStaticIp (config ?g') = _ =>
      exact (proj1 (proj2 (proj2
               (@ConnectWithRelay_static_address_has_a_port
                  (mkRelayEnv (Ok (mkRelayDetails "user" "pass" "realm"
                                     "relay.example:5349" "198.51.100.7"))
                              (fun _ _ => None) (fun _ => None) (fun _ => None)
                              (fun _ => None))
                  NewGateway g' _ _ eq_refl eq_refl)))
               ltac:(discriminate) eq_refl)
  end.
Defined.

(** X4.  One call of [ConnectWithRelay] dials the relay at most once, by
    TLS or by TCP and never by both, and builds at most one TURN client,
    and none without having dialled: there is no second attempt. *)
Theorem ConnectWithRelay_dials_at_most_once
    (env : RelayEnv) (g g' : Gateway) (tr : list Event) (e : option error) :
  ConnectWithRelay env g = Return (g', tr, e) ->
  (List.length (filter isDial tr) <= 1)%nat
  /\ (List.length (filter isNewClient tr) <= 1)%nat
  /\ (filter isNewClient tr <> [] -> filter isDial tr <> [])
  /\ selectsTLS tr && selectsTCP tr = false.
Proof.
  intros H. connect_cases H; cbn;
    (split; [lia|]); (split; [lia|]); (split; [|reflexivity]);
    first [ intros _; discriminate
          | intros Hx; exfalso; apply Hx; reflexivity ].
Qed.

Lemma ConnectWithRelay_dials_at_most_once_witness :
  exists g' tr e,
    ConnectWithRelay (mkEnv "relay.example:3478" None None None None) NewGateway
    = Return (g', tr, e)
    /\ List.length (filter isDial tr) = 1%nat
    /\ (List.length (filter isDial tr) <= 1)%nat.
Proof.
  do 3 eexists. split; [vm_compute; reflexivity|]. split; [reflexivity|].
  exact (proj1 (@ConnectWithRelay_dials_at_most_once
                  (mkEnv "relay.example:3478" None None None None) NewGateway
                  _ _ _ eq_refl)).
Defined.

(** X5.  Every error [ConnectWithRelay] returns comes from one of four
    calls: the registration (its error is returned as it is, before
    anything else happens), the TLS dial ("Failed to connect with relay
    server"), the resolution of the address on the TCP branch ("Failed to
    parse turn server address", and then no dial is made), or the
    construction of the TURN client ("Failed to create relay client").
    With the first three no TURN client is built.  No returned error
    wraps an error of [net.DialTCP]. *)
Theorem ConnectWithRelay_error_comes_from
    (env : RelayEnv) (g g' : Gateway) (tr : list Event) (e : error) :
  ConnectWithRelay env g = Return (g', tr, Some e) ->
  (CallRegisterGatewayIdentityV1 env = Err e /\ tr = [])
  \/ (exists d,
        CallRegisterGatewayIdentityV1 env = Ok d /\
        let addr := rdTurnServerAddress d in
        (exists host e0,
            tls_Dial env addr host = Some e0
            /\ e = Errorf_w "Failed to connect with relay server" e0
            /\ In (EvTLSDial addr host) tr
            /\ filter isNewClient tr = [])
        \/ (exists e0,
               net_ResolveTCPAddr env addr = Some e0
               /\ e = Errorf_w "Failed to parse turn server address" e0
               /\ filter isDial tr = []
               /\ filter isNewClient tr = [])
        \/ (exists cfg e0,
               turn_NewClient env cfg = Some e0
               /\ e = Errorf_w "Failed to create relay client" e0
               /\ In (EvNewClient cfg) tr)).
Proof.
  intros H. connect_cases H.
  all: try (left; split; reflexivity).
  all: right; eexists; (split; [reflexivity|]); cbn zeta.
  all: first
         [ solve [ left; do 2 eexists; split; [eassumption|];
                   split; [reflexivity|]; split; [simpl; auto 10|reflexivity] ]
         | solve [ right; left; eexists; split; [eassumption|];
                   split; [reflexivity|]; split; reflexivity ]
         | solve [ right; right; do 2 eexists; split; [eassumption|];
                   split; [reflexivity|]; simpl; auto 10 ] ].
Qed.

Lemma ConnectWithRelay_error_comes_from_witness :
  exists g' tr,
    ConnectWithRelay (mkEnv "relay.example:3478" None (Some connRefused) None None)
                     NewGateway
    = Return (g', tr, Some (Errorf_w "Failed to parse turn server address"
                                     connRefused))
    /\ filter isDial tr = [].
Proof.
  do 2 eexists. split; [vm_compute; reflexivity|].
  destruct (@ConnectWithRelay_error_comes_from
              (mkEnv "relay.example:3478" None (Some connRefused) None None)
              NewGateway _ _ _ eq_refl) as [[H _]|[d [_ H]]];
    [discriminate H|].
  reflexivity.
Defined.

(* ================================================================== *)
(** * Further properties of the start and the return of Listen *)

(** X6.  [Listen] starts its accept loop, its heart beat and its relay
    probe exactly when the gateway has a client and all of these succeed:
    the client's [Listen], the TCP allocation, the certificate exchange
    for the allocated address, the resolution of the static address when
    there is one, and the parsing of the issued key pair.  The
    configuration then holds the issued serial number, key, certificate
    and chain, and keeps its relay credentials, address and static
    address.  The permission goroutine is started before the key pair is
    parsed: with a static address that resolves and a key pair that does
    not parse, [Listen] returns "failed to parse cert" and leaves that
    goroutine behind, which makes its first call at once and which
    nothing stops, since [shutdownCh] is never closed. *)
Theorem Listen_starts_iff (env : ListenEnv) (g : Gateway) (t0 : Z) :
  (forall ev cfg s0 left,
      Listen_start env g t0 = Return (ev, cfg, inr s0, left) ->
      left = None
      /\ client g <> None
      /\ client_Listen env = None
      /\ exists addr cert,
           client_AllocateTCP env = Ok addr
           /\ CallExchangeRelayCertV1 env addr = Ok cert
           /\ (InfisicalStaticIp (config g) = ""
               \/ resolveStaticIp env (InfisicalStaticIp (config g)) = None)
           /\ tls_X509KeyPair env (xCertificate cert) (xPrivateKey cert) = None
           /\ cfg = mkGatewayConfig
                      (TurnServerUsername (config g))
                      (TurnServerPassword (config g))
                      (TurnServerAddress (config g))
                      (InfisicalStaticIp (config g))
                      (xSerialNumber cert) (xPrivateKey cert)
                      (xCertificate cert) (xCertificateChain cert))
  /\ (forall addr cert,
         client g <> None ->
         client_Listen env = None ->
         client_AllocateTCP env = Ok addr ->
         CallExchangeRelayCertV1 env addr = Ok cert ->
         (InfisicalStaticIp (config g) = ""
          \/ resolveStaticIp env (InfisicalStaticIp (config g)) = None) ->
         tls_X509KeyPair env (xCertificate cert) (xPrivateKey cert) = None ->
         exists ev cfg s0,
           Listen_start env g t0 = Return (ev, cfg, inr s0, None))
  /\ (forall ev cfg res s1,
         Listen_start env g t0 = Return (ev, cfg, res, Some s1) ->
         InfisicalStaticIp (config g) <> ""
         /\ resolveStaticIp env (InfisicalStaticIp (config g)) = None
         /\ (exists cert e,
               tls_X509KeyPair env (xCertificate cert) (xPrivateKey cert) = Some e
               /\ res = inl (Some (Errorf_s "failed to parse cert" e)))
         /\ (exists s2,
               step s1 PermissionFirst
               = Some (s2, [EvCreatePermissions (InfisicalStaticIp (config g));
                            LogDebug "Created permission for incoming connections"]))
         /\ forall acts s tr,
              run s1 acts = Some (s, tr) ->
              shutdownCh (sync s) = false
              /\ perm (life s) <> PStopped
              /\ tkStopped (permTicker (life s)) = false)
  /\ (forall addr cert e,
         client g <> None ->
         client_Listen env = None ->
         client_AllocateTCP env = Ok addr ->
         CallExchangeRelayCertV1 env addr = Ok cert ->
         InfisicalStaticIp (config g) <> "" ->
         resolveStaticIp env (InfisicalStaticIp (config g)) = None ->
         tls_X509KeyPair env (xCertificate cert) (xPrivateKey cert) = Some e ->
         exists ev cfg s1,
           Listen_start env g t0
           = Return (ev, cfg, inl (Some (Errorf_s "failed to parse cert" e)),
                     Some s1)).
Proof.
  split; [|split; [|split]].
  - intros ev cfg s0 left H. listen_start_cases H;
      (split; [reflexivity|]); (split; [discriminate|]);
      (split; [reflexivity|]);
      do 2 eexists; repeat split; eauto.
  - intros addr cert Hc Hl Ha Hx Hs Hk. unfold Listen_start.
    destruct (client g); [|contradiction]. rewrite Hl, Ha, Hx. cbn [InfisicalStaticIp].
    destruct Hs as [Hs|Hs].
    + rewrite Hs. cbn [String.eqb negb]. rewrite Hk. eauto.
    + destruct (String.eqb (InfisicalStaticIp (config g)) ""); cbn [negb];
        rewrite ?Hs, Hk; eauto.
  - intros ev cfg res s1 H.
    destruct (Listen_start_left _ _ _ _ _ _ _ H)
      as [Hl [Hip [Hp [Hc [_ [_ [_ Hx]]]]]]].
    split; [exact Hip|].
    split; [clear Hl Hx; listen_start_cases H; try contradiction; assumption|].
    split; [exact Hx|].
    split.
    + unfold step, permissionFirst. rewrite Hc, Hp.
      destruct Hl as [_ [_ [_ [_ [_ [_ [_ [-> _]]]]]]]]. eauto.
    + intros acts s tr Hr. apply run_reach in Hr.
      destruct (reach_onlyPermission _ _ _ _ Hr Hl)
        as [[_ [I2 [_ [_ [_ [_ [_ [_ [I9 I10]]]]]]]]] _].
      split; [exact I2|]. split; [|exact I10].
      destruct I9 as [I9|I9]; rewrite I9; discriminate.
  - intros addr cert e Hc Hl Ha Hx Hip Hs Hk. unfold Listen_start, leftBehind.
    destruct (client g); [|contradiction]. rewrite Hl, Ha, Hx. cbn [InfisicalStaticIp].
    apply String.eqb_neq in Hip. rewrite Hip. cbn [negb]. rewrite Hs, Hk. eauto.
Qed.

Lemma Listen_starts_iff_witness :
  exists ev cfg s0,
    Listen_start okListenEnv connectedGateway 0 = Return (ev, cfg, inr s0, None).
Proof.
  apply (proj1 (proj2 (Listen_starts_iff okListenEnv connectedGateway 0))
           "203.0.113.9:41000" (mkExchange "serial" "key" "cert" "chain"));
    try reflexivity; [discriminate|left; reflexivity].
Defined.

(** X7.  When [Listen] returns before it has started its accept loop, it
    returns an error, never nil, and the error tells the step that
    failed: "Failed to listen to relay server", "Failed to allocate relay
    connection", the error of the certificate exchange as it is, "Failed
    to parse infisical static ip", or "failed to parse cert".  The
    allocation is closed on the way out exactly when it had been made. *)
Theorem Listen_early_return_error
    (env : ListenEnv) (g : Gateway) (t0 : Z)
    (ev : list Event) (cfg : GatewayConfig) (e : option error)
    (left : option State) :
  Listen_start env g t0 = Return (ev, cfg, inl e, left) ->
  In (EvListenReturn e) ev
  /\ filter isAllocClose ev = (if allocated env then [EvAllocClose] else [])
  /\ exists e1, e = Some e1 /\
       ((exists e0, client_Listen env = Some e0
                    /\ e1 = Errorf_w "Failed to listen to relay server" e0)
        \/ (exists e0, client_AllocateTCP env = Err e0
                       /\ e1 = Errorf_w "Failed to allocate relay connection" e0)
        \/ (exists addr, client_AllocateTCP env = Ok addr
                         /\ CallExchangeRelayCertV1 env addr = Err e1)
        \/ (exists e0, resolveStaticIp env (InfisicalStaticIp (config g)) = Some e0
                       /\ InfisicalStaticIp (config g) <> ""
                       /\ e1 = Errorf_w "Failed to parse infisical static ip" e0)
        \/ (exists cert e0,
               tls_X509KeyPair env (xCertificate cert) (xPrivateKey cert) = Some e0
               /\ e1 = Errorf_s "failed to parse cert" e0)).
Proof.
  intros H. pose proof (Listen_start_returns _ _ _ _ _ _ _ H) as Hclose.
  split; [|split; [exact Hclose|]]; clear Hclose.
  - listen_start_cases H; unfold returns, runDefers;
      destruct (relay_Close env); simpl; auto 20.
  - listen_start_cases H; eexists; (split; [reflexivity|]);
      first
        [ solve [ left; eauto ]
        | solve [ right; left; eauto ]
        | solve [ right; right; left; eauto ]
        | solve [ right; right; right; left; eexists; repeat split; eauto ]
        | solve [ right; right; right; right; eauto ] ].
Qed.

Lemma Listen_early_return_error_witness :
  exists ev cfg,
    Listen_start (mkListenEnv None (Err connRefused) None
                    (fun _ => Err connRefused) (fun _ => None) (fun _ _ => None))
                 connectedGateway 0
    = Return (ev, cfg,
              inl (Some (Errorf_w "Failed to allocate relay connection"
                                  connRefused)),
              None)
    /\ filter isAllocClose ev = [].
Proof.
  do 2 eexists. split; [vm_compute; reflexivity|].
  exact (proj1 (proj2 (Listen_early_return_error
                         (mkListenEnv None (Err connRefused) None
                            (fun _ => Err connRefused) (fun _ => None)
                            (fun _ _ => None))
                         connectedGateway 0 _ _ _ _ eq_refl))).
Defined.

(* ================================================================== *)
(** * Further properties of a session *)

Section ClientClose.

Lemma clientCloses_app tr1 tr2 :
  clientCloses (tr1 ++ tr2) = (clientCloses tr1 + clientCloses tr2)%nat.
Proof.
  unfold clientCloses. rewrite events_app, filter_app, length_app. reflexivity.
Qed.

Lemma clientCloses_stamp t ev :
  clientCloses (stamp t ev) = List.length (filter isClientClose ev).
Proof. unfold clientCloses. rewrite events_stamp. reflexivity. Qed.

Lemma clientCloses_returns ce e :
  filter isClientClose (returns ce [DeferAllocClose; DeferClientClose] e)
  = [EvClientClose].
Proof. destruct ce; reflexivity. Qed.

Lemma step_clientClose s a s' ev :
  step s a = Some (s', ev) ->
  match a with
  | MainGrace _ =>
      filter isClientClose ev
      = filter isClientClose
          (returns (closeErr (mainG s)) (mdefers (mainG s)) (merr (mainG s)))
  | _ => filter isClientClose ev = []
  end.
Proof.
  intros H. step_cases H; simpl; try reflexivity; no_such_event.
Qed.

Lemma step_clientDeferredOnce tr s a s' ev :
  clientDeferredOnce tr s ->
  step s a = Some (s', ev) ->
  clientDeferredOnce (tr ++ stamp (now s) ev) s'.
Proof.
  unfold clientDeferredOnce. intros Hd H.
  rewrite clientCloses_app, clientCloses_stamp.
  pose proof (step_main _ _ _ _ H) as Hm.
  pose proof (step_clientClose _ _ _ _ H) as Hc.
  destruct a;
    try (destruct Hm as [Hm1 _]; rewrite Hm1, Hc; simpl;
         destruct (mpc (mainG s)); [destruct Hd; split| destruct Hd; split|];
         auto; lia).
  - destruct Hm as [Hm1 [Hm2 [Hm3 _]]].
    rewrite Hm1 in Hd. rewrite Hm2, Hm3, Hc. simpl.
    destruct Hd; split; auto; lia.
  - destruct Hm as [[d Hm1] [Hm2 _]].
    rewrite Hm1 in Hd. destruct Hd as [Hd1 Hd2].
    rewrite Hm2, Hc, Hd1, Hd2, clientCloses_returns. reflexivity.
Qed.

Lemma reach_clientDeferredOnce s0 tr s :
  reach s0 tr s -> clientDeferredOnce [] s0 -> clientDeferredOnce tr s.
Proof.
  intros Hr H0. induction Hr as [|tr s a s' ev Hr IH Hs]; [exact H0|].
  eapply step_clientDeferredOnce; eauto.
Qed.

Lemma Listen_start_client_close env g t0 ev cfg res left :
  Listen_start env g t0 = Return (ev, cfg, res, left) ->
  filter isClientClose ev
  = match res with inl _ => [EvClientClose] | inr _ => [] end.
Proof.
  intros H. listen_start_cases H; unfold returns, runDefers;
    destruct (relay_Close env); reflexivity.
Qed.

End ClientClose.

(** X8.  A session of [Listen] never closes the TURN client twice, and
    whenever [Listen] has returned, before or after its goroutines
    started, by whichever path, it has closed the client exactly once. *)
Theorem client_closed_exactly_once
    (env : ListenEnv) (g : Gateway) (t0 : Z) (acts : list Action)
    (tr : trace) (res : option error + State) :
  Listen env g t0 acts = Some (tr, res) ->
  (clientCloses tr <= 1)%nat
  /\ (forall e, returned res = Some e -> clientCloses tr = 1%nat).
Proof.
  intros H.
  destruct (Listen_cases _ _ _ _ _ _ H)
    as [ev [cfg [[e' [Hs [-> ->]]]
                |[[e' [s1 [s [tr' [Hs [Hr [-> ->]]]]]]]
                 |[s0 [left [s [tr' [Hs [Hr [-> ->]]]]]]]]]]].
  - rewrite clientCloses_stamp, (Listen_start_client_close _ _ _ _ _ _ _ Hs).
    simpl. auto.
  - destruct (Listen_start_left _ _ _ _ _ _ _ Hs) as [Hl _].
    destruct (reach_onlyPermission _ _ _ _ Hr Hl) as [_ Hev].
    assert (Hz : clientCloses tr' = 0%nat).
    { unfold clientCloses. rewrite (filter_none isClientClose _ _ Hev);
        [reflexivity|intros [] Hx; try discriminate Hx; reflexivity]. }
    rewrite clientCloses_app, clientCloses_stamp, Hz,
      (Listen_start_client_close _ _ _ _ _ _ _ Hs).
    simpl. auto.
  - destruct (Listen_start_running _ _ _ _ _ _ _ Hs)
      as [[addr [ppc [ptk [peer ->]]]] _].
    assert (H0 : clientDeferredOnce
                   [] (mkState t0 false
                         (mkSync false false None 0%nat WNone)
                         (mkMain MSelect None [DeferAllocClose; DeferClientClose]
                                 (relay_Close env))
                         (mkLoop (TLSListener (TCPAllocation addr)) LTop 0%nat)
                         []
                         (mkLife (HSleep (t0 + 10 * Second))
                                 (NewTicker t0 (1 * Hour)) ppc ptk peer
                                 (RSleep (t0 + 5 * Second))
                                 (NewTicker t0 (10 * Second)) addr)))
      by (split; reflexivity).
    pose proof (reach_clientDeferredOnce _ _ _ Hr H0) as Hd.
    rewrite clientCloses_app, clientCloses_stamp,
      (Listen_start_client_close _ _ _ _ _ _ _ Hs).
    unfold clientDeferredOnce in Hd. unfold returned. simpl.
    destruct (mpc (mainG s)).
    + destruct Hd as [Hd _]. rewrite Hd. split; [lia|discriminate].
    + destruct Hd as [Hd _]. rewrite Hd. split; [lia|discriminate].
    + rewrite Hd. split; [lia|reflexivity].
Qed.

Lemma client_closed_exactly_once_witness :
  exists tr res,
    Listen okListenEnv connectedGateway 0 drainedSession = Some (tr, res)
    /\ returned res = Some None
    /\ clientCloses tr = 1%nat.
Proof.
  destruct (Listen okListenEnv connectedGateway 0 drainedSession)
    as [[tr res]|] eqn:HL; [|vm_compute in HL; discriminate HL].
  exists tr, res. split; [reflexivity|].
  assert (Hres : returned res = Some None) by (evaluate_session HL; reflexivity).
  split; [exact Hres|].
  exact (proj2 (client_closed_exactly_once _ _ _ _ _ _ HL) None Hres).
Defined.

Section Permission.

Lemma step_permission_events s a s' ev :
  step s a = Some (s', ev) ->
  match a with
  | PermissionFirst | PermissionSelect _ =>
      perm (life s) <> PNone
      /\ forall p, In (EvCreatePermissions p) ev -> p = permPeer (life s)
  | _ => filter isCreatePermissions ev = []
  end.
Proof.
  intros H. step_cases H; simpl;
    first
      [ solve [no_such_event]
      | split; [congruence|];
        intros p Hin; simpl in Hin;
        repeat match type of Hin with
               | _ \/ _ => destruct Hin as [Hin|Hin]
               end;
        try contradiction; try discriminate Hin; congruence ].
Qed.

Lemma step_permission s a s' ev :
  step s a = Some (s', ev) ->
  permPeer (life s') = permPeer (life s)
  /\ (perm (life s) = PNone -> perm (life s') = PNone)
  /\ (forall p, In (EvCreatePermissions p) ev ->
                perm (life s) <> PNone /\ p = permPeer (life s)).
Proof.
  intros H. pose proof (step_permission_events _ _ _ _ H) as He.
  split; [|split].
  - step_cases H; reflexivity.
  - step_cases H; simpl; auto; congruence.
  - intros p Hin.
    destruct a;
      try (exfalso;
           exact (filter_nil_not_in isCreatePermissions _
                    (EvCreatePermissions p) He eq_refl Hin));
      destruct He as [He1 He2]; auto.
Qed.

Lemma step_permissionFor ip tr s a s' ev :
  permissionFor ip tr s ->
  step s a = Some (s', ev) ->
  permissionFor ip (tr ++ stamp (now s) ev) s'.
Proof.
  intros [P1 [P2 P3]] H. destruct (step_permission _ _ _ _ H) as [S1 [S2 S3]].
  split; [congruence|]. split; [auto|].
  intros p Hin. apply in_events_snoc in Hin. destruct Hin as [Hin|Hin]; [auto|].
  destruct (S3 p Hin) as [Hn ->]. split; [|assumption].
  intros Hip. apply Hn. auto.
Qed.

Lemma reach_permissionFor ip s0 tr s :
  reach s0 tr s -> permissionFor ip [] s0 -> permissionFor ip tr s.
Proof.
  intros Hr H0. induction Hr as [|tr s a s' ev Hr IH Hs]; [exact H0|].
  eapply step_permissionFor; eauto.
Qed.

Lemma Listen_start_permission env g t0 ev cfg s0 left :
  Listen_start env g t0 = Return (ev, cfg, inr s0, left) ->
  permissionFor (InfisicalStaticIp (config g)) [] s0
  /\ crashed s0 = false
  /\ (InfisicalStaticIp (config g) <> "" -> perm (life s0) = PFirst).
Proof.
  intros H. listen_start_cases H; unfold permissionFor; simpl;
    repeat split; auto; try contradiction; try congruence.
Qed.

Lemma Listen_start_no_permission env g t0 ev cfg res left :
  Listen_start env g t0 = Return (ev, cfg, res, left) ->
  filter isCreatePermissions ev = [].
Proof.
  intros H. listen_start_cases H; unfold returns, runDefers;
    destruct (relay_Close env); reflexivity.
Qed.

End Permission.

(** X9.  The permission task exists only for a gateway registered with a
    static address.  In every session each [CreatePermissions] call is
    for that static address, and there is none when the address is empty.
    With a static address the task makes its first call as soon as it
    runs, without waiting for its three-minute ticker. *)
Theorem permissions_only_for_the_static_address
    (env : ListenEnv) (g : Gateway) (t0 : Z) :
  (forall acts tr res,
      Listen env g t0 acts = Some (tr, res) ->
      forall t p, In (t, EvCreatePermissions p) tr ->
                  InfisicalStaticIp (config g) <> ""
                  /\ p = InfisicalStaticIp (config g))
  /\ (forall ev cfg s0 left,
         Listen_start env g t0 = Return (ev, cfg, inr s0, left) ->
         InfisicalStaticIp (config g) <> "" ->
         exists s1,
           step s0 PermissionFirst
           = Some (s1, [EvCreatePermissions (InfisicalStaticIp (config g));
                        LogDebug "Created permission for incoming connections"])).
Proof.
  split.
  - intros acts tr res H t p Hin.
    assert (Hev : In (EvCreatePermissions p) (events tr))
      by (apply in_events; eauto).
    clear Hin.
    destruct (Listen_cases _ _ _ _ _ _ H)
      as [ev [cfg [[e' [Hs [-> _]]]
                  |[[e' [s1 [s [tr' [Hs [Hr [-> _]]]]]]]
                   |[s0 [left [s [tr' [Hs [Hr [-> _]]]]]]]]]]].
    + rewrite events_stamp in Hev. exfalso.
      exact (filter_nil_not_in isCreatePermissions _ (EvCreatePermissions p)
               (Listen_start_no_permission _ _ _ _ _ _ _ Hs) eq_refl Hev).
    + rewrite events_app, events_stamp in Hev. apply in_app_or in Hev.
      destruct Hev as [Hev|Hev].
      * exfalso.
        exact (filter_nil_not_in isCreatePermissions _ (EvCreatePermissions p)
                 (Listen_start_no_permission _ _ _ _ _ _ _ Hs) eq_refl Hev).
      * destruct (Listen_start_left _ _ _ _ _ _ _ Hs) as [Hl [Hip _]].
        destruct (reach_onlyPermission _ _ _ _ Hr Hl) as [_ Hf].
        rewrite Forall_forall in Hf. specialize (Hf _ Hev). simpl in Hf.
        apply String.eqb_eq in Hf. auto.
    + rewrite events_app, events_stamp in Hev. apply in_app_or in Hev.
      destruct Hev as [Hev|Hev].
      * exfalso.
        exact (filter_nil_not_in isCreatePermissions _ (EvCreatePermissions p)
                 (Listen_start_no_permission _ _ _ _ _ _ _ Hs) eq_refl Hev).
      * destruct (Listen_start_permission _ _ _ _ _ _ _ Hs) as [H0 _].
        destruct (reach_permissionFor _ _ _ _ Hr H0) as [_ [_ P3]]. auto.
  - intros ev cfg s0 left Hs Hip.
    destruct (Listen_start_permission _ _ _ _ _ _ _ Hs) as [[P1 _] [Hc Hp]].
    unfold step, permissionFirst. rewrite Hc, (Hp Hip), P1. eauto.
Qed.

Lemma permissions_only_for_the_static_address_witness :
  exists s1,
    step (match Listen_start okListenEnv
                  (mkGateway (mkGatewayConfig "user" "pass" "relay.example:5349"
                                "198.51.100.7:0" "" "" "" "")
                             (client connectedGateway)) 0 with
          | Return (_, _, inr s0, _) => s0
          | _ => startedState
          end) PermissionFirst
    = Some (s1, [EvCreatePermissions "198.51.100.7:0";
                 LogDebug "Created permission for incoming connections"]).
Proof.
  refine (proj2 (permissions_only_for_the_static_address okListenEnv
                   (mkGateway (mkGatewayConfig "user" "pass" "relay.example:5349"
                                 "198.51.100.7:0" "" "" "" "")
                              (client connectedGateway)) 0)
            _ _ _ _ eq_refl _).
  discriminate.
Defined.

Section ErrorChannel.

Lemma sent_filter l : flat_map sent l = flat_map sent (filter isErrChSend l).
Proof.
  induction l as [|e l IH]; [reflexivity|].
  destruct e; simpl; rewrite IH; reflexivity.
Qed.

Lemma sent_none l : filter isErrChSend l = [] -> flat_map sent l = [].
Proof. intros H. rewrite sent_filter, H. reflexivity. Qed.

Lemma errChSends_snoc tr t ev :
  errChSends (tr ++ stamp t ev) = errChSends tr ++ flat_map sent ev.
Proof.
  unfold errChSends. rewrite events_app, events_stamp. apply flat_map_app.
Qed.

Lemma step_errCh s a s' ev :
  step s a = Some (s', ev) ->
  match a with
  | MainSelect CaseCtxDone =>
      mpc (mainG s) = MSelect /\ merr (mainG s') = merr (mainG s)
      /\ mpc (mainG s') = MGrace (now s + 5 * Second)
      /\ filter isErrChSend ev = []
  | MainSelect CaseErrCh =>
      mpc (mainG s) = MSelect /\ errCh (sync s) = Some (merr (mainG s'))
      /\ mpc (mainG s') = MGrace (now s + 5 * Second)
      /\ filter isErrChSend ev = []
  | MainGrace _ =>
      (exists d, mpc (mainG s) = MGrace d) /\ mpc (mainG s') = MReturned
      /\ merr (mainG s') = merr (mainG s)
      /\ filter isErrChSend ev = []
  | HeartBeatSend | RelayActiveSend =>
      mainG s' = mainG s /\ errCh (sync s) = None
      /\ exists v, errCh (sync s') = Some v /\ ev = [EvErrChSend v]
  | _ =>
      mainG s' = mainG s /\ errCh (sync s') = errCh (sync s)
      /\ filter isErrChSend ev = []
  end.
Proof.
  intros H. step_cases H; simpl; repeat split; eauto; try no_such_event.
Qed.

Lemma step_errChLogged tr s a s' ev :
  errChLogged tr s ->
  step s a = Some (s', ev) ->
  errChLogged (tr ++ stamp (now s) ev) s'.
Proof.
  unfold errChLogged. intros Hd H.
  pose proof (step_errCh _ _ _ _ H) as He.
  rewrite errChSends_snoc.
  destruct a as [ |d|c|c|c| |r|c|c w| |r|c r| | |c| |c r| ];
    try (destruct He as [Hm [Hc Hf]];
         rewrite Hm, Hc, (sent_none _ Hf), app_nil_r; exact Hd).
  - destruct c.
    + destruct He as [Hm [He1 [Hg Hf]]]. rewrite Hm in Hd. rewrite Hg.
      left. destruct Hd as [Hd _]. congruence.
    + destruct He as [Hm [He1 [Hg Hf]]]. rewrite Hm in Hd. rewrite Hg.
      rewrite (sent_none _ Hf), app_nil_r.
      destruct Hd as [_ [[Hd _]|[v [Hd1 Hd2]]]]; [congruence|].
      right. exists []. congruence.
  - destruct He as [[d Hm] [Hr [He1 Hf]]]. rewrite Hm in Hd. rewrite Hr, He1.
    rewrite (sent_none _ Hf), app_nil_r. exact Hd.
  - destruct He as [Hm [Hn [v [Hv ->]]]]. rewrite Hm, Hv. simpl.
    destruct (mpc (mainG s)).
    + destruct Hd as [Hd1 [[_ Hd2]|[v' [Hd2 _]]]]; [|congruence].
      split; [assumption|]. right. exists v. rewrite Hd2. auto.
    + destruct Hd as [Hd|[rest Hd]]; [auto|].
      right. exists (rest ++ [v]). rewrite Hd. reflexivity.
    + destruct Hd as [Hd|[rest Hd]]; [auto|].
      right. exists (rest ++ [v]). rewrite Hd. reflexivity.
  - destruct He as [Hm [Hn [v [Hv ->]]]]. rewrite Hm, Hv. simpl.
    destruct (mpc (mainG s)).
    + destruct Hd as [Hd1 [[_ Hd2]|[v' [Hd2 _]]]]; [|congruence].
      split; [assumption|]. right. exists v. rewrite Hd2. auto.
    + destruct Hd as [Hd|[rest Hd]]; [auto|].
      right. exists (rest ++ [v]). rewrite Hd. reflexivity.
    + destruct Hd as [Hd|[rest Hd]]; [auto|].
      right. exists (rest ++ [v]). rewrite Hd. reflexivity.
Qed.

Lemma reach_errChLogged s0 tr s :
  reach s0 tr s -> errChLogged [] s0 -> errChLogged tr s.
Proof.
  intros Hr H0. induction Hr as [|tr s a s' ev Hr IH Hs]; [exact H0|].
  eapply step_errChLogged; eauto.
Qed.

Lemma initial_errChLogged env t0 s0 : initial env t0 s0 -> errChLogged [] s0.
Proof.
  intros [addr [ppc [ptk [peer ->]]]]. split; [reflexivity|]. left.
  split; reflexivity.
Qed.

Lemma errChLogged_prefix pre tr s :
  flat_map sent (events pre) = [] ->
  errChLogged tr s -> errChLogged (pre ++ tr) s.
Proof.
  unfold errChLogged, errChSends. intros Hp.
  rewrite events_app, flat_map_app, Hp. exact (fun H => H).
Qed.

End ErrorChannel.

(** C3, amended.  In a session whose goroutines have started at [t0]:
    - no heart beat is made before [t0] + 10 s, and the k-th heart beat
      after the first is made no earlier than [t0] + k hours;
    - the first heart beat is made once the 10 s have passed; its failure
      is logged and leaves [errCh] as it was;
    - when a heart beat made on a tick of the ticker fails, the task
      holds that error and does nothing but send it: the send to [errCh]
      goes through as soon as the channel has room;
    - [Listen], in its [select], takes whatever [errCh] holds, closes
      [shutdownCh] and keeps the value as the error to return;
    - so once anything has been sent on [errCh], either [shutdownCh] is
      closed already, or the value is in the channel, the only one sent,
      and [Listen] is in its [select], where it can receive it. *)
Theorem heart_beat_amended
    (env : ListenEnv) (g : Gateway) (t0 : Z) (acts : list Action)
    (tr : trace) (s : State) :
  Listen env g t0 acts = Some (tr, inr s) ->
  (forall k t, nth_error (heartBeats tr) k = Some t ->
               t0 + 10 * Second <= t /\ t0 + Z.of_nat k * Hour <= t)
  /\ (forall w r,
        crashed s = false -> hb (life s) = HSleep w -> w <= now s ->
        exists s',
          step s (HeartBeatFirst r)
          = Some (s', [LogInfo "Registering first heart beat"; EvHeartBeat]
                      ++ match r with
                         | Some err =>
                             [LogError ("Failed to register heartbeat: "
                                          ++ Error err)%string]
                         | None => []
                         end)
          /\ errCh (sync s') = errCh (sync s)
          /\ hb (life s') = HLoop)
  /\ (forall err,
        crashed s = false ->
        hb (life s) = HLoop ->
        tkPending (hbTicker (life s)) = true ->
        exists s1,
          step s (HeartBeatSelect CaseTick (Some err))
          = Some (s1, [LogInfo "Registering heart beat"; EvHeartBeat])
          /\ hb (life s1) = HSend (Some err)
          /\ sync s1 = sync s /\ mainG s1 = mainG s
          /\ (forall c r, step s1 (HeartBeatSelect c r) = None)
          /\ (forall r, step s1 (HeartBeatFirst r) = None)
          /\ (errCh (sync s) = None ->
              exists s2,
                step s1 HeartBeatSend = Some (s2, [EvErrChSend (Some err)])
                /\ errCh (sync s2) = Some (Some err)
                /\ hb (life s2) = HLoop
                /\ mainG s2 = mainG s))
  /\ (forall v,
        crashed s = false -> hb (life s) = HSend v -> errCh (sync s) = None ->
        exists s2,
          step s HeartBeatSend = Some (s2, [EvErrChSend v])
          /\ errCh (sync s2) = Some v
          /\ hb (life s2) = HLoop)
  /\ (forall v,
        crashed s = false -> mpc (mainG s) = MSelect -> errCh (sync s) = Some v ->
        exists s',
          step s (MainSelect CaseErrCh) = Some (s', [EvCloseShutdownCh])
          /\ shutdownCh (sync s') = true
          /\ merr (mainG s') = v
          /\ mpc (mainG s') = MGrace (now s + 5 * Second))
  /\ (errChSends tr <> [] ->
      shutdownCh (sync s) = true
      \/ (mpc (mainG s) = MSelect
          /\ exists v, errCh (sync s) = Some v /\ errChSends tr = [v])).
Proof.
  intros H.
  destruct (Listen_running _ _ _ _ _ _ H)
    as [ev0 [s0 [tr' [Hi [_ [Hev [Hr ->]]]]]]].
  split; [|split; [|split; [|split; [|split]]]].
  - rewrite (heartBeats_setup _ _ _ Hev).
    apply (reach_heartBeatTimed _ _ _ _ Hr (initial_heartBeatTimed _ _ _ Hi)).
  - intros w r Hc Hh Hle. unfold step, heartBeatFirst. rewrite Hc, Hh.
    apply Z.leb_le in Hle. rewrite Hle. eexists. split; [reflexivity|].
    split; reflexivity.
  - intros err Hc Hh Hp. unfold step at 1, heartBeatSelect.
    rewrite Hc, Hh, Hp. eexists. split; [reflexivity|].
    split; [reflexivity|]. split; [reflexivity|]. split; [reflexivity|].
    split; [|split].
    + intros c r. unfold step, heartBeatSelect. cbn. rewrite Hc. reflexivity.
    + intros r. unfold step, heartBeatFirst. cbn. rewrite Hc. reflexivity.
    + intros He. unfold step, heartBeatSend. cbn. rewrite Hc, He.
      eexists. split; [reflexivity|]. repeat split.
  - intros v Hc Hh He. unfold step, heartBeatSend. rewrite Hc, Hh, He.
    eexists. split; [reflexivity|]. split; reflexivity.
  - intros v Hc Hm He. unfold step, mainSelect. rewrite Hc, Hm, He.
    eexists. split; [reflexivity|]. repeat split.
  - intros Hne.
    assert (Hinv : errChLogged (stamp t0 ev0 ++ tr') s).
    { apply errChLogged_prefix.
      - rewrite events_stamp. apply sent_none.
        apply (filter_none _ _ _ Hev).
        intros [] Hx; try discriminate Hx; reflexivity.
      - eapply reach_errChLogged; [exact Hr|].
        eapply initial_errChLogged; exact Hi. }
    destruct (reach_sessionInv _ _ _ Hr (initial_sessionInv _ _ _ Hi))
      as [_ [Hsig _]].
    unfold errChLogged in Hinv. unfold signalled in Hsig.
    destruct (mpc (mainG s)); [|left; exact Hsig|left; exact Hsig].
    right. split; [reflexivity|].
    destruct Hinv as [_ [[_ Hn]|Hv]]; [contradiction|exact Hv].
Qed.

Lemma heart_beat_amended_witness :
  exists tr s s',
    Listen okListenEnv connectedGateway 0
           [Advance (10 * Second); HeartBeatFirst None; Advance (1 * Hour);
            HeartBeatSelect CaseTick (Some connRefused); HeartBeatSend]
    = Some (tr, inr s)
    /\ heartBeats tr = [10 * Second; 10 * Second + 1 * Hour]
    /\ errChSends tr = [Some connRefused]
    /\ (forall k t, nth_error (heartBeats tr) k = Some t ->
                    0 + 10 * Second <= t /\ 0 + Z.of_nat k * Hour <= t)
    /\ step s (MainSelect CaseErrCh) = Some (s', [EvCloseShutdownCh])
    /\ shutdownCh (sync s') = true
    /\ merr (mainG s') = Some connRefused.
Proof.
  match goal with
  | |- exists tr s s', ?L = _ /\ _ =>
      destruct L as [[tr [e|s]]|] eqn:HL;
      [vm_compute in HL; discriminate HL| |vm_compute in HL; discriminate HL]
  end.
  destruct (heart_beat_amended _ _ _ _ _ _ HL) as [H1 [_ [_ [_ [H5 _]]]]].
  destruct (H5 (Some connRefused)) as [s' [S1 [S2 [S3 _]]]];
    try (evaluate_session HL; reflexivity).
  exists tr, s, s'. split; [reflexivity|].
  split; [evaluate_session HL; reflexivity|].
  split; [evaluate_session HL; reflexivity|].
  split; [exact H1|]. split; [exact S1|]. split; [exact S2|exact S3].
Defined.

(** X10.  An error that a running session of [Listen] returns is the
    first value that was sent on [errCh]; a session sends nothing on
    [errCh] before its goroutines have started. *)
Theorem returned_error_was_sent_first
    (env : ListenEnv) (g : Gateway) (t0 : Z) (acts : list Action)
    (tr : trace) (s : State) (err : error) :
  Listen env g t0 acts = Some (tr, inr s) ->
  returned (inr s) = Some (Some err) ->
  exists rest, errChSends tr = Some err :: rest.
Proof.
  intros H Hret.
  destruct (Listen_running _ _ _ _ _ _ H)
    as [ev [s0 [tr' [Hi [_ [Hev [Hr ->]]]]]]].
  assert (Hinv : errChLogged (stamp t0 ev ++ tr') s).
  { apply errChLogged_prefix.
    - rewrite events_stamp. apply sent_none.
      apply (filter_none _ _ _ Hev). intros [] Hx; try discriminate Hx; reflexivity.
    - eapply reach_errChLogged; [exact Hr|].
      eapply initial_errChLogged; exact Hi. }
  unfold errChLogged in Hinv. unfold returned in Hret.
  destruct (mpc (mainG s)); try discriminate Hret.
  injection Hret as Hm. rewrite Hm in Hinv.
  destruct Hinv as [Hinv|Hinv]; [discriminate Hinv|exact Hinv].
Qed.

Lemma returned_error_was_sent_first_witness :
  exists tr s rest,
    Listen okListenEnv connectedGateway 0
           [Advance (10 * Second); HeartBeatFirst None; Advance (1 * Hour);
            HeartBeatSelect CaseTick (Some connRefused); HeartBeatSend;
            MainSelect CaseErrCh; WaitReturns; MainGrace CaseWaitCh]
    = Some (tr, inr s)
    /\ errChSends tr = Some connRefused :: rest.
Proof.
  match goal with
  | |- exists tr s rest, ?L = _ /\ _ =>
      destruct L as [[tr [e|s]]|] eqn:HL;
      [vm_compute in HL; discriminate HL| |vm_compute in HL; discriminate HL]
  end.
  assert (Hret : returned (inr s) = Some (Some connRefused))
    by (evaluate_session HL; reflexivity).
  destruct (returned_error_was_sent_first _ _ _ _ _ _ _ HL Hret) as [rest Hs].
  exists tr, s, rest. split; [reflexivity|exact Hs].
Defined.

Section WaitGroup.

Lemma step_wg s a s' ev :
  tasksWf s ->
  step s a = Some (s', ev) ->
  (wg (sync s') + List.length (filter isWgDone ev)
   = wg (sync s) + List.length (filter isDispatch ev))%nat.
Proof.
  intros [_ [_ Hwg]] H. unfold inFlight in Hwg.
  step_cases H; simpl;
    try match goal with
        | Hi : acceptIteration _ _ = _ |- _ =>
            let Hf := fresh "Hf" in
            let Hd := fresh "Hd" in
            pose proof (proj1 (acceptIteration_events _ _ _ _ Hi)) as Hf;
            pose proof (proj2 (acceptIteration_events _ _ _ _ Hi)) as Hd;
            simpl in Hd; rewrite ?filter_app, ?length_app;
            try match type of Hd with
                | _ /\ _ => destruct Hd as [_ [Hd _]]
                end;
            rewrite Hd;
            rewrite (filter_none isWgDone _ _ Hf)
              by (intros [] Hx; try discriminate Hx; reflexivity);
            simpl; lia
        end;
    try match goal with
        | Hx : existsb _ _ = true |- _ =>
            pose proof (running_counted _ _ Hx); lia
        end;
    try (replace (filter isWgDone _) with (@nil Event)
           by (symmetry; no_such_event));
    try (replace (filter isDispatch _) with (@nil Event)
           by (symmetry; no_such_event));
    simpl; try lia;
    try match goal with
        | r : option error |- _ => destruct r; simpl; lia
        end.
Qed.

Lemma reach_wgCounted s0 tr s :
  reach s0 tr s -> tasksWf s0 -> wgCounted [] s0 ->
  tasksWf s /\ wgCounted tr s.
Proof.
  intros Hr Hw H0. induction Hr as [|tr s a s' ev Hr [IH1 IH2] Hs]; [auto|].
  split; [eapply step_tasksWf; eauto|].
  pose proof (step_wg _ _ _ _ IH1 Hs) as Hq.
  unfold wgCounted, wgDones, dispatches in *.
  rewrite events_app, events_stamp, !filter_app, !length_app. lia.
Qed.

End WaitGroup.

(** X13.  The wait group is balanced in every session: its counter is
    the number of connections dispatched minus the number of [wg.Done()]
    calls made, and it is the number of handlers still running.  So
    [wg.Done()] never runs more often than [wg.Add(1)]: the counter never
    goes below zero. *)
Theorem wait_group_is_balanced
    (env : ListenEnv) (g : Gateway) (t0 : Z) (acts : list Action)
    (tr : trace) (s : State) :
  Listen env g t0 acts = Some (tr, inr s) ->
  (wg (sync s) + wgDones tr = dispatches tr)%nat
  /\ wg (sync s) = inFlight s
  /\ (wgDones tr <= dispatches tr)%nat.
Proof.
  intros H.
  destruct (Listen_running _ _ _ _ _ _ H)
    as [ev [s0 [tr' [Hi [_ [Hev [Hr ->]]]]]]].
  destruct (initial_sessionInv _ _ _ Hi) as [Hwf _].
  assert (H0 : wgCounted [] s0).
  { destruct Hi as [addr [ppc [ptk [peer ->]]]]. reflexivity. }
  destruct (reach_wgCounted _ _ _ Hr Hwf H0) as [[_ [_ Hw]] Hc].
  unfold wgCounted, wgDones, dispatches in *.
  rewrite events_app, events_stamp, !filter_app, !length_app.
  rewrite (filter_none isWgDone _ _ Hev)
    by (intros [] Hx; try discriminate Hx; reflexivity).
  rewrite (filter_none isDispatch _ _ Hev)
    by (intros [] Hx; try discriminate Hx; reflexivity).
  simpl. split; [exact Hc|]. split; [exact Hw|lia].
Qed.

Lemma wait_group_is_balanced_witness :
  exists tr s,
    Listen okListenEnv connectedGateway 0 drainedSession = Some (tr, inr s)
    /\ (wg (sync s) + wgDones tr = dispatches tr)%nat.
Proof.
  destruct (Listen okListenEnv connectedGateway 0 drainedSession)
    as [[tr [e|s]]|] eqn:HL;
    [vm_compute in HL; discriminate HL| |vm_compute in HL; discriminate HL].
  exists tr, s. split; [reflexivity|].
  exact (proj1 (wait_group_is_balanced _ _ _ _ _ _ HL)).
Defined.

Section ClosedOnce.

Lemma step_closes s a s' ev :
  step s a = Some (s', ev) ->
  let cs := List.length (filter isCloseShutdownCh ev) in
  let cw := List.length (filter isCloseWaitCh ev) in
  match a with
  | MainSelect _ =>
      mpc (mainG s) = MSelect /\ mpc (mainG s') = MGrace (now s + 5 * Second)
      /\ waitCh (sync s') = WOpen /\ cs = 1%nat /\ cw = 0%nat
  | MainGrace _ =>
      (exists d, mpc (mainG s) = MGrace d) /\ mpc (mainG s') = MReturned
      /\ waitCh (sync s') = waitCh (sync s) /\ cs = 0%nat /\ cw = 0%nat
  | WaitReturns =>
      mainG s' = mainG s /\ waitCh (sync s) = WOpen
      /\ waitCh (sync s') = WClosed /\ cs = 0%nat /\ cw = 1%nat
  | _ =>
      mainG s' = mainG s /\ waitCh (sync s') = waitCh (sync s)
      /\ cs = 0%nat /\ cw = 0%nat
  end.
Proof.
  intros H. step_cases H; simpl;
    repeat match goal with
           | |- _ /\ _ => split
           | |- exists _, _ => eexists
           | |- List.length _ = _ =>
               first [ reflexivity
                     | replace (filter _ _) with (@nil Event)
                         by (symmetry; no_such_event); reflexivity ]
           | |- _ => first [reflexivity|assumption]
           end.
Qed.

Lemma step_closedOnce tr s a s' ev :
  closedOnce tr s ->
  step s a = Some (s', ev) ->
  closedOnce (tr ++ stamp (now s) ev) s'.
Proof.
  unfold closedOnce, shutdownCloses, waitCloses. intros [Hc1 Hc2] H.
  rewrite events_app, events_stamp, !filter_app, !length_app.
  pose proof (step_closes _ _ _ _ H) as Hs. cbv zeta in Hs.
  destruct a as [ |d|c|c|c| |r|c|c w| |r|c r| | |c| |c r| ];
    try (destruct Hs as [Hm [Hw [-> ->]]]; rewrite Hm, Hw, !Nat.add_0_r;
         split; assumption).
  - destruct Hs as [Hm [Hg [Hw [-> ->]]]]. rewrite Hm in Hc1.
    destruct Hc1 as [Hc1 Hn]. rewrite Hn in Hc2. rewrite Hg, Hw, Hc1, Hc2.
    split; reflexivity.
  - destruct Hs as [[d Hm] [Hr [Hw [-> ->]]]]. rewrite Hm in Hc1.
    rewrite Hr, Hw, !Nat.add_0_r. split; assumption.
  - destruct Hs as [Hm [Hw [Hw' [-> ->]]]]. rewrite Hw in *.
    rewrite Hm, Hw', Hc2, Nat.add_0_r. split; [|reflexivity].
    destruct (mpc (mainG s)); [destruct Hc1; discriminate|assumption..].
Qed.

Lemma reach_closedOnce s0 tr s :
  reach s0 tr s -> closedOnce [] s0 -> closedOnce tr s.
Proof.
  intros Hr H0. induction Hr as [|tr s a s' ev Hr IH Hs]; [exact H0|].
  eapply step_closedOnce; eauto.
Qed.

End ClosedOnce.

Lemma Listen_start_no_close env g t0 ev cfg e left :
  Listen_start env g t0 = Return (ev, cfg, inl e, left) ->
  filter isCloseShutdownCh ev = [] /\ filter isCloseWaitCh ev = [].
Proof.
  intros Hs. listen_start_cases Hs; unfold returns, runDefers;
    destruct (relay_Close env); split; reflexivity.
Qed.

(** X14.  No session closes [shutdownCh] or [waitCh] twice, which would
    make the process panic; [shutdownCh] has been closed exactly once as
    soon as [Listen] has left its first [select]. *)
Theorem channels_closed_at_most_once
    (env : ListenEnv) (g : Gateway) (t0 : Z) (acts : list Action)
    (tr : trace) (res : option error + State) :
  Listen env g t0 acts = Some (tr, res) ->
  (shutdownCloses tr <= 1)%nat
  /\ (waitCloses tr <= 1)%nat
  /\ (forall s, res = inr s -> mpc (mainG s) <> MSelect ->
                 shutdownCloses tr = 1%nat).
Proof.
  intros H.
  destruct (Listen_cases _ _ _ _ _ _ H)
    as [ev [cfg [[e' [Hs [-> ->]]]
                |[[e' [s1 [s [tr' [Hs [Hr [-> ->]]]]]]]
                 |[s0 [left [s [tr' [Hs [Hr [-> ->]]]]]]]]]]].
  - unfold shutdownCloses, waitCloses. rewrite events_stamp.
    destruct (Listen_start_no_close _ _ _ _ _ _ _ Hs) as [-> ->].
    simpl. split; [lia|]. split; [lia|]. discriminate.
  - destruct (Listen_start_left _ _ _ _ _ _ _ Hs) as [Hl _].
    destruct (reach_onlyPermission _ _ _ _ Hr Hl) as [_ Hev].
    unfold shutdownCloses, waitCloses.
    rewrite events_app, events_stamp, !filter_app, !length_app.
    destruct (Listen_start_no_close _ _ _ _ _ _ _ Hs) as [-> ->].
    rewrite (filter_none isCloseShutdownCh _ _ Hev)
      by (intros [] Hx; try discriminate Hx; reflexivity).
    rewrite (filter_none isCloseWaitCh _ _ Hev)
      by (intros [] Hx; try discriminate Hx; reflexivity).
    simpl. split; [lia|]. split; [lia|]. discriminate.
  - destruct (Listen_start_running _ _ _ _ _ _ _ Hs) as [Hi [_ Hev]].
    assert (H0 : closedOnce [] s0).
    { destruct Hi as [addr [ppc [ptk [peer ->]]]]. repeat split. }
    destruct (reach_closedOnce _ _ _ Hr H0) as [Hc1 Hc2].
    unfold shutdownCloses, waitCloses in *.
    rewrite events_app, events_stamp, !filter_app, !length_app.
    rewrite (filter_none isCloseShutdownCh _ _ Hev)
      by (intros [] Hx; try discriminate Hx; reflexivity).
    rewrite (filter_none isCloseWaitCh _ _ Hev)
      by (intros [] Hx; try discriminate Hx; reflexivity).
    simpl. split; [|split].
    + destruct (mpc (mainG s)); [destruct Hc1 as [Hc1 _]|..]; lia.
    + destruct (waitCh (sync s)); lia.
    + intros s' Hx Hm. inversion Hx; subst.
      destruct (mpc (mainG s')); [congruence|assumption|assumption].
Qed.

Lemma channels_closed_at_most_once_witness :
  exists tr res,
    Listen okListenEnv connectedGateway 0 drainedSession = Some (tr, res)
    /\ (shutdownCloses tr <= 1)%nat /\ (waitCloses tr <= 1)%nat.
Proof.
  destruct (Listen okListenEnv connectedGateway 0 drainedSession)
    as [[tr res]|] eqn:HL; [|vm_compute in HL; discriminate HL].
  exists tr, res. split; [reflexivity|].
  pose proof (channels_closed_at_most_once _ _ _ _ _ _ HL) as [H1 [H2 _]].
  split; assumption.
Defined.

(** X11.  The accept loop hands a connection to a handler exactly when
    [Accept] gave a TLS connection whose handshake succeeded and whose
    peer certificates are either absent or start with a certificate whose
    first OrganizationalUnit is ["gateway-client"] and whose CommonName is
    ["cloud"]; the iteration then sets the ten-second handshake deadline,
    runs the handshake, clears the deadline and dispatches, nothing
    else. *)
Theorem acceptIteration_dispatches_iff
    (c c' : connId) (r : result acceptedConn) (ev : list Event) :
  acceptIteration c r = (ev, Dispatch c')
  <-> exists certs,
        r = Ok (TLSConn None certs) /\ passes certs /\ c' = c
        /\ ev = [EvConnSetDeadline c (Some (10 * Second)); EvHandshake c;
                 EvConnSetDeadline c None; EvDispatch c].
Proof.
  unfold acceptIteration, passes. split.
  - intros H.
    destruct r as [[handshake certs|]|err];
      [| discriminate H
       | destruct (netError err) as [[|]|];
         try destruct (negb (Contains (Error err) stun_noise));
         discriminate H ].
    destruct handshake as [e|]; [discriminate H|].
    destruct certs as [|[[ous cn]] rest].
    + inversion H; subst. exists []. auto.
    + cbn [Subject OrganizationalUnit CommonName] in H.
      destruct ous as [|ou0 ous]; [discriminate H|].
      cbn [at_index nth_error] in H.
      destruct (String.eqb_spec ou0 "gateway-client") as [->|Hou];
        [|discriminate H].
      destruct (String.eqb_spec cn "cloud") as [->|Hcn]; [|discriminate H].
      inversion H; subst. eexists. split; [reflexivity|].
      split; [right; do 3 eexists; split; reflexivity|]. auto.
  - intros [certs [-> [[->|[ous [cn [rest [-> ->]]]]] [-> ->]]]]; reflexivity.
Qed.

(** X12.  A connection that [Accept] returned is never closed twice by
    the loop.  When the iteration ends in [continue] the connection has
    been closed once and one error has been logged; when it is dispatched
    the loop neither closes it nor logs an error; when the iteration
    panics the connection has not been closed. *)
Theorem accepted_connection_closed_once
    (c : connId) (k : acceptedConn) :
  let ev := fst (acceptIteration c (Ok k)) in
  match snd (acceptIteration c (Ok k)) with
  | Continue =>
      filter isConnClose ev = [EvConnClose c]
      /\ exists m, filter isLogError ev = [LogError m]
  | Dispatch _ | Crash _ =>
      filter isConnClose ev = [] /\ filter isLogError ev = []
  end.
Proof.
  unfold acceptIteration.
  destruct k as [[e|] [|[[[|ou0 ous] cn]] rest]|]; cbn;
    try (split; [reflexivity|eexists; reflexivity]);
    try (split; reflexivity).
  destruct (negb (String.eqb ou0 "gateway-client")
            || negb (String.eqb cn "cloud")); cbn;
    [split; [reflexivity|eexists; reflexivity]|split; reflexivity].
Qed.

(** X15.  Cancelling [ctx] is enough to stop the accept loop, before
    [Listen] has closed [shutdownCh]: from a state in which [ctx] is
    cancelled, whatever the goroutines do next, the loop's [select] never
    takes its [default] case again.  A loop that is at the head of an
    iteration, or has exited, starts no [Accept] call and dispatches
    nothing.  A loop that had already left its [select] through [default]
    still makes the one call of [Accept] it was about to make, and at
    most one connection is dispatched: the one that call, or the call in
    progress, returns. *)
Theorem cancellation_stops_accepting
    (s : State) (acts : list Action) (s' : State) (tr : trace) :
  ctxDone (sync s) = true ->
  run s acts = Some (s', tr) ->
  (acceptCalls tr <= pendingCall s)%nat
  /\ (dispatches tr <= pendingAccept s)%nat
  /\ ((lpc (loopG s) = LTop \/ lpc (loopG s) = LExited) ->
      acceptCalls tr = 0%nat /\ dispatches tr = 0%nat)
  /\ step s' (LoopSelect LoopDefault) = None.
Proof.
  intros Hc Hr. apply run_reach in Hr.
  assert (Hsig : ctxDone (sync s) || shutdownCh (sync s) = true)
    by (rewrite Hc; reflexivity).
  destruct (reach_after_signal _ _ _ Hr Hsig) as [H1 [_ [H2 H3]]].
  split; [lia|]. split; [lia|]. split.
  - unfold pendingCall, pendingAccept in H2, H3.
    intros [Hl|Hl]; rewrite Hl in H2, H3; lia.
  - unfold step, loopSelect. destruct (crashed s'); [reflexivity|].
    destruct (lpc (loopG s')); try reflexivity.
    rewrite (H1 Hc). reflexivity.
Qed.

Lemma cancellation_stops_accepting_witness :
  exists s' tr,
    run (setSync (setCtxDone (sync startedState))
           (setLoop (setLpc LDefault (loopG startedState)) startedState))
        [LoopAccept; LoopAccepted (Ok (TLSConn None [cloudCert]));
         LoopSelect LoopCtxDone]
    = Some (s', tr)
    /\ (acceptCalls tr <= 1)%nat
    /\ (dispatches tr <= 1)%nat
    /\ step s' (LoopSelect LoopDefault) = None.
Proof.
  destruct (run (setSync (setCtxDone (sync startedState))
                   (setLoop (setLpc LDefault (loopG startedState))
                            startedState))
              [LoopAccept; LoopAccepted (Ok (TLSConn None [cloudCert]));
               LoopSelect LoopCtxDone])
    as [[s' tr]|] eqn:HR; [|vm_compute in HR; discriminate HR].
  exists s', tr. split; [reflexivity|].
  destruct (cancellation_stops_accepting
              (setSync (setCtxDone (sync startedState))
                 (setLoop (setLpc LDefault (loopG startedState))
                          startedState))
              _ _ _ eq_refl HR) as [H1 [H2 [_ H3]]].
  split; [exact H1|]. split; [exact H2|exact H3].
Defined.

(** X16.  The heart beat loop sends the result of every interval call to
    [errCh], also a nil one.  So after a successful interval heart beat
    [Listen] leaves its [select], closes [shutdownCh] and, five seconds
    later at the latest, returns nil: the gateway stops although nothing
    failed. *)
Theorem interval_heart_beat_success_stops_the_gateway (s : State) :
  crashed s = false ->
  hb (life s) = HLoop ->
  tkPending (hbTicker (life s)) = true ->
  errCh (sync s) = None ->
  mpc (mainG s) = MSelect ->
  exists s' tr,
    run s [HeartBeatSelect CaseTick None; HeartBeatSend; MainSelect CaseErrCh;
           Advance (5 * Second); MainGrace CaseTimeAfter]
    = Some (s', tr)
    /\ errChSends tr = [None]
    /\ shutdownCh (sync s') = true
    /\ returned (inr s') = Some None.
Proof.
  intros Hc Hh Hp He Hm.
  unfold run, step. rewrite Hc. unfold heartBeatSelect. rewrite Hh, Hp.
  cbn [crashed setLife]. rewrite Hc.
  unfold heartBeatSend. cbn [life setLife hb setHb sync errCh]. rewrite He.
  cbn [crashed setLife setSync]. rewrite Hc.
  unfold mainSelect. cbn [mainG setLife setSync]. rewrite Hm.
  cbn [sync setLife setSync errCh setErrCh crashed setMain].
  rewrite Hc. unfold advance.
  change (5 * Second <? 0) with false. cbn [crashed setNow setLife setMain setSync].
  rewrite Hc. unfold mainGrace.
  cbn [mainG setNow setLife setMain setSync now mpc].
  rewrite Z.leb_refl.
  do 2 eexists. split; [reflexivity|].
  split; [|split; reflexivity].
  unfold errChSends. rewrite !events_app, !events_stamp, !flat_map_app.
  cbn [flat_map sent app].
  rewrite (sent_none _ (eq_trans (filter_none isErrChSend isReturnEvent _
             (returns_events _ _ _)
             ltac:(intros [] Hx; try discriminate Hx; reflexivity)) eq_refl)).
  reflexivity.
Qed.

Lemma interval_heart_beat_success_stops_the_gateway_witness :
  exists s' tr,
    run tickingState
        [HeartBeatSelect CaseTick None; HeartBeatSend; MainSelect CaseErrCh;
         Advance (5 * Second); MainGrace CaseTimeAfter]
    = Some (s', tr)
    /\ returned (inr s') = Some None.
Proof.
  destruct (interval_heart_beat_success_stops_the_gateway tickingState
              eq_refl eq_refl eq_refl eq_refl eq_refl)
    as [s' [tr [H1 [_ [_ H2]]]]].
  exists s', tr. split; assumption.
Defined.

Section RelayProbe.

Lemma step_probe_events s a s' ev :
  step s a = Some (s', ev) ->
  match a with
  | RelayActiveSelect CaseTick r =>
      ra (life s) = RLoop
      /\ tkPending (raTicker (life s)) = true
      /\ ev = [EvDialRelay (raAddr (life s))]
      /\ ra (life s') = match r with Some e => RSend e | None => RLoop end
  | RelayActiveSend =>
      (exists e, ra (life s) = RSend e /\ ev = [EvErrChSend (Some e)])
      /\ ra (life s') = RStopped
      /\ raTicker (life s') = raTicker (life s)
  | _ => filter isDialRelay ev = []
  end.
Proof.
  intros H. step_cases H; simpl; try no_such_event; repeat split; eauto.
Qed.

Lemma step_probe_state s a s' ev :
  step s a = Some (s', ev) ->
  raAddr (life s') = raAddr (life s)
  /\ match a with
     | Advance d =>
         0 <= d /\ now s' = now s + d
         /\ raTicker (life s') = tickerAdvance (now s + d) (raTicker (life s))
     | RelayActiveSelect c _ =>
         now s' = now s
         /\ raTicker (life s')
            = match c with
              | CaseDone => tickerStop (raTicker (life s))
              | CaseTick => tickerTake (raTicker (life s))
              end
     | _ => now s' = now s /\ raTicker (life s') = raTicker (life s)
     end.
Proof.
  intros H. step_cases H; simpl; repeat split; auto.
  match goal with
  | Hd : (_ <? 0) = false |- _ => apply Z.ltb_ge in Hd; exact Hd
  end.
Qed.

Lemma tickerAdvance_probe now' tk lo :
  tkPeriod tk = 10 * Second ->
  lo <= tkNext tk ->
  (tkPending tk = true -> lo <= now') ->
  tkPeriod (tickerAdvance now' tk) = 10 * Second
  /\ lo <= tkNext (tickerAdvance now' tk)
  /\ (tkPending (tickerAdvance now' tk) = true -> lo <= now').
Proof.
  intros Hp Hn Hq. unfold tickerAdvance.
  destruct (tkStopped tk); [auto|].
  destruct (tkNext tk <=? now') eqn:Hle; [|auto].
  apply Z.leb_le in Hle. simpl. rewrite Hp.
  assert (Hpos : 0 < 10 * Second) by (unfold Second; lia).
  assert (0 <= (now' - tkNext tk) / (10 * Second))
    by (apply Z.div_pos; lia).
  repeat split; auto; try nia; try (intros _; lia).
Qed.

Lemma step_relayProbeTimed t0 addr tr s a s' ev :
  relayProbeTimed t0 addr tr s ->
  step s a = Some (s', ev) ->
  relayProbeTimed t0 addr (tr ++ stamp (now s) ev) s'.
Proof.
  unfold relayProbeTimed. intros [R1 [R2 [R3 [R4 R5]]]] H.
  pose proof (step_probe_events _ _ _ _ H) as He.
  destruct (step_probe_state _ _ _ _ H) as [Ha Hs].
  assert (Hlog : (forall t a0, In (t, EvDialRelay a0) (stamp (now s) ev) ->
                               a0 = addr /\ t0 + 10 * Second <= t) ->
                 forall t a0, In (t, EvDialRelay a0) (tr ++ stamp (now s) ev) ->
                              a0 = addr /\ t0 + 10 * Second <= t).
  { intros Hnew t a0 Hin. apply in_app_or in Hin. destruct Hin; auto. }
  assert (Hnone : filter isDialRelay ev = [] ->
                  forall t a0, In (t, EvDialRelay a0) (stamp (now s) ev) ->
                               a0 = addr /\ t0 + 10 * Second <= t).
  { intros Hf t a0 Hin. apply in_stamp in Hin. destruct Hin as [_ Hin].
    exfalso. exact (filter_nil_not_in isDialRelay _ (EvDialRelay a0) Hf eq_refl Hin). }
  rewrite Ha.
  destruct a as [ |d|c|c|c| |r|c|c w| |r|c r| | |c| |c r| ];
    try (destruct Hs as [Hn Ht]; rewrite Hn, Ht;
         (split; [|split; [|split; [|split]]]); auto; fail).
  - (* Advance *)
    destruct Hs as [Hd [Hn Ht]]. rewrite Hn, Ht.
    destruct (tickerAdvance_probe (now s + d) _ (t0 + 10 * Second) R2 R3)
      as [A1 [A2 A3]]; [intros Hp; specialize (R4 Hp); lia|].
    (split; [|split; [|split; [|split]]]); auto.
  - (* RelayActiveSelect *)
    destruct Hs as [Hn Ht]. rewrite Hn, Ht. destruct c.
    + (split; [|split; [|split; [|split]]]); auto.
    + destruct He as [_ [Hp [-> _]]].
      cbn [tickerTake tkPeriod tkNext tkPending].
      (split; [|split; [|split; [|split]]]); auto; try discriminate.
      apply Hlog. intros t1 a1 Hin1.
      apply in_stamp in Hin1. destruct Hin1 as [-> [Hin1|[]]].
      inversion Hin1; subst. auto.
  - (* RelayActiveSend *)
    destruct Hs as [Hn Ht]. rewrite Hn, Ht.
    destruct He as [[e [_ ->]] _].
    (split; [|split; [|split; [|split]]]); auto.
Qed.

Lemma reach_relayProbeTimed t0 addr s0 tr s :
  reach s0 tr s -> relayProbeTimed t0 addr [] s0 -> relayProbeTimed t0 addr tr s.
Proof.
  intros Hr H0. induction Hr as [|tr s a s' ev Hr IH Hs]; [exact H0|].
  eapply step_relayProbeTimed; eauto.
Qed.

Lemma Listen_start_probe env g t0 ev cfg s0 left :
  Listen_start env g t0 = Return (ev, cfg, inr s0, left) ->
  exists addr,
    client_AllocateTCP env = Ok addr /\ relayProbeTimed t0 addr [] s0.
Proof.
  intros H. listen_start_cases H; eexists; (split; [reflexivity|]);
    unfold relayProbeTimed; simpl; repeat split; try lia; try discriminate;
    contradiction.
Qed.

Lemma step_probeOver s a s' ev :
  probeOver s -> step s a = Some (s', ev) ->
  probeOver s' /\ filter isDialRelay ev = []
  /\ tkStopped (raTicker (life s')) = tkStopped (raTicker (life s)).
Proof.
  unfold probeOver. intros Hp H.
  step_cases H; simpl;
    try (exfalso; destruct Hp as [[? Hp]|Hp]; congruence);
    (split; [first [exact Hp | right; reflexivity]|]);
    (split; [no_such_event|]); try reflexivity.
  unfold tickerAdvance. destruct (tkStopped (raTicker (life s))) eqn:Hst;
    [exact Hst|]. destruct (_ <=? _); [reflexivity|exact Hst].
Qed.

End RelayProbe.

Lemma Listen_start_no_probe env g t0 ev cfg e left :
  Listen_start env g t0 = Return (ev, cfg, inl e, left) ->
  filter isDialRelay ev = [].
Proof.
  intros Hs. listen_start_cases Hs; unfold returns, runDefers;
    destruct (relay_Close env); reflexivity.
Qed.

(** X17.  Every probe of the relay made during a session dials the
    address of the relay allocation, and none is made earlier than ten
    seconds after [Listen] started its tasks: the task sleeps five
    seconds, but its ticker, made before the sleep, first fires after ten. *)
Theorem relay_probe_address_and_time
    (env : ListenEnv) (g : Gateway) (t0 : Z) (acts : list Action)
    (tr : trace) (res : option error + State) :
  Listen env g t0 acts = Some (tr, res) ->
  forall t a, In (t, EvDialRelay a) tr ->
              client_AllocateTCP env = Ok a /\ t0 + 10 * Second <= t.
Proof.
  intros H t a Hin.
  destruct (Listen_cases _ _ _ _ _ _ H)
    as [ev [cfg [[e' [Hs [-> _]]]
                |[[e' [s1 [s [tr' [Hs [Hr [-> _]]]]]]]
                 |[s0 [left [s [tr' [Hs [Hr [-> _]]]]]]]]]]].
  - exfalso. apply in_stamp in Hin. destruct Hin as [_ Hin].
    exact (filter_nil_not_in isDialRelay _ (EvDialRelay a)
             (Listen_start_no_probe _ _ _ _ _ _ _ Hs) eq_refl Hin).
  - exfalso. apply in_app_or in Hin. destruct Hin as [Hin|Hin].
    + apply in_stamp in Hin. destruct Hin as [_ Hin].
      exact (filter_nil_not_in isDialRelay _ (EvDialRelay a)
               (Listen_start_no_probe _ _ _ _ _ _ _ Hs) eq_refl Hin).
    + destruct (Listen_start_left _ _ _ _ _ _ _ Hs) as [Hl _].
      destruct (reach_onlyPermission _ _ _ _ Hr Hl) as [_ Hev].
      assert (Hin' : In (EvDialRelay a) (events tr'))
        by (apply in_events; eauto).
      rewrite Forall_forall in Hev. specialize (Hev _ Hin').
      discriminate Hev.
  - destruct (Listen_start_running _ _ _ _ _ _ _ Hs) as [_ [_ Hev]].
    destruct (Listen_start_probe _ _ _ _ _ _ _ Hs) as [addr [Ha H0]].
    apply in_app_or in Hin. destruct Hin as [Hin|Hin].
    + exfalso. apply in_stamp in Hin. destruct Hin as [_ Hin].
      rewrite Forall_forall in Hev. specialize (Hev _ Hin). discriminate Hev.
    + destruct (reach_relayProbeTimed _ _ _ _ _ Hr H0) as [_ [_ [_ [_ R5]]]].
      destruct (R5 _ _ Hin) as [-> Ht]. auto.
Qed.

Lemma relay_probe_address_and_time_witness :
  exists tr res,
    Listen okListenEnv connectedGateway 0
           [Advance (10 * Second); RelayActiveWakes;
            RelayActiveSelect CaseTick None]
    = Some (tr, res)
    /\ In (10 * Second, EvDialRelay "203.0.113.9:41000") tr
    /\ client_AllocateTCP okListenEnv = Ok "203.0.113.9:41000".
Proof.
  match goal with
  | |- exists tr res, ?L = _ /\ _ =>
      destruct L as [[tr res]|] eqn:HL; [|vm_compute in HL; discriminate HL]
  end.
  exists tr, res. split; [reflexivity|].
  assert (Hin : In (10 * Second, EvDialRelay "203.0.113.9:41000") tr)
    by (evaluate_session HL; simpl; auto 20).
  split; [exact Hin|].
  exact (proj1 (relay_probe_address_and_time _ _ _ _ _ _ HL _ _ Hin)).
Defined.

(** X18.  A failed probe is the last one: once the probe task holds an
    error to send, or has sent it, it makes no further probe whatever
    happens next.  It also returns without stopping its ticker, which
    only the shutdown signal case does. *)
Theorem failed_relay_probe_is_the_last
    (s : State) (acts : list Action) (s' : State) (tr : trace) :
  probeOver s ->
  run s acts = Some (s', tr) ->
  probeOver s'
  /\ filter isDialRelay (events tr) = []
  /\ tkStopped (raTicker (life s')) = tkStopped (raTicker (life s)).
Proof.
  intros Hp Hr. apply run_reach in Hr.
  induction Hr as [|tr s1 a s2 ev Hr IH Hs]; [auto|].
  destruct IH as [I1 [I2 I3]].
  destruct (step_probeOver _ _ _ _ I1 Hs) as [S1 [S2 S3]].
  split; [assumption|]. split; [|congruence].
  rewrite events_app, events_stamp, filter_app, I2, S2. reflexivity.
Qed.

Lemma failed_relay_probe_is_the_last_witness :
  exists s' tr,
    run probeFailedState
        [RelayActiveSend; MainSelect CaseErrCh; Advance (10 * Second)]
    = Some (s', tr)
    /\ filter isDialRelay (events tr) = []
    /\ tkStopped (raTicker (life s')) = false.
Proof.
  destruct (run probeFailedState
              [RelayActiveSend; MainSelect CaseErrCh; Advance (10 * Second)])
    as [[s' tr]|] eqn:HR; [|vm_compute in HR; discriminate HR].
  exists s', tr. split; [reflexivity|].
  destruct (failed_relay_probe_is_the_last probeFailedState _ _ _
              (or_introl (ex_intro _ connRefused eq_refl)) HR) as [_ [H2 H3]].
  split; assumption.
Defined.

(* ================================================================== *)
(** * Properties of the webhook functions *)

Section Objects.

Lemma getField_setField_same k v o : getField k (setField k v o) = Some v.
Proof.
  induction o as [|[k' v'] o IH]; simpl.
  - rewrite String.eqb_refl. reflexivity.
  - destruct (String.eqb k' k) eqn:Hk; simpl.
    + rewrite String.eqb_refl. reflexivity.
    + rewrite Hk. exact IH.
Qed.

Lemma getField_setField_other k k' v o :
  k' <> k -> getField k' (setField k v o) = getField k' o.
Proof.
  intros Hne. induction o as [|[k1 v1] o IH]; simpl.
  - destruct (String.eqb_spec k k'); [congruence|reflexivity].
  - destruct (String.eqb_spec k1 k) as [->|Hk]; simpl.
    + destruct (String.eqb_spec k k'); [congruence|reflexivity].
    + destruct (String.eqb_spec k1 k'); [reflexivity|exact IH].
Qed.

Lemma setField_fresh k v o : getField k o = None -> setField k v o = o ++ [(k, v)].
Proof.
  induction o as [|[k1 v1] o IH]; simpl; [reflexivity|].
  destruct (String.eqb k1 k); [discriminate|].
  intros H. rewrite (IH H). reflexivity.
Qed.

Lemma getWebhookPayload_no_timestamp env eventName details :
  getField "timestamp" (getWebhookPayload env eventName details) = None.
Proof.
  unfold getWebhookPayload. destruct (isSlack env (detType details)); reflexivity.
Qed.

End Objects.

(** X19.  The request [triggerWebhookRequest] sends: the URL is the
    decrypted [encryptedUrl]; the payload is the data with its
    [timestamp] field set to the clock reading, every other field as it
    was; the timeout is 15 seconds.  The signature header is present
    exactly when the webhook has a pass key that decrypts to a non-empty
    string, and it is then the HMAC, under that key, of the payload as it
    is sent, behind the same timestamp. *)
Theorem triggerWebhookRequest_request
    (env : HookEnv) (webhook : TWebhooks) (decryptor : Buffer -> string)
    (data : object) (timestamp : Z) :
  let r := triggerWebhookRequest env webhook decryptor data timestamp in
  reqUrl r = decryptor (whEncryptedUrl webhook)
  /\ getField "timestamp" (reqPayload r) = Some (JNumber timestamp)
  /\ (forall k, k <> "timestamp" -> getField k (reqPayload r) = getField k data)
  /\ reqTimeout r = 15000
  /\ reqHeaders r
     = match whEncryptedPassKey webhook with
       | None => []
       | Some encryptedPassKey =>
           if String.eqb (decryptor encryptedPassKey) "" then []
           else [("x-infisical-signature",
                  ("t=" ++ numberToString timestamp ++ ";"
                     ++ createHmac_sha256_hex env (decryptor encryptedPassKey)
                          (JSON_stringify env (reqPayload r)))%string)]
       end.
Proof.
  cbv zeta. unfold triggerWebhookRequest, decryptWebhookDetails.
  cbn [reqUrl reqPayload reqTimeout reqHeaders secretKey url].
  split; [reflexivity|].
  split; [apply getField_setField_same|].
  split; [intros k Hk; apply getField_setField_other; exact Hk|].
  split; [reflexivity|].
  destruct (whEncryptedPassKey webhook); reflexivity.
Qed.

Section StatusLists.

Lemma skipn_nth (hooks : list TWebhooks) : forall i,
  (i < List.length hooks)%nat ->
  exists h, nth_error hooks i = Some h /\ skipn i hooks = h :: skipn (S i) hooks.
Proof.
  induction hooks as [|h0 hooks IH]; intros i Hi; simpl in Hi; [lia|].
  destruct i as [|i].
  - exists h0. split; reflexivity.
  - destruct (IH i) as [h [H1 H2]]; [lia|].
    exists h. split; [exact H1|]. simpl. exact H2.
Qed.

Lemma mapIndexed_ids {A} (msg : A -> string) hooks : forall (l : list A) i,
  (i + List.length l <= List.length hooks)%nat ->
  mapIndexed (fun data j =>
                match hookIdAt hooks j with
                | Some id => Some (id, msg data)
                | None => None
                end) l i
  = Some (combine (map whId (firstn (List.length l) (skipn i hooks))) (map msg l)).
Proof.
  induction l as [|x l IH]; intros i Hi; [reflexivity|].
  simpl in Hi. cbn [mapIndexed].
  destruct (skipn_nth hooks i) as [h [H1 H2]]; [lia|].
  unfold hookIdAt at 1. rewrite H1. cbn [option_map].
  rewrite IH by lia. rewrite H2. reflexivity.
Qed.

Lemma mapIndexed_success {A} hooks : forall (l : list A) i,
  (i + List.length l <= List.length hooks)%nat ->
  mapIndexed (fun _ j => hookIdAt hooks j) l i
  = Some (map whId (firstn (List.length l) (skipn i hooks))).
Proof.
  induction l as [|x l IH]; intros i Hi; [reflexivity|].
  simpl in Hi. cbn [mapIndexed].
  destruct (skipn_nth hooks i) as [h [H1 H2]]; [lia|].
  unfold hookIdAt at 1. rewrite H1. cbn [option_map].
  rewrite IH by lia. rewrite H2. reflexivity.
Qed.

Lemma settled_split (l : list (settled unit)) :
  (fulfilledCount l + rejectedCount l = List.length l)%nat.
Proof.
  unfold fulfilledCount, rejectedCount.
  induction l as [|[v|m] l IH]; simpl; lia.
Qed.

Lemma reasons_filter (l : list (settled unit)) :
  map (fun data => match data with
                   | Rejected m => m
                   | Fulfilled _ => ""
                   end) (filter isRejected l)
  = reasons l.
Proof.
  unfold reasons. induction l as [|[v|m] l IH]; simpl; congruence.
Qed.

Lemma reasons_length (l : list (settled unit)) :
  List.length (reasons l) = rejectedCount l.
Proof.
  unfold reasons, rejectedCount. induction l as [|[v|m] l IH]; simpl; congruence.
Qed.

Lemma status_lists hooks outs :
  List.length outs = List.length hooks ->
  successWebhooks hooks outs
  = Some (map whId (firstn (fulfilledCount outs) hooks))
  /\ failedWebhooks hooks outs
     = Some (combine (map whId (firstn (rejectedCount outs) hooks)) (reasons outs)).
Proof.
  intros Hlen. pose proof (settled_split outs) as Hs.
  unfold successWebhooks, failedWebhooks. split.
  - rewrite mapIndexed_success by (fold (fulfilledCount outs); lia).
    reflexivity.
  - rewrite (mapIndexed_ids (fun data : settled unit =>
                               match data with
                               | Rejected m => m
                               | Fulfilled _ => ""
                               end))
      by (fold (rejectedCount outs); lia).
    rewrite reasons_filter. reflexivity.
Qed.

Lemma triggerAll_length env dto project hooks : forall i,
  List.length (triggerAll env dto project hooks i) = List.length hooks.
Proof.
  induction hooks as [|h hooks IH]; intros i; simpl; [reflexivity|].
  rewrite IH. reflexivity.
Qed.

Lemma outcomes_length env dto project hooks :
  List.length (outcomes env dto project hooks) = List.length hooks.
Proof.
  unfold outcomes. rewrite length_map. apply triggerAll_length.
Qed.

End StatusLists.

(** X20.  The two status lists are read off by position in the filtered
    results, not by hook.  With one result per triggered hook, the ids
    reported as succeeded are those of the first [k] triggered hooks,
    [k] being the number of fulfilled requests, and the ids reported as
    failed are those of the first [m] triggered hooks, [m] being the
    number of rejected requests, paired with the rejection messages in
    order, whichever hooks the requests belonged to.  The index is always
    in range, so the property read never throws. *)
Theorem status_lists_are_prefixes
    (hooks : list TWebhooks) (outs : list (settled unit)) :
  List.length outs = List.length hooks ->
  successWebhooks hooks outs
  = Some (map whId (firstn (fulfilledCount outs) hooks))
  /\ failedWebhooks hooks outs
     = Some (combine (map whId (firstn (rejectedCount outs) hooks)) (reasons outs))
  /\ (fulfilledCount outs + rejectedCount outs = List.length hooks)%nat.
Proof.
  intros Hlen. destruct (status_lists hooks outs Hlen) as [H1 H2].
  split; [exact H1|]. split; [exact H2|].
  rewrite <- Hlen. apply settled_split.
Qed.

Lemma status_lists_are_prefixes_witness :
  successWebhooks [hookA; hookB] [Rejected "timeout"; Fulfilled tt]
  = Some ["hook-a"]
  /\ failedWebhooks [hookA; hookB] [Rejected "timeout"; Fulfilled tt]
     = Some [("hook-a", "timeout")].
Proof.
  destruct (status_lists_are_prefixes [hookA; hookB]
              [Rejected "timeout"; Fulfilled tt] eq_refl) as [H1 [H2 _]].
  split; [exact H1|exact H2].
Defined.

Section TriggerWebhook.

Lemma posts_app ev1 ev2 : posts (ev1 ++ ev2) = posts ev1 ++ posts ev2.
Proof. apply flat_map_app. Qed.

Lemma updates_app ev1 ev2 : updates (ev1 ++ ev2) = updates ev1 ++ updates ev2.
Proof. apply flat_map_app. Qed.

Lemma bulkUpdates_app ev1 ev2 :
  bulkUpdates (ev1 ++ ev2) = bulkUpdates ev1 ++ bulkUpdates ev2.
Proof. apply flat_map_app. Qed.

Lemma posts_requests (l : list (Request * settled unit)) :
  posts (map (fun p => WhPost (fst p)) l) = map fst l
  /\ updates (map (fun p => WhPost (fst p)) l) = []
  /\ bulkUpdates (map (fun p => WhPost (fst p)) l) = [].
Proof.
  induction l as [|p l [IH1 [IH2 IH3]]]; simpl; [auto|].
  rewrite IH1. auto.
Qed.

(** The ways the transaction callback can end. *)
Lemma updateStatus_cases env dto success failed :
  let ev := fst (updateStatus env dto success failed) in
  let res := snd (updateStatus env dto success failed) in
  posts ev = []
  /\ ~ In (WhLogInfo "Secret webhook job ended") ev
  /\ ((exists m, findOne env = Rejected m /\ res = Rejects (Reason m)
                 /\ updates ev = [] /\ bulkUpdates ev = [])
      \/ (findOne env = Fulfilled None
          /\ res = Rejects (NotFoundError (environment_not_found dto))
          /\ updates ev = [] /\ bulkUpdates ev = [])
      \/ (exists e, findOne env = Fulfilled (Some e)
            /\ updates ev = match success with [] => [] | _ => [success] end
            /\ Forall (fun e' => match e' with
                                 | WhUpdate x _ => x = envId e
                                 | _ => True
                                 end) ev
            /\ ((exists m, success <> [] /\ update env = Rejected m
                           /\ res = Rejects (Reason m) /\ bulkUpdates ev = [])
                \/ ((success = [] \/ exists u, update env = Fulfilled u)
                    /\ bulkUpdates ev = match failed with [] => [] | _ => [failed] end
                    /\ ((failed = [] /\ res = Resolves)
                        \/ (failed <> []
                            /\ ((exists m, bulkUpdate env = Rejected m
                                           /\ res = Rejects (Reason m))
                                \/ (exists u, bulkUpdate env = Fulfilled u)
                                   /\ res = Resolves))))))).
Proof.
  cbv zeta. unfold updateStatus.
  destruct (findOne env) as [[e|]|m]; cbn [fst snd].
  - destruct success as [|id ids]; [|destruct (update env) as [u|m] eqn:Hu];
      (destruct failed as [|row rows];
       [|destruct (bulkUpdate env) as [u'|m'] eqn:Hb]);
      cbn [fst snd app posts updates bulkUpdates flat_map];
      (split; [reflexivity|]);
      (split; [intros Hin; simpl in Hin;
               repeat (destruct Hin as [Hin|Hin]; [discriminate Hin|]);
               exact Hin|]);
      right; right; exists e; (split; [reflexivity|]);
      (split; [reflexivity|]);
      (split; [repeat constructor|]);
      first
        [ solve [ left; eexists; repeat split; eauto; discriminate ]
        | right; (split; [first [left; reflexivity | right; eexists; reflexivity]|]);
          (split; [reflexivity|]);
          first
            [ solve [ left; split; reflexivity ]
            | right; (split; [discriminate|]);
              first [ solve [ left; eexists; split; eauto ]
                    | solve [ right; split; [eexists; eauto|reflexivity] ] ] ] ].
  - split; [reflexivity|]. split; [intros [Hin|[]]; discriminate Hin|].
    right; left. repeat split.
  - split; [reflexivity|]. split; [intros [Hin|[]]; discriminate Hin|].
    left. exists m. repeat split.
Qed.

(** The hooks the filter keeps. *)
Lemma matches_iff env dto h :
  matches env dto h = true
  <-> whIsDisabled h = false
      /\ picomatch_isMatch env (secretPath dto) (whSecretPath h) = Returns true.
Proof.
  unfold matches, toBeTriggered. destruct (whIsDisabled h).
  - split; [discriminate|intros [H _]; discriminate H].
  - destruct (picomatch_isMatch env (secretPath dto) (whSecretPath h))
      as [[|]|e]; split; intros H; try discriminate H; auto;
      destruct H as [_ H]; discriminate H.
Qed.

Lemma toBeTriggered_false env dto h :
  toBeTriggered env dto h = Returns false
  <-> whIsDisabled h = true
      \/ picomatch_isMatch env (secretPath dto) (whSecretPath h) = Returns false.
Proof.
  unfold toBeTriggered. destruct (whIsDisabled h).
  - split; auto.
  - split; [auto|]. intros [H|H]; [discriminate H|exact H].
Qed.

Lemma toBeTriggered_returns env dto h b :
  toBeTriggered env dto h = Returns b ->
  whIsDisabled h = true
  \/ exists b', picomatch_isMatch env (secretPath dto) (whSecretPath h)
                = Returns b'.
Proof.
  unfold toBeTriggered. destruct (whIsDisabled h); [auto|]. eauto.
Qed.

Lemma toBeTriggered_throws env dto h e :
  toBeTriggered env dto h = Throws e
  <-> whIsDisabled h = false
      /\ picomatch_isMatch env (secretPath dto) (whSecretPath h) = Throws e.
Proof.
  unfold toBeTriggered. destruct (whIsDisabled h).
  - split; [discriminate|intros [H _]; discriminate H].
  - split; [auto|intros [_ H]; exact H].
Qed.

Lemma toBeTriggeredHooks_returns env dto webhooks : forall hooks,
  toBeTriggeredHooks env dto webhooks = Returns hooks ->
  hooks = filter (matches env dto) webhooks.
Proof.
  induction webhooks as [|h rest IH]; intros hooks H; simpl in H.
  - inversion H. reflexivity.
  - cbn [filter]. unfold matches at 1.
    destruct (toBeTriggered env dto h) as [b|e]; [|discriminate H].
    destruct (toBeTriggeredHooks env dto rest) as [hs|e]; [|discriminate H].
    inversion H; subst. rewrite (IH hs eq_refl). destruct b; reflexivity.
Qed.

Lemma toBeTriggeredHooks_nil env dto webhooks :
  toBeTriggeredHooks env dto webhooks = Returns []
  <-> forall h, In h webhooks ->
                whIsDisabled h = true
                \/ picomatch_isMatch env (secretPath dto) (whSecretPath h)
                   = Returns false.
Proof.
  induction webhooks as [|h rest IH]; simpl.
  - split; [intros _ h []|reflexivity].
  - split.
    + intros H h' Hin.
      destruct (toBeTriggered env dto h) as [b|e] eqn:Ht; [|discriminate H].
      destruct (toBeTriggeredHooks env dto rest) as [hs|e]; [|discriminate H].
      destruct b; [discriminate H|]. inversion H; subst.
      destruct Hin as [<-|Hin].
      * apply toBeTriggered_false. exact Ht.
      * apply (proj1 IH eq_refl). exact Hin.
    + intros H.
      rewrite (proj2 (toBeTriggered_false env dto h) (H h (or_introl eq_refl))).
      rewrite (proj2 IH (fun h' Hin => H h' (or_intror Hin))). reflexivity.
Qed.

Lemma toBeTriggeredHooks_throws env dto webhooks e :
  toBeTriggeredHooks env dto webhooks = Throws e
  <-> exists pre h post,
        webhooks = pre ++ h :: post
        /\ whIsDisabled h = false
        /\ picomatch_isMatch env (secretPath dto) (whSecretPath h) = Throws e
        /\ forall h', In h' pre ->
             whIsDisabled h' = true
             \/ exists b, picomatch_isMatch env (secretPath dto) (whSecretPath h')
                          = Returns b.
Proof.
  split.
  - induction webhooks as [|h rest IH]; simpl; [discriminate|].
    intros H. destruct (toBeTriggered env dto h) as [b|e'] eqn:Ht.
    + destruct (toBeTriggeredHooks env dto rest) as [hs|e'']; [discriminate H|].
      inversion H; subst.
      destruct (IH eq_refl) as [pre [h0 [post [-> [H1 [H2 H3]]]]]].
      exists (h :: pre), h0, post. split; [reflexivity|].
      split; [exact H1|]. split; [exact H2|].
      intros h' [<-|Hin]; [exact (toBeTriggered_returns _ _ _ _ Ht)|auto].
    + inversion H; subst. apply toBeTriggered_throws in Ht.
      exists [], h, rest. split; [reflexivity|].
      split; [apply Ht|]. split; [apply Ht|]. intros h' [].
  - intros [pre [h [post [-> [H1 [H2 H3]]]]]].
    induction pre as [|p pre IH]; simpl.
    + rewrite (proj2 (toBeTriggered_throws env dto h e) (conj H1 H2)).
      reflexivity.
    + assert (Hp : exists b, toBeTriggered env dto p = Returns b).
      { unfold toBeTriggered.
        destruct (H3 p (or_introl eq_refl)) as [Hd|[b Hb]].
        - rewrite Hd. eauto.
        - destruct (whIsDisabled p); eauto. }
      destruct Hp as [b ->].
      rewrite (IH (fun h' Hin => H3 h' (or_intror Hin))). reflexivity.
Qed.

(** How the transaction ends, by how its callback ends. *)
Lemma transaction_cases env cb :
  (exists m, transaction_begin env = Rejected m
             /\ transaction env cb = ([WhTransaction], Rejects (Reason m)))
  \/ (exists u, transaction_begin env = Fulfilled u
        /\ fst (transaction env cb) = WhTransaction :: fst cb
        /\ ((exists r, snd cb = Rejects r /\ snd (transaction env cb) = Rejects r)
            \/ (snd cb = Resolves
                /\ ((exists m, transaction_commit env = Rejected m
                               /\ snd (transaction env cb) = Rejects (Reason m))
                    \/ (exists u', transaction_commit env = Fulfilled u'
                                   /\ snd (transaction env cb) = Resolves))))).
Proof.
  unfold transaction. destruct (transaction_begin env) as [u|m]; [|eauto].
  right. exists u. split; [reflexivity|].
  destruct cb as [ev [|r]]; cbn [fst snd].
  - destruct (transaction_commit env) as [u'|m]; (split; [reflexivity|]);
      right; (split; [reflexivity|]); eauto.
  - split; [reflexivity|]. left. eauto.
Qed.

Lemma fnTriggerWebhook_triggered env dto webhooks hooks project :
  findAllWebhooks env = Fulfilled webhooks ->
  toBeTriggeredHooks env dto webhooks = Returns hooks ->
  hooks <> [] ->
  findById env = Fulfilled project ->
  let outs := outcomes env dto project hooks in
  let st := transaction env
              (updateStatus env dto
                 (map whId (firstn (fulfilledCount outs) hooks))
                 (combine (map whId (firstn (rejectedCount outs) hooks))
                          (reasons outs))) in
  fnTriggerWebhook env dto
  = ([WhFindAllWebhooks (projectId dto) (environment dto);
      WhLogInfo "Secret webhook job started"; WhFindById (projectId dto)]
       ++ map (fun p => WhPost (fst p)) (triggerAll env dto project hooks 0)
       ++ fst st
       ++ match snd st with
          | Resolves => [WhLogInfo "Secret webhook job ended"]
          | Rejects _ => []
          end,
     snd st).
Proof.
  intros Hall Hf Hne Hby. cbv zeta. unfold fnTriggerWebhook.
  rewrite Hall, Hf. destruct hooks as [|h hooks]; [congruence|].
  rewrite Hby.
  destruct (status_lists (h :: hooks) (outcomes env dto project (h :: hooks))
              (outcomes_length _ _ _ _)) as [H1 H2].
  unfold outcomes in H1, H2. rewrite H1, H2.
  fold (outcomes env dto project (h :: hooks)).
  destruct (transaction env _) as [ev3 [|r]]; cbn [fst snd];
    rewrite <- ?app_assoc; cbn [app]; rewrite ?app_nil_r; reflexivity.
Qed.

(** What a run that triggers hooks writes after its requests. *)
Lemma transaction_updateStatus_posts env dto success failed :
  posts (fst (transaction env (updateStatus env dto success failed))) = [].
Proof.
  destruct (transaction_cases env (updateStatus env dto success failed))
    as [[m [_ ->]]|[u [_ [-> _]]]]; [reflexivity|].
  cbn [posts flat_map app]. apply (updateStatus_cases env dto success failed).
Qed.

Lemma triggerAll_requests env dto project hooks : forall i0 r o,
  In (r, o) (triggerAll env dto project hooks i0) ->
  exists h i,
    In h hooks
    /\ r = triggerWebhookRequest env h (secretManagerDecryptor dto)
             (getWebhookPayload env "secrets.modified"
                (mkPayloadDetails (projectName project) (projectId dto)
                   (environment dto) (Some (secretPath dto)) (whType h)))
             (Date_now env i).
Proof.
  induction hooks as [|h hooks IH]; intros i0 r o Hin; [contradiction|].
  destruct Hin as [Hin|Hin].
  - inversion Hin; subst. exists h, i0. split; [left; reflexivity|reflexivity].
  - destruct (IH _ _ _ Hin) as [h' [i [H1 H2]]].
    exists h', i. split; [right; exact H1|exact H2].
Qed.

Lemma triggerAll_urls env dto project hooks : forall i0,
  map (fun p => reqUrl (fst p)) (triggerAll env dto project hooks i0)
  = map (fun h => secretManagerDecryptor dto (whEncryptedUrl h)) hooks.
Proof.
  induction hooks as [|h hooks IH]; intros i0; [reflexivity|].
  simpl. rewrite IH. reflexivity.
Qed.

End TriggerWebhook.

(** X21.  When the data layer returns the webhooks, the filter decides
    how [fnTriggerWebhook] goes on.  It returns at once, having done
    nothing but the lookup, exactly when every webhook is disabled or
    picomatch returns false for its secret path.  It rejects at once,
    having done nothing but the lookup, exactly when the filter throws:
    picomatch throws for an enabled webhook, and for every webhook before
    it that is enabled picomatch returned.  picomatch is not called for
    a disabled webhook, so the path of a disabled one never matters.
    When the filter keeps a webhook the job starts. *)
Theorem fnTriggerWebhook_nothing_to_trigger
    (env : HookEnv) (dto : TFnTriggerWebhookDTO) (webhooks : list TWebhooks) :
  findAllWebhooks env = Fulfilled webhooks ->
  (fnTriggerWebhook env dto
   = ([WhFindAllWebhooks (projectId dto) (environment dto)], Resolves)
   <-> forall h, In h webhooks ->
                 whIsDisabled h = true
                 \/ picomatch_isMatch env (secretPath dto) (whSecretPath h)
                    = Returns false)
  /\ (forall e,
        fnTriggerWebhook env dto
        = ([WhFindAllWebhooks (projectId dto) (environment dto)], Rejects e)
        <-> exists pre h post,
              webhooks = pre ++ h :: post
              /\ whIsDisabled h = false
              /\ picomatch_isMatch env (secretPath dto) (whSecretPath h)
                 = Throws e
              /\ forall h', In h' pre ->
                   whIsDisabled h' = true
                   \/ exists b,
                        picomatch_isMatch env (secretPath dto) (whSecretPath h')
                        = Returns b)
  /\ (forall h hooks,
        toBeTriggeredHooks env dto webhooks = Returns (h :: hooks) ->
        exists ev,
          fst (fnTriggerWebhook env dto)
          = [WhFindAllWebhooks (projectId dto) (environment dto);
             WhLogInfo "Secret webhook job started";
             WhFindById (projectId dto)] ++ ev).
Proof.
  intros Hall.
  assert (Hlong : forall h hooks,
             toBeTriggeredHooks env dto webhooks = Returns (h :: hooks) ->
             exists ev,
               fst (fnTriggerWebhook env dto)
               = [WhFindAllWebhooks (projectId dto) (environment dto);
                  WhLogInfo "Secret webhook job started";
                  WhFindById (projectId dto)] ++ ev).
  { intros h hooks Hf. unfold fnTriggerWebhook. rewrite Hall, Hf.
    destruct (findById env) as [project|m]; [|exists []; reflexivity].
    destruct (successWebhooks _ _); [|eexists; cbn [fst app]; reflexivity].
    destruct (failedWebhooks _ _); [|eexists; cbn [fst app]; reflexivity].
    destruct (transaction env _) as [ev3 [|r]];
      eexists; cbn [fst app]; reflexivity. }
  split; [|split; [|exact Hlong]].
  - rewrite <- toBeTriggeredHooks_nil. split.
    + intros Hrun.
      destruct (toBeTriggeredHooks env dto webhooks) as [[|h hooks]|e] eqn:Hf;
        [reflexivity| |].
      * destruct (Hlong h hooks eq_refl) as [ev Hev].
        rewrite Hrun in Hev. discriminate Hev.
      * unfold fnTriggerWebhook in Hrun. rewrite Hall, Hf in Hrun.
        discriminate Hrun.
    + intros Hf. unfold fnTriggerWebhook. rewrite Hall, Hf. reflexivity.
  - intros e. rewrite <- toBeTriggeredHooks_throws. split.
    + intros Hrun.
      destruct (toBeTriggeredHooks env dto webhooks) as [[|h hooks]|e'] eqn:Hf.
      * unfold fnTriggerWebhook in Hrun. rewrite Hall, Hf in Hrun.
        discriminate Hrun.
      * destruct (Hlong h hooks eq_refl) as [ev Hev].
        rewrite Hrun in Hev. discriminate Hev.
      * unfold fnTriggerWebhook in Hrun. rewrite Hall, Hf in Hrun.
        inversion Hrun. reflexivity.
    + intros Hf. unfold fnTriggerWebhook. rewrite Hall, Hf. reflexivity.
Qed.

Lemma fnTriggerWebhook_nothing_to_trigger_witness :
  fnTriggerWebhook
    (hookEnvWith [hookOff; hookNoPathOff] (Fulfilled tt) (Fulfilled tt))
    exampleDTO
  = ([WhFindAllWebhooks "project-1" "dev"], Resolves)
  /\ fnTriggerWebhook
       (hookEnvWith [hookOff; hookNoPath; hookA] (Fulfilled tt) (Fulfilled tt))
       exampleDTO
     = ([WhFindAllWebhooks "project-1" "dev"], Rejects empty_pattern).
Proof.
  split.
  - apply (proj2 (proj1 (fnTriggerWebhook_nothing_to_trigger
                    (hookEnvWith [hookOff; hookNoPathOff]
                                 (Fulfilled tt) (Fulfilled tt))
                    exampleDTO [hookOff; hookNoPathOff] eq_refl))).
    intros h [<-|[<-|[]]]; left; reflexivity.
  - apply (proj2 (proj1 (proj2 (fnTriggerWebhook_nothing_to_trigger
                    (hookEnvWith [hookOff; hookNoPath; hookA]
                                 (Fulfilled tt) (Fulfilled tt))
                    exampleDTO [hookOff; hookNoPath; hookA] eq_refl))
                  empty_pattern)).
    exists [hookOff], hookNoPath, [hookA].
    split; [reflexivity|]. split; [reflexivity|]. split; [reflexivity|].
    intros h' [<-|[]]. left. reflexivity.
Defined.

(** X22.  Every POST of a run goes to a webhook that is enabled and for
    whose secret path picomatch returned true: its URL is the decrypted
    URL of such a webhook and its payload is the payload for that
    webhook's type with the timestamp appended.  When the filter returns
    and the project is found, each enabled matching webhook gets exactly
    one POST, in the order of the lookup, whatever happens to the status
    update afterwards; when the filter throws, no POST is made. *)
Theorem fnTriggerWebhook_posts
    (env : HookEnv) (dto : TFnTriggerWebhookDTO) :
  (forall r, In r (posts (fst (fnTriggerWebhook env dto))) ->
     exists webhooks project h i,
       findAllWebhooks env = Fulfilled webhooks
       /\ findById env = Fulfilled project
       /\ In h webhooks /\ whIsDisabled h = false
       /\ picomatch_isMatch env (secretPath dto) (whSecretPath h) = Returns true
       /\ reqUrl r = secretManagerDecryptor dto (whEncryptedUrl h)
       /\ reqPayload r
          = getWebhookPayload env "secrets.modified"
              (mkPayloadDetails (projectName project) (projectId dto)
                 (environment dto) (Some (secretPath dto)) (whType h))
              ++ [("timestamp", JNumber (Date_now env i))])
  /\ (forall webhooks project,
        findAllWebhooks env = Fulfilled webhooks ->
        findById env = Fulfilled project ->
        map reqUrl (posts (fst (fnTriggerWebhook env dto)))
        = match toBeTriggeredHooks env dto webhooks with
          | Returns _ =>
              map (fun h => secretManagerDecryptor dto (whEncryptedUrl h))
                  (filter (matches env dto) webhooks)
          | Throws _ => []
          end).
Proof.
  split.
  - intros r Hin.
    destruct (findAllWebhooks env) as [webhooks|m] eqn:Hall;
      [|unfold fnTriggerWebhook in Hin; rewrite Hall in Hin; contradiction].
    destruct (toBeTriggeredHooks env dto webhooks) as [[|h0 hooks]|e] eqn:Hf;
      [unfold fnTriggerWebhook in Hin; rewrite Hall, Hf in Hin; contradiction
      | |unfold fnTriggerWebhook in Hin; rewrite Hall, Hf in Hin; contradiction].
    destruct (findById env) as [project|m] eqn:Hby;
      [|unfold fnTriggerWebhook in Hin; rewrite Hall, Hf, Hby in Hin;
        contradiction].
    rewrite (fnTriggerWebhook_triggered env dto webhooks (h0 :: hooks) project
               Hall Hf ltac:(discriminate) Hby) in Hin.
    cbn [fst] in Hin. rewrite !posts_app in Hin. cbn [posts flat_map app] in Hin.
    rewrite (proj1 (posts_requests _)) in Hin.
    apply in_app_or in Hin. destruct Hin as [Hin|Hin].
    + apply in_map_iff in Hin. destruct Hin as [[r' o] [Hr Hin]].
      cbn [fst] in Hr. subst r'.
      destruct (triggerAll_requests _ _ _ _ _ _ _ Hin) as [h [i [Hh ->]]].
      rewrite (toBeTriggeredHooks_returns _ _ _ _ Hf) in Hh.
      apply filter_In in Hh. destruct Hh as [Hh Ht].
      apply matches_iff in Ht. destruct Ht as [Ht1 Ht2].
      exists webhooks, project, h, i.
      split; [reflexivity|]. split; [reflexivity|]. split; [exact Hh|].
      split; [exact Ht1|]. split; [exact Ht2|]. split; [reflexivity|].
      unfold triggerWebhookRequest. cbn [reqPayload].
      apply setField_fresh, getWebhookPayload_no_timestamp.
    + exfalso. rewrite transaction_updateStatus_posts in Hin.
      destruct (snd (transaction _ _)); simpl in Hin; exact Hin.
  - intros webhooks project Hall Hby.
    destruct (toBeTriggeredHooks env dto webhooks) as [[|h0 hooks]|e] eqn:Hf.
    + unfold fnTriggerWebhook. rewrite Hall, Hf.
      rewrite <- (toBeTriggeredHooks_returns _ _ _ _ Hf). reflexivity.
    + rewrite (fnTriggerWebhook_triggered env dto webhooks (h0 :: hooks) project
                 Hall Hf ltac:(discriminate) Hby).
      cbn [fst]. rewrite !posts_app. cbn [posts flat_map app].
      rewrite (proj1 (posts_requests _)).
      rewrite transaction_updateStatus_posts.
      replace (posts match snd (transaction env _) with
                     | Resolves => [WhLogInfo "Secret webhook job ended"]
                     | Rejects _ => []
                     end) with (@nil Request)
        by (destruct (snd (transaction env _)); reflexivity).
      rewrite !app_nil_r, map_map.
      rewrite <- (toBeTriggeredHooks_returns _ _ _ _ Hf).
      apply triggerAll_urls.
    + unfold fnTriggerWebhook. rewrite Hall, Hf. reflexivity.
Qed.

Lemma fnTriggerWebhook_posts_witness :
  map reqUrl (posts (fst (fnTriggerWebhook (exampleHookEnv None) exampleDTO)))
  = ["enc(https://a.example/hook)"; "enc(https://b.example/hook)"].
Proof.
  exact (proj2 (fnTriggerWebhook_posts (exampleHookEnv None) exampleDTO)
           [hookA; hookOff; hookNoPathOff; hookB] (mkProject "demo")
           eq_refl eq_refl).
Defined.

(** X23.  What the status update writes, when the filter returns, the
    project and the environment are found, the transaction begins and
    the first update succeeds.  The hooks marked as succeeded are the
    first [k] triggered hooks and the hooks marked as failed are the
    first [m] triggered hooks, [k] and [m] being the numbers of fulfilled
    and rejected requests; each update is made at most once and only for
    a non-empty list.  So when some requests succeed and some fail, the
    first triggered hook is written by both updates, whatever its own
    request did. *)
Theorem fnTriggerWebhook_status_update
    (env : HookEnv) (dto : TFnTriggerWebhookDTO)
    (webhooks hooks : list TWebhooks) (project : Project) (e : ProjectEnv)
    (u u' : unit) :
  findAllWebhooks env = Fulfilled webhooks ->
  toBeTriggeredHooks env dto webhooks = Returns hooks ->
  findById env = Fulfilled project ->
  transaction_begin env = Fulfilled u' ->
  findOne env = Fulfilled (Some e) ->
  update env = Fulfilled u ->
  let outs := outcomes env dto project hooks in
  let k := fulfilledCount outs in
  let m := rejectedCount outs in
  let ev := fst (fnTriggerWebhook env dto) in
  hooks = filter (matches env dto) webhooks
  /\ (k + m = List.length hooks)%nat
  /\ updates ev = match k with
                  | O => []
                  | S _ => [map whId (firstn k hooks)]
                  end
  /\ bulkUpdates ev = match m with
                      | O => []
                      | S _ => [combine (map whId (firstn m hooks)) (reasons outs)]
                      end
  /\ (forall h0 rest, hooks = h0 :: rest -> (0 < k)%nat -> (0 < m)%nat ->
        exists ids msg rows,
          updates ev = [whId h0 :: ids]
          /\ bulkUpdates ev = [(whId h0, msg) :: rows]).
Proof.
  intros Hall Hf Hby Hbegin Hone Hup. cbv zeta.
  split; [exact (toBeTriggeredHooks_returns _ _ _ _ Hf)|].
  destruct hooks as [|h0 rest].
  - unfold fnTriggerWebhook. rewrite Hall, Hf. cbn.
    split; [reflexivity|]. split; [reflexivity|]. split; [reflexivity|].
    intros h1 rest1 Hh. discriminate Hh.
  - rewrite (fnTriggerWebhook_triggered env dto webhooks (h0 :: rest) project
               Hall Hf ltac:(discriminate) Hby).
    cbn [fst].
    set (outs := outcomes env dto project (h0 :: rest)).
    assert (Hlen : (fulfilledCount outs + rejectedCount outs
                    = List.length (h0 :: rest))%nat).
    { rewrite <- (outcomes_length env dto project (h0 :: rest)).
      apply settled_split. }
    assert (Hrl : List.length (reasons outs) = rejectedCount outs)
      by apply reasons_length.
    rewrite !updates_app, !bulkUpdates_app.
    cbn [updates bulkUpdates flat_map app].
    rewrite (proj1 (proj2 (posts_requests _))).
    rewrite (proj2 (proj2 (posts_requests _))).
    unfold transaction. rewrite Hbegin.
    unfold updateStatus. rewrite Hone, Hup.
    split; [exact Hlen|].
    destruct (fulfilledCount outs) as [|k'] eqn:Hk;
      destruct (rejectedCount outs) as [|m'] eqn:Hm;
      try (simpl in Hlen; lia);
      try (destruct (reasons outs) as [|msg msgs]; [discriminate Hrl|]);
      cbn [firstn map combine fst snd app updates bulkUpdates flat_map];
      try destruct (bulkUpdate env);
      cbn [firstn map combine fst snd app updates bulkUpdates flat_map];
      try destruct (transaction_commit env);
      cbn [firstn map combine fst snd app updates bulkUpdates flat_map];
      (split; [reflexivity|]); (split; [reflexivity|]);
      intros h1 rest1 Hh Hk1 Hm1; try lia;
      inversion Hh; subst; eauto.
Qed.

Lemma fnTriggerWebhook_status_update_witness :
  updates (fst (fnTriggerWebhook (exampleHookEnv (Some (mkProjectEnv "env-1")))
                  exampleDTO))
  = [["hook-a"]]
  /\ bulkUpdates (fst (fnTriggerWebhook
                         (exampleHookEnv (Some (mkProjectEnv "env-1")))
                         exampleDTO))
     = [[("hook-a", "timeout of 15000ms exceeded")]].
Proof.
  destruct (fnTriggerWebhook_status_update
              (exampleHookEnv (Some (mkProjectEnv "env-1"))) exampleDTO
              [hookA; hookOff; hookNoPathOff; hookB] [hookA; hookB]
              (mkProject "demo") (mkProjectEnv "env-1") tt tt
              eq_refl eq_refl eq_refl eq_refl eq_refl eq_refl)
    as [_ [_ [H1 [H2 _]]]].
  split; [exact H1|exact H2].
Defined.

(** X24.  The environment is looked up only after every request has been
    sent.  When the filter keeps some webhooks, the project is found, the
    transaction begins and the environment is not found, the webhooks
    have been called all the same, no status is written, and the function
    rejects with the not-found error without logging the end of the
    job. *)
Theorem fnTriggerWebhook_environment_not_found
    (env : HookEnv) (dto : TFnTriggerWebhookDTO)
    (webhooks hooks : list TWebhooks) (project : Project) (u : unit) :
  findAllWebhooks env = Fulfilled webhooks ->
  toBeTriggeredHooks env dto webhooks = Returns hooks ->
  hooks <> [] ->
  findById env = Fulfilled project ->
  transaction_begin env = Fulfilled u ->
  findOne env = Fulfilled None ->
  let ev := fst (fnTriggerWebhook env dto) in
  snd (fnTriggerWebhook env dto)
  = Rejects (NotFoundError (environment_not_found dto))
  /\ hooks = filter (matches env dto) webhooks
  /\ List.length (posts ev) = List.length hooks
  /\ updates ev = [] /\ bulkUpdates ev = []
  /\ ~ In (WhLogInfo "Secret webhook job ended") ev.
Proof.
  intros Hall Hf Hne Hby Hbegin Hone. cbv zeta.
  rewrite (fnTriggerWebhook_triggered env dto webhooks hooks project
             Hall Hf Hne Hby).
  unfold transaction. rewrite Hbegin.
  unfold updateStatus. rewrite Hone. cbn [fst snd].
  split; [reflexivity|].
  split; [exact (toBeTriggeredHooks_returns _ _ _ _ Hf)|].
  rewrite !posts_app, !updates_app, !bulkUpdates_app.
  cbn [posts updates bulkUpdates flat_map app].
  destruct (posts_requests (triggerAll env dto project hooks 0))
    as [P1 [P2 P3]].
  rewrite P1, P2, P3, !app_nil_r, length_map, triggerAll_length.
  split; [reflexivity|]. split; [reflexivity|]. split; [reflexivity|].
  intros Hin.
  repeat (destruct Hin as [Hin|Hin]; [discriminate Hin|]).
  apply in_app_or in Hin. destruct Hin as [Hin|Hin].
  - apply in_map_iff in Hin. destruct Hin as [p [Hp _]]. discriminate Hp.
  - simpl in Hin.
    repeat (destruct Hin as [Hin|Hin]; [discriminate Hin|]). exact Hin.
Qed.

Lemma fnTriggerWebhook_environment_not_found_witness :
  snd (fnTriggerWebhook (exampleHookEnv None) exampleDTO)
  = Rejects (NotFoundError
               "Environment with slug 'dev' in project with ID 'project-1' not found")
  /\ List.length (posts (fst (fnTriggerWebhook (exampleHookEnv None) exampleDTO)))
     = 2%nat.
Proof.
  destruct (fnTriggerWebhook_environment_not_found
              (exampleHookEnv None) exampleDTO
              [hookA; hookOff; hookNoPathOff; hookB] [hookA; hookB]
              (mkProject "demo") tt
              eq_refl eq_refl ltac:(discriminate) eq_refl eq_refl eq_refl)
    as [H1 [_ [H2 _]]].
  split; [exact H1|exact H2].
Defined.

(** X25.  What makes [fnTriggerWebhook] reject.  It rejects only with the
    error picomatch threw for an enabled webhook, with the not-found
    error of a missing environment, or with the error of a call of the
    data layer that rejected: the lookup of the webhooks or of the
    project, the begin or the commit of the transaction, the lookup of
    the environment or one of the two updates.  A request that fails
    never makes it reject, and the index into the triggered hooks never
    throws: when the filter returns and no call of the data layer
    rejects, the function resolves if the environment is found, however
    the requests settle. *)
Theorem fnTriggerWebhook_rejection_causes
    (env : HookEnv) (dto : TFnTriggerWebhookDTO) :
  (forall e,
      snd (fnTriggerWebhook env dto) = Rejects e ->
      (e = NotFoundError (environment_not_found dto)
       /\ findOne env = Fulfilled None)
      \/ (exists webhooks h,
            findAllWebhooks env = Fulfilled webhooks
            /\ In h webhooks /\ whIsDisabled h = false
            /\ picomatch_isMatch env (secretPath dto) (whSecretPath h)
               = Throws e)
      \/ exists m,
           e = Reason m
           /\ (findAllWebhooks env = Rejected m \/ findById env = Rejected m
               \/ transaction_begin env = Rejected m
               \/ findOne env = Rejected m \/ update env = Rejected m
               \/ bulkUpdate env = Rejected m
               \/ transaction_commit env = Rejected m))
  /\ (forall webhooks hooks project en u1 u2 u3 u4,
        findAllWebhooks env = Fulfilled webhooks ->
        toBeTriggeredHooks env dto webhooks = Returns hooks ->
        findById env = Fulfilled project ->
        transaction_begin env = Fulfilled u1 ->
        findOne env = Fulfilled (Some en) ->
        update env = Fulfilled u2 ->
        bulkUpdate env = Fulfilled u3 ->
        transaction_commit env = Fulfilled u4 ->
        snd (fnTriggerWebhook env dto) = Resolves).
Proof.
  split.
  - intros e H.
    destruct (findAllWebhooks env) as [webhooks|m] eqn:Hall;
      [|unfold fnTriggerWebhook in H; rewrite Hall in H; inversion H;
        right; right; eauto].
    destruct (toBeTriggeredHooks env dto webhooks) as [[|h0 hooks]|e'] eqn:Hf;
      [unfold fnTriggerWebhook in H; rewrite Hall, Hf in H; discriminate H
      | |].
    2:{ unfold fnTriggerWebhook in H. rewrite Hall, Hf in H.
        inversion H; subst.
        apply toBeTriggeredHooks_throws in Hf.
        destruct Hf as [pre [h [post [-> [H1 [H2 _]]]]]].
        right; left. exists (pre ++ h :: post), h.
        split; [reflexivity|]. split; [apply in_elt|]. auto. }
    destruct (findById env) as [project|m] eqn:Hby;
      [|unfold fnTriggerWebhook in H; rewrite Hall, Hf, Hby in H;
        inversion H; right; right; eauto 7].
    rewrite (fnTriggerWebhook_triggered env dto webhooks (h0 :: hooks) project
               Hall Hf ltac:(discriminate) Hby) in H.
    cbn [snd] in H.
    set (outs := outcomes env dto project (h0 :: hooks)) in *.
    set (success := map whId (firstn (fulfilledCount outs) (h0 :: hooks))) in *.
    set (failed := combine (map whId (firstn (rejectedCount outs) (h0 :: hooks)))
                           (reasons outs)) in *.
    destruct (updateStatus_cases env dto success failed) as [_ [_ Hc]].
    cbv zeta in Hc.
    destruct (transaction_cases env (updateStatus env dto success failed))
      as [[m [Hb Ht]]|[u [Hb [_ [[r [Hr Ht]]|[Hr [[m [Hcm Ht]]|[u' [_ Ht]]]]]]]]].
    + rewrite Ht in H. inversion H; subst. right; right. exists m. auto 8.
    + rewrite Ht in H. inversion H; subst. rewrite Hr in Hc.
      destruct Hc as [[m [H1 [H2 _]]]|[[H1 [H2 _]]|[e' [H1 [_ [_ Hc]]]]]].
      * inversion H2; subst. right; right. exists m. auto 8.
      * inversion H2; subst. left. auto.
      * destruct Hc as [[m [_ [H2 [H3 _]]]]|[_ [_ Hc]]].
        -- inversion H3; subst. right; right. exists m. auto 8.
        -- destruct Hc as [[_ Hc]|[_ [[m [H2 H3]]|[_ Hc]]]];
             try discriminate Hc.
           inversion H3; subst. right; right. exists m. auto 8.
    + rewrite Ht in H. inversion H; subst. right; right. exists m.
      split; [reflexivity|]. do 6 right. exact Hcm.
    + rewrite Ht in H. discriminate H.
  - intros webhooks hooks project en u1 u2 u3 u4
           Hall Hf Hby Hbegin Hone Hup Hbulk Hcommit.
    destruct hooks as [|h0 hooks].
    + unfold fnTriggerWebhook. rewrite Hall, Hf. reflexivity.
    + rewrite (fnTriggerWebhook_triggered env dto webhooks (h0 :: hooks) project
                 Hall Hf ltac:(discriminate) Hby).
      cbn [snd]. unfold transaction. rewrite Hbegin.
      unfold updateStatus. rewrite Hone, Hup, Hbulk.
      destruct (map whId _); destruct (combine _ _); cbn;
        rewrite Hcommit; reflexivity.
Qed.

Lemma fnTriggerWebhook_rejection_causes_witness :
  findOne (exampleHookEnv None) = Fulfilled None
  /\ snd (fnTriggerWebhook (exampleHookEnv (Some (mkProjectEnv "env-1")))
            exampleDTO)
     = Resolves.
Proof.
  split.
  - destruct (proj1 (fnTriggerWebhook_rejection_causes
                       (exampleHookEnv None) exampleDTO)
                (NotFoundError (environment_not_found exampleDTO)) eq_refl)
      as [[_ H]|[[ws [h [_ [_ [_ H]]]]]|[m [H _]]]];
      [exact H| |discriminate H].
    exfalso. unfold exampleHookEnv, exampleIsMatch in H. cbn in H.
    destruct (String.eqb (whSecretPath h) ""); discriminate H.
  - exact (proj2 (fnTriggerWebhook_rejection_causes
                    (exampleHookEnv (Some (mkProjectEnv "env-1"))) exampleDTO)
             [hookA; hookOff; hookNoPathOff; hookB] [hookA; hookB]
             (mkProject "demo") (mkProjectEnv "env-1") tt tt tt tt
             eq_refl eq_refl eq_refl eq_refl eq_refl eq_refl eq_refl eq_refl).
Defined.
